(** * Graph.cpp / Vertex.cpp: adjacency-list graph with all-pairs Dijkstra

    A shallow embedding of the [Graph] class.  C++ [int] values are
    mathematical integers of [Z] restricted to the 32-bit range; every
    operation whose C++ behaviour is undefined (an array subscript outside
    the array, a signed addition leaving the [int] range, a null
    dereference) yields [None].  A null-terminated chain of [EdgeNode]s
    linked through [nextEdge] is a [list EdgeNode]; [nullptr] is [[]]. *)

From stdpp Require Import base option list strings gmap.
From Stdlib Require Import ZArith Lia.

Local Open Scope Z_scope.

(** ** Constants *)

Definition MAX_VERTICES : Z := 101.
Definition INT_MAX : Z := 2147483647.
Definition INT_MIN : Z := -2147483648.

(** ** Data model (Vertex.h, Graph.h) *)

Module Vertex.
(** class Vertex { string data; } *)
Record Vertex := mk { data : string }.
End Vertex.
Abbreviation Vertex := Vertex.Vertex.

(** struct EdgeNode: [nextEdge] is the tail of the list holding the node. *)
Record EdgeNode := mkEdgeNode { adjVertex : Z; weight : Z }.

(** struct VertexNode: [data] is [None] for a null [Vertex*]. *)
Record VertexNode := mkVertexNode { edgeHead : list EdgeNode; data : option Vertex }.

(** struct Table *)
Record Table := mkTable { visited : bool; dist : Z; path : Z }.

(** class Graph: [vertices[MAX_VERTICES]], [size], [T[MAX_VERTICES][MAX_VERTICES]]. *)
Record Graph := mkGraph {
  vertices : list VertexNode;
  size : Z;
  T : list (list Table)
}.

(** ** Arrays subscripted by an [int] *)

(** [a[i]] as an rvalue: undefined outside the array. *)
Definition lookupZ {A} (l : list A) (i : Z) : option A :=
  if i <? 0 then None else l !! Z.to_nat i.

(** [a[i] = x]: undefined outside the array. *)
Definition storeZ {A} (l : list A) (i : Z) (x : A) : option (list A) :=
  _ ← lookupZ l i; Some (<[Z.to_nat i := x]> l).

(** [for (int i = lo; i <= hi; i++) body], the state threaded through. *)
Fixpoint forZ {S} (n : nat) (i : Z) (body : Z → S → option S) (s : S) : option S :=
  match n with
  | O => Some s
  | Datatypes.S n' => s' ← body i s; forZ n' (i + 1) body s'
  end.

Definition forRange {S} (lo hi : Z) (body : Z → S → option S) (s : S) : option S :=
  forZ (Z.to_nat (hi - lo + 1)) lo body s.

(** Signed [int] addition; overflow is undefined. *)
Definition addInt (a b : Z) : option Z :=
  let r := a + b in
  if (INT_MIN <=? r) && (r <=? INT_MAX) then Some r else None.

(** ** Graph::Graph() *)

Definition nullVertexNode : VertexNode := mkVertexNode [] None.

(** The default constructor leaves [T] uninitialised; [T0] stands for the
    indeterminate contents. *)
Definition newGraph (T0 : list (list Table)) : Graph :=
  mkGraph (replicate (Z.to_nat MAX_VERTICES) nullVertexNode) 0 T0.

Definition setVertices (g : Graph) (vs : list VertexNode) : Graph :=
  mkGraph vs (size g) (T g).

Definition setEdgeHead (v : VertexNode) (l : list EdgeNode) : VertexNode :=
  mkVertexNode l (data v).

(** ** Graph::insertEdge *)

(** The [while (current->nextEdge != nullptr)] walk.  [current] is the node
    under the cursor and [rest] the chain behind [current->nextEdge]. *)
Fixpoint insertWalk (current : EdgeNode) (rest : list EdgeNode)
    (destinationVertex w : Z) : list EdgeNode :=
  match rest with
  | [] => [current; mkEdgeNode destinationVertex w]
  | next :: rest' =>
      if adjVertex current =? destinationVertex
      then mkEdgeNode (adjVertex current) w :: rest
      else current :: insertWalk next rest' destinationVertex w
  end.

Definition insertEdge (g : Graph) (sourceVertex destinationVertex w : Z)
    : option (bool * Graph) :=
  if w <? 0 then Some (false, g)
  else
    v ← lookupZ (vertices g) sourceVertex;
    let l' := match edgeHead v with
              | [] => [mkEdgeNode destinationVertex w]
              | current :: rest => insertWalk current rest destinationVertex w
              end in
    vs ← storeZ (vertices g) sourceVertex (setEdgeHead v l');
    Some (true, setVertices g vs).

(** ** Graph::removeEdge *)

(** The [while (current != nullptr && current->adjVertex != destinationVertex)]
    walk followed by the unlink; [None] when the walk falls off the list. *)
Fixpoint removeWalk (l : list EdgeNode) (destinationVertex : Z)
    : option (list EdgeNode) :=
  match l with
  | [] => None
  | current :: rest =>
      if adjVertex current =? destinationVertex then Some rest
      else l' ← removeWalk rest destinationVertex; Some (current :: l')
  end.

Definition removeEdge (g : Graph) (sourceVertex destinationVertex : Z)
    : option (bool * Graph) :=
  v ← lookupZ (vertices g) sourceVertex;
  match edgeHead v with
  | [] => Some (false, g)
  | head :: rest =>
      if adjVertex head =? destinationVertex then
        vs ← storeZ (vertices g) sourceVertex (setEdgeHead v rest);
        Some (true, setVertices g vs)
      else
        match removeWalk (head :: rest) destinationVertex with
        | None => Some (false, g)
        | Some l' =>
            vs ← storeZ (vertices g) sourceVertex (setEdgeHead v l');
            Some (true, setVertices g vs)
        end
  end.

(** ** Graph::clearGraph *)

Definition clearSlot (i : Z) (vs : list VertexNode) : option (list VertexNode) :=
  storeZ vs i nullVertexNode.

Definition clearGraph (g : Graph) : option Graph :=
  if 0 <? size g then
    vs ← forRange 1 (size g) clearSlot (vertices g);
    Some (setVertices g vs)
  else Some g.

(** ** The table [T] *)

(** [T[r][c]] as an rvalue. *)
Definition getT (t : list (list Table)) (r c : Z) : option Table :=
  row ← lookupZ t r; lookupZ row c.

(** [T[r][c] = e]. *)
Definition setT (t : list (list Table)) (r c : Z) (e : Table)
    : option (list (list Table)) :=
  row ← lookupZ t r; row' ← storeZ row c e; storeZ t r row'.

(** The two nested loops opening [findShortestPath] assign every one of the
    [MAX_VERTICES * MAX_VERTICES] cells, whatever the table held before. *)
Definition initTable : list (list Table) :=
  replicate (Z.to_nat MAX_VERTICES)
    (replicate (Z.to_nat MAX_VERTICES) (mkTable false INT_MAX 0)).

(** ** Graph::lowestWeightVertex *)

(** Loop body; the state is [(lowestWeight, returnVertex)]. *)
Definition lowestStep (t : list (list Table)) (source i : Z) (st : Z * Z)
    : option (Z * Z) :=
  e ← getT t source i;
  if negb (visited e) && (dist e <? fst st) then Some (dist e, i) else Some st.

Definition lowestWeightVertex (g : Graph) (t : list (list Table)) (source : Z)
    : option Z :=
  st ← forRange 1 (size g) (lowestStep t source) (INT_MAX, 0);
  Some (snd st).

(** ** Graph::findShortestPathHelper *)

(** Body of [while (current != nullptr)] for the edge node [current]. *)
Definition relaxEdge (source vertex : Z) (t : list (list Table))
    (current : EdgeNode) : option (list (list Table)) :=
  w ← getT t source (adjVertex current);
  if visited w then Some t
  else
    v ← getT t source vertex;
    sum ← addInt (dist v) (weight current);
    if sum <? dist w
    then setT t source (adjVertex current) (mkTable (visited w) sum vertex)
    else Some t.

Fixpoint relaxEdges (source vertex : Z) (t : list (list Table))
    (l : list EdgeNode) : option (list (list Table)) :=
  match l with
  | [] => Some t
  | current :: rest =>
      t' ← relaxEdge source vertex t current;
      relaxEdges source vertex t' rest
  end.

(** The [vertex > 0] branch: mark [vertex] visited, then relax its edges. *)
Definition visitVertex (g : Graph) (source vertex : Z) (t : list (list Table))
    : option (list (list Table)) :=
  e ← getT t source vertex;
  t1 ← setT t source vertex (mkTable true (dist e) (path e));
  vn ← lookupZ (vertices g) vertex;
  relaxEdges source vertex t1 (edgeHead vn).

(** [for (int i = 1; i < size; i++)] with [n] passes left.  Besides the
    table the result lists the vertices finalised, one per executed body. *)
Fixpoint helperLoop (n : nat) (g : Graph) (source : Z) (t : list (list Table))
    : option (list (list Table) * list Z) :=
  match n with
  | O => Some (t, [])
  | Datatypes.S n' =>
      vertex ← lowestWeightVertex g t source;
      if 0 <? vertex then
        t' ← visitVertex g source vertex t;
        r ← helperLoop n' g source t';
        Some (fst r, vertex :: snd r)
      else Some (t, [])
  end.

Definition findShortestPathHelper (g : Graph) (source : Z)
    (t : list (list Table)) : option (list (list Table) * list Z) :=
  e ← getT t source source;
  t0 ← setT t source source (mkTable (visited e) 0 source);
  helperLoop (Z.to_nat (size g - 1)) g source t0.

(** ** Graph::findShortestPath *)

Definition findShortestPath (g : Graph) : option Graph :=
  t ← forRange 1 (size g)
        (λ i t, r ← findShortestPathHelper g i t; Some (fst r)) initTable;
  Some (mkGraph (vertices g) (size g) t).

(** ** Graph::printPath *)

(** The vertex numbers sent to [cout], in order.  The recursion follows the
    [path] column, so it is bounded by [fuel]; [None] when it runs out. *)
Fixpoint printPath (fuel : nat) (t : list (list Table)) (source destination : Z)
    : option (list Z) :=
  match fuel with
  | O => None
  | Datatypes.S fuel' =>
      e ← getT t source destination;
      if 0 <? path e then
        if negb (source =? destination) then
          p ← printPath fuel' t source (path e);
          Some (p ++ [destination])
        else Some [destination]
      else Some []
  end.

(** ** The scenario of the specification

    Vertices 1 "A", 2 "B", 3 "C"; edges 1->2 (5), 2->3 (2), 1->3 (10). *)

Definition labelled (vs : list VertexNode) (i : Z) (name : string)
    : option (list VertexNode) :=
  storeZ vs i (mkVertexNode [] (Some (Vertex.mk name))).

(** Built through the public operations, as [buildGraph] does. *)
Definition scenario : option Graph :=
  let g0 := newGraph initTable in
  vs1 ← labelled (vertices g0) 1 "A";
  vs2 ← labelled vs1 2 "B";
  vs3 ← labelled vs2 3 "C";
  r1 ← insertEdge (mkGraph vs3 3 (T g0)) 1 2 5;
  r2 ← insertEdge (snd r1) 2 3 2;
  r3 ← insertEdge (snd r2) 1 3 10;
  Some (snd r3).

(** The object [scenario] yields. *)
Definition scenarioGraph : Graph :=
  mkGraph
    ([nullVertexNode;
      mkVertexNode [mkEdgeNode 2 5; mkEdgeNode 3 10] (Some (Vertex.mk "A"));
      mkVertexNode [mkEdgeNode 3 2] (Some (Vertex.mk "B"));
      mkVertexNode [] (Some (Vertex.mk "C"))]
     ++ replicate 97 nullVertexNode)
    3 initTable.

(** ** Vocabulary of the statements *)

(** [g] has an edge [u -> v] of weight [w]. *)
Definition edge (g : Graph) (u v w : Z) : Prop :=
  ∃ vn, lookupZ (vertices g) u = Some vn ∧ mkEdgeNode v w ∈ edgeHead vn.

(** The adjacency list of slot [i]. *)
Definition adjacency (g : Graph) (i : Z) : option (list EdgeNode) :=
  edgeHead <$> lookupZ (vertices g) i.

(** No node of [l] leads to [d]. *)
Definition noEdgeTo (d : Z) (l : list EdgeNode) : Prop :=
  Forall (λ e, adjVertex e ≠ d) l.

(** Number of nodes of [l] leading to [d]. *)
Definition countTo (d : Z) (l : list EdgeNode) : nat :=
  length (filter (λ e, adjVertex e = d) l).

(** A graph as [buildGraph] leaves it after reading [n] labels and no edge
    (every label set to the empty string). *)
Definition blankGraph (n : Z) : Graph :=
  mkGraph (replicate (Z.to_nat MAX_VERTICES)
             (mkVertexNode [] (Some (Vertex.mk EmptyString)))) n initTable.


(** [blankGraph 3] after [insertEdge(1, 2, 5)]. *)
Definition oneEdgeGraph : Graph :=
  mkGraph (<[1%nat := mkVertexNode [mkEdgeNode 2 5] (Some (Vertex.mk EmptyString))]>
             (vertices (blankGraph 3))) 3 initTable.


(** A list with two nodes for [1 -> 2], as two calls of [insertEdge] make it,
    between two nodes for other vertices. *)
Definition parallelEdgesGraph : Graph :=
  mkGraph (<[1%nat := mkVertexNode
               [mkEdgeNode 3 1; mkEdgeNode 2 5; mkEdgeNode 2 7; mkEdgeNode 1 4]
               (Some (Vertex.mk EmptyString))]>
             (vertices (blankGraph 3))) 3 initTable.


(** [i] is an unvisited vertex of [1..size] whose tentative distance from
    [s], held in the entry [e], is finite. *)
Definition candidate (g : Graph) (t : list (list Table)) (s i : Z) (e : Table)
    : Prop :=
  1 ≤ i ≤ size g ∧ getT t s i = Some e ∧ visited e = false ∧ dist e < INT_MAX.

(** [v] is the candidate of smallest distance and, among those of that
    distance, of lowest number. *)
Definition selected (g : Graph) (t : list (list Table)) (s v : Z) : Prop :=
  ∃ ev, candidate g t s v ev ∧
        ∀ i e, candidate g t s i e →
               dist ev < dist e ∨ (dist ev = dist e ∧ v ≤ i).

(** Invariant of the scan in [lowestWeightVertex] before the pass [j]. *)
Definition lowestInv (g : Graph) (t : list (list Table)) (s j : Z) (st : Z * Z)
    : Prop :=
  (snd st = 0 ∧ fst st = INT_MAX ∧
   ∀ i e, 1 ≤ i < j → getT t s i = Some e →
          visited e = true ∨ INT_MAX ≤ dist e)
  ∨
  (1 ≤ snd st < j ∧
   ∃ ev, getT t s (snd st) = Some ev ∧ visited ev = false ∧
         dist ev = fst st ∧ fst st < INT_MAX ∧
         ∀ i e, 1 ≤ i < j → getT t s i = Some e → visited e = false →
                fst st < dist e ∨ (fst st = dist e ∧ snd st ≤ i)).


(** [chain g s p c]: [p] lists the vertices of a walk that starts at [s]
    and follows edges of [g]; [c] is the sum of the weights of the edges
    taken. *)
Inductive chain (g : Graph) (s : Z) : list Z → Z → Prop :=
  | chain_start : chain g s [s] 0
  | chain_step p u v c w :
      chain g s (p ++ [u]) c → edge g u v w →
      chain g s (p ++ [u; v]) (c + w).

(** [d] can be reached from [s] along edges of [g]. *)
Definition reachable (g : Graph) (s d : Z) : Prop :=
  ∃ p c, chain g s p c ∧ last p = Some d.

(** Every stored weight is non-negative, as [insertEdge] guarantees. *)
Definition nonNegativeWeights (g : Graph) : Prop :=
  ∀ u v w, edge g u v w → 0 ≤ w.

(** The entries of row [s] are as [findShortestPath] initialises them. *)
Definition freshRow (t : list (list Table)) (s : Z) : Prop :=
  ∀ c e, getT t s c = Some e → e = mkTable false INT_MAX 0.

(** Following the [path] column from [d] for at most [n] steps until [s] is
    met; the vertices passed, [d] first and [s] last. *)
Fixpoint walkBack (n : nat) (t : list (list Table)) (s d : Z) : option (list Z) :=
  if d =? s then Some [d]
  else match n with
       | O => None
       | Datatypes.S n' =>
           e ← getT t s d;
           if 0 <? path e then l ← walkBack n' t s (path e); Some (d :: l)
           else None
       end.

(** The distances from [s] of the vertices of [l] never increase along [l]. *)
Inductive distsDescend (t : list (list Table)) (s : Z) : list Z → Prop :=
  | descend_one v : distsDescend t s [v]
  | descend_cons u v l eu ev :
      getT t s u = Some eu → getT t s v = Some ev → dist ev ≤ dist eu →
      distsDescend t s (v :: l) → distsDescend t s (u :: v :: l).

(** Invariant of the run for source [s] after [k] executed passes.  [rank]
    numbers the finalised vertices in the order of their finalisation. *)
Record runInv (g : Graph) (s : Z) (t : list (list Table)) (k : nat)
    (rank : Z → nat) : Prop := mkRunInv {
  inv_source : ∃ e, getT t s s = Some e ∧ dist e = 0 ∧ path e = s;
  inv_bound : ∀ v e, getT t s v = Some e →
      dist e ≤ INT_MAX ∧ (dist e < INT_MAX ↔ path e ≠ 0) ∧
      (path e = 0 ∨ 1 ≤ path e ≤ size g);
  inv_visited : ∀ v e, getT t s v = Some e → visited e = true →
      1 ≤ v ≤ size g ∧ dist e < INT_MAX ∧ (rank v < k)%nat;
  inv_pred : ∀ v e, getT t s v = Some e → v ≠ s → path e ≠ 0 →
      ∃ eu w, getT t s (path e) = Some eu ∧ visited eu = true ∧
              edge g (path e) v w ∧ dist e = dist eu + w ∧
              (visited e = true → (rank (path e) < rank v)%nat);
  inv_start :
      (∃ e, getT t s s = Some e ∧ visited e = true) ∨
      (∀ v e, v ≠ s → getT t s v = Some e → e = mkTable false INT_MAX 0)
}.

(** Row [s] of the table after the whole computation. *)
Definition rowDone (g : Graph) (t : list (list Table)) (s : Z) : Prop :=
  ∃ k rank, (Z.of_nat k ≤ Z.max 0 (size g - 1)) ∧ runInv g s t k rank.


(** Executable form of [nonNegativeWeights]. *)
Definition nonNegativeWeightsb (g : Graph) : bool :=
  forallb (λ vn, forallb (λ e, 0 <=? weight e) (edgeHead vn)) (vertices g).


(** * The object store: pointers, [new] and [delete]

    The same class with its pointers kept: edge nodes and [Vertex] objects
    live in a store and are reached through addresses, so that two [Graph]
    objects can be asked whether they share a node.  [new] takes an address
    that is not allocated; [delete] of an address that is not allocated, and
    any access through it, is undefined ([None]). *)

Definition addr := positive.

(** struct EdgeNode with its [nextEdge] pointer; [node] holds [adjVertex]
    and [weight]. *)
Record EdgeCell := mkEdgeCell { node : EdgeNode; nextEdge : option addr }.

(** struct VertexNode with its two pointers. *)
Record VertexSlot := mkVertexSlot {
  edgeHeadPtr : option addr;
  dataPtr : option addr
}.

(** A [Graph] object: [vertices], [size], [T]. *)
Record GraphObject := mkGraphObject {
  slots : list VertexSlot;
  count : Z;
  table : list (list Table)
}.

Record Store := mkStore {
  edgeCells : gmap addr EdgeCell;
  vertexCells : gmap addr Vertex;
  graphCells : gmap addr GraphObject
}.

(** What a method of the object at [this] works on while it runs. *)
Record Frame := mkFrame {
  fEdges : gmap addr EdgeCell;
  fVertices : gmap addr Vertex;
  fSlots : list VertexSlot
}.

(** [Graph::clearGraph]: the inner [while (current != nullptr)] loop. *)
Fixpoint deleteChain (fuel : nat) (ec : gmap addr EdgeCell) (current : option addr)
    : option (gmap addr EdgeCell) :=
  match current with
  | None => Some ec
  | Some a =>
      match fuel with
      | O => None
      | Datatypes.S fuel' =>
          c ← ec !! a; deleteChain fuel' (delete a ec) (nextEdge c)
      end
  end.

(** [delete p] for a [Vertex*]; deleting a null pointer does nothing. *)
Definition deleteVertex (vc : gmap addr Vertex) (p : option addr)
    : option (gmap addr Vertex) :=
  match p with
  | None => Some vc
  | Some a => _ ← vc !! a; Some (delete a vc)
  end.

(** Body of the [for] loop of [clearGraph].  A chain has no more nodes than
    the store has cells, which bounds the inner loop. *)
Definition clearSlotP (i : Z) (f : Frame) : option Frame :=
  s ← lookupZ (fSlots f) i;
  ec ← deleteChain (base.size (fEdges f)) (fEdges f) (edgeHeadPtr s);
  vc ← deleteVertex (fVertices f) (dataPtr s);
  sl ← storeZ (fSlots f) i (mkVertexSlot None None);
  Some (mkFrame ec vc sl).

Definition clearGraphP (st : Store) (this : addr) : option Store :=
  o ← graphCells st !! this;
  if 0 <? count o then
    f ← forRange 1 (count o) clearSlotP
          (mkFrame (edgeCells st) (vertexCells st) (slots o));
    Some (mkStore (fEdges f) (fVertices f)
            (<[this := mkGraphObject (fSlots f) (count o) (table o)]> (graphCells st)))
  else Some st.

(** [Graph::copyGraph]: the [while (fromGraphEdgeNode != nullptr)] loop;
    [current] is the last node of the copy built so far. *)
Fixpoint copyRest (fuel : nat) (ec : gmap addr EdgeCell) (current : addr)
    (fromGraphEdgeNode : option addr) : option (gmap addr EdgeCell) :=
  match fromGraphEdgeNode with
  | None => Some ec
  | Some a =>
      match fuel with
      | O => None
      | Datatypes.S fuel' =>
          fc ← ec !! a;
          let temp := fresh (dom ec) in
          let ec1 := <[temp := mkEdgeCell (node fc) None]> ec in
          cc ← ec1 !! current;
          let ec2 := <[current := mkEdgeCell (node cc) (Some temp)]> ec1 in
          copyRest fuel' ec2 temp (nextEdge fc)
      end
  end.

(** The copy of one chain: the head node first, then [copyRest]. *)
Definition copyChain (ec : gmap addr EdgeCell) (fromGraphEdgeNode : option addr)
    : option (gmap addr EdgeCell * option addr) :=
  match fromGraphEdgeNode with
  | None => Some (ec, None)
  | Some a =>
      fc ← ec !! a;
      let head := fresh (dom ec) in
      let ec1 := <[head := mkEdgeCell (node fc) None]> ec in
      ec2 ← copyRest (base.size ec) ec1 head (nextEdge fc);
      Some (ec2, Some head)
  end.

(** Body of the first [for] loop of [copyGraph]; [fromSlots] is
    [fromGraph.vertices]. *)
Definition copySlot (fromSlots : list VertexSlot) (i : Z) (f : Frame)
    : option Frame :=
  fs ← lookupZ fromSlots i;
  _ ← lookupZ (fSlots f) i;
  fromData ← dataPtr fs;
  label ← fVertices f !! fromData;
  let d := fresh (dom (fVertices f)) in
  let vc := <[d := label]> (fVertices f) in
  r ← copyChain (fEdges f) (edgeHeadPtr fs);
  sl ← storeZ (fSlots f) i (mkVertexSlot (snd r) (Some d));
  Some (mkFrame (fst r) vc sl).

(** [copyGraph(fromGraph)] on the object at [this], distinct from [from]. *)
Definition copyGraph (st : Store) (this from : addr) : option Store :=
  o ← graphCells st !! this;
  fo ← graphCells st !! from;
  f ← forRange 1 (count o) (copySlot (slots fo))
        (mkFrame (edgeCells st) (vertexCells st) (slots o));
  Some (mkStore (fEdges f) (fVertices f)
          (<[this := mkGraphObject (fSlots f) (count o) (table fo)]> (graphCells st))).

(** [Graph::operator=]: [*this = fromGraph]. *)
Definition assign (st : Store) (this from : addr) : option Store :=
  if decide (this = from) then Some st
  else
    st1 ← clearGraphP st this;
    o ← graphCells st1 !! this;
    fo ← graphCells st1 !! from;
    copyGraph
      (mkStore (edgeCells st1) (vertexCells st1)
         (<[this := mkGraphObject (slots o) (count fo) (table o)]> (graphCells st1)))
      this from.

(** [Graph::Graph(const Graph&)]: the object is built at the address [this],
    where no object lives yet; [T0] is the uninitialised table. *)
Definition copyConstruct (st : Store) (this from : addr) (T0 : list (list Table))
    : option Store :=
  fo ← graphCells st !! from;
  copyGraph
    (mkStore (edgeCells st) (vertexCells st)
       (<[this := mkGraphObject
                    (replicate (Z.to_nat MAX_VERTICES) (mkVertexSlot None None))
                    (count fo) T0]> (graphCells st)))
    this from.


(** [Graph::insertEdge] on the store: the walk [while (current->nextEdge !=
    nullptr)]; [newEdgeNode] is already allocated. *)
Fixpoint insertWalkP (fuel : nat) (ec : gmap addr EdgeCell)
    (current newEdgeNode : addr) (destinationVertex w : Z)
    : option (gmap addr EdgeCell) :=
  match fuel with
  | O => None
  | Datatypes.S fuel' =>
      c ← ec !! current;
      match nextEdge c with
      | None => Some (<[current := mkEdgeCell (node c) (Some newEdgeNode)]> ec)
      | Some next =>
          if adjVertex (node c) =? destinationVertex then
            Some (delete newEdgeNode
                    (<[current := mkEdgeCell (mkEdgeNode (adjVertex (node c)) w)
                                    (Some next)]> ec))
          else insertWalkP fuel' ec next newEdgeNode destinationVertex w
      end
  end.

Definition insertEdgeP (st : Store) (this : addr)
    (sourceVertex destinationVertex w : Z) : option (bool * Store) :=
  if w <? 0 then Some (false, st)
  else
    o ← graphCells st !! this;
    let newEdgeNode := fresh (dom (edgeCells st)) in
    let ec := <[newEdgeNode := mkEdgeCell (mkEdgeNode destinationVertex w) None]>
                (edgeCells st) in
    s ← lookupZ (slots o) sourceVertex;
    match edgeHeadPtr s with
    | None =>
        sl ← storeZ (slots o) sourceVertex
               (mkVertexSlot (Some newEdgeNode) (dataPtr s));
        Some (true, mkStore ec (vertexCells st)
                      (<[this := mkGraphObject sl (count o) (table o)]> (graphCells st)))
    | Some current =>
        ec' ← insertWalkP (base.size ec) ec current newEdgeNode destinationVertex w;
        Some (true, mkStore ec' (vertexCells st) (graphCells st))
    end.

(** [Graph::removeEdge] on the store: the walk once [previous] is set. *)
Fixpoint removeWalkP (fuel : nat) (ec : gmap addr EdgeCell)
    (previous : addr) (current : option addr) (destinationVertex : Z)
    : option (option (gmap addr EdgeCell)) :=
  match current with
  | None => Some None
  | Some a =>
      match fuel with
      | O => None
      | Datatypes.S fuel' =>
          c ← ec !! a;
          if adjVertex (node c) =? destinationVertex then
            p ← ec !! previous;
            Some (Some (delete a
                          (<[previous := mkEdgeCell (node p) (nextEdge c)]> ec)))
          else removeWalkP fuel' ec a (nextEdge c) destinationVertex
      end
  end.

Definition removeEdgeP (st : Store) (this : addr)
    (sourceVertex destinationVertex : Z) : option (bool * Store) :=
  o ← graphCells st !! this;
  s ← lookupZ (slots o) sourceVertex;
  match edgeHeadPtr s with
  | None => Some (false, st)
  | Some head =>
      hc ← edgeCells st !! head;
      if adjVertex (node hc) =? destinationVertex then
        sl ← storeZ (slots o) sourceVertex
               (mkVertexSlot (nextEdge hc) (dataPtr s));
        Some (true, mkStore (delete head (edgeCells st)) (vertexCells st)
                      (<[this := mkGraphObject sl (count o) (table o)]> (graphCells st)))
      else
        r ← removeWalkP (base.size (edgeCells st)) (edgeCells st) head (nextEdge hc)
              destinationVertex;
        match r with
        | None => Some (false, st)
        | Some ec' => Some (true, mkStore ec' (vertexCells st) (graphCells st))
        end
  end.

(** Whatever [findShortestPath] does to the object at [this]: it reads the
    chains and rewrites the member array [T], nothing else. *)
Definition writeTable (st : Store) (this : addr) (t : list (list Table))
    : option Store :=
  o ← graphCells st !! this;
  Some (mkStore (edgeCells st) (vertexCells st)
          (<[this := mkGraphObject (slots o) (count o) t]> (graphCells st))).

(** ** What a [Graph] object stands for *)

(** The chain that starts at [p] consists of the cells [cells], each given
    with its address, no address twice. *)
Fixpoint chainAt (ec : gmap addr EdgeCell) (p : option addr)
    (cells : list (addr * EdgeNode)) : Prop :=
  match cells with
  | [] => p = None
  | (a, e) :: rest =>
      p = Some a ∧ (a ∉ rest.*1) ∧
      ∃ next, ec !! a = Some (mkEdgeCell e next) ∧ chainAt ec next rest
  end.

(** The label behind the [Vertex*] [p]; none for a null pointer. *)
Definition labelOf (vc : gmap addr Vertex) (p : option addr) : option Vertex :=
  a ← p; vc !! a.

(** The object [o] owns well-formed chains: [fp i] lists the cells of the
    chain of slot [i], every label pointer is allocated, and no cell and no
    label belongs to two slots. *)
Record ownedBy (ec : gmap addr EdgeCell) (vc : gmap addr Vertex)
    (o : GraphObject) (fp : Z → list (addr * EdgeNode)) : Prop := mkOwnedBy {
  own_chain : ∀ i sl, lookupZ (slots o) i = Some sl →
      chainAt ec (edgeHeadPtr sl) (fp i);
  own_label : ∀ i sl a, lookupZ (slots o) i = Some sl → dataPtr sl = Some a →
      is_Some (vc !! a);
  own_outside : ∀ i, lookupZ (slots o) i = None → fp i = [];
  own_chains_apart : ∀ i j a, a ∈ (fp i).*1 → a ∈ (fp j).*1 → i = j;
  own_labels_apart : ∀ i j si sj a,
      lookupZ (slots o) i = Some si → lookupZ (slots o) j = Some sj →
      dataPtr si = Some a → dataPtr sj = Some a → i = j
}.

(** The graph [g] is what the object [o] holds: same size and table, and
    slot by slot the same label and the same list of edges. *)
Definition abstracts (vc : gmap addr Vertex) (o : GraphObject) (g : Graph)
    (fp : Z → list (addr * EdgeNode)) : Prop :=
  count o = size g ∧ table o = T g ∧
  length (slots o) = length (vertices g) ∧
  ∀ i sl, lookupZ (slots o) i = Some sl →
          lookupZ (vertices g) i =
            Some (mkVertexNode ((fp i).*2) (labelOf vc (dataPtr sl))).

Definition represents (ec : gmap addr EdgeCell) (vc : gmap addr Vertex)
    (o : GraphObject) (g : Graph) (fp : Z → list (addr * EdgeNode)) : Prop :=
  ownedBy ec vc o fp ∧ abstracts vc o g fp.

(** The addresses of edge cells and of labels that the object owns. *)
Definition ownsCell (fp : Z → list (addr * EdgeNode)) (a : addr) : Prop :=
  ∃ i, a ∈ (fp i).*1.

Definition ownsLabel (o : GraphObject) (a : addr) : Prop :=
  ∃ i sl, lookupZ (slots o) i = Some sl ∧ dataPtr sl = Some a.

(** Two objects share no edge cell and no label. *)
Definition apart (o1 : GraphObject) (fp1 : Z → list (addr * EdgeNode))
    (o2 : GraphObject) (fp2 : Z → list (addr * EdgeNode)) : Prop :=
  (∀ a, ownsCell fp1 a → ¬ ownsCell fp2 a) ∧
  (∀ a, ownsLabel o1 a → ¬ ownsLabel o2 a).

(** One call of a public operation that can change the object at [this]. *)
Inductive mutation (this : addr) : Store → Store → Prop :=
  | mutation_insertEdge st src dst w b st' :
      insertEdgeP st this src dst w = Some (b, st') → mutation this st st'
  | mutation_removeEdge st src dst b st' :
      removeEdgeP st this src dst = Some (b, st') → mutation this st st'
  | mutation_clearGraph st st' :
      clearGraphP st this = Some st' → mutation this st st'
  | mutation_table st t st' :
      writeTable st this t = Some st' → mutation this st st'.

(** Any number of such calls, one after the other. *)
Inductive mutations (this : addr) : Store → Store → Prop :=
  | mutations_none st : mutations this st st
  | mutations_more st st1 st2 :
      mutation this st st1 → mutations this st1 st2 → mutations this st st2.


(** The graph held by the object [o] whose chains are [fp]. *)
Definition absGraph (vc : gmap addr Vertex) (o : GraphObject)
    (fp : Z → list (addr * EdgeNode)) : Graph :=
  mkGraph
    (imap (λ n sl, mkVertexNode ((fp (Z.of_nat n)).*2) (labelOf vc (dataPtr sl)))
          (slots o))
    (count o) (table o).

(** [st'] differs from [st] only in cells and labels that the object at
    [this] owned, in addresses that were not allocated, and in the object
    at [this] itself. *)
Definition framed (this : addr) (o : GraphObject)
    (fp : Z → list (addr * EdgeNode)) (st st' : Store) : Prop :=
  (∀ a, is_Some (edgeCells st !! a) → ¬ ownsCell fp a →
        edgeCells st' !! a = edgeCells st !! a) ∧
  (∀ a, is_Some (vertexCells st !! a) → ¬ ownsLabel o a →
        vertexCells st' !! a = vertexCells st !! a) ∧
  (∀ b, b ≠ this → graphCells st' !! b = graphCells st !! b).

(** A step of the object at [this] from [o], [fp] in [st] to [o'], [fp'] in
    [st']: the object stays well-formed, the rest of the store is as it
    was, and whatever the object owns now it owned before or has newly
    allocated. *)
Definition stepsTo (this : addr)
    (o : GraphObject) (fp : Z → list (addr * EdgeNode)) (st : Store)
    (o' : GraphObject) (fp' : Z → list (addr * EdgeNode)) (st' : Store) : Prop :=
  graphCells st' !! this = Some o' ∧
  ownedBy (edgeCells st') (vertexCells st') o' fp' ∧
  count o' < Z.of_nat (length (slots o')) ∧
  framed this o fp st st' ∧
  (∀ a, ownsCell fp' a → ownsCell fp a ∨ edgeCells st !! a = None) ∧
  (∀ a, ownsLabel o' a → ownsLabel o a ∨ vertexCells st !! a = None).


(** State of the loop of [copyGraph] when the slots [1 .. j-1] are copied:
    [fpN i] lists the new cells of slot [i]; nothing allocated in [ec], [vc]
    has changed; the new cells and labels are fresh and belong to one slot
    each. *)
Definition copyInv (ec : gmap addr EdgeCell) (vc : gmap addr Vertex)
    (o oF : GraphObject) (fpF : Z → list (addr * EdgeNode)) (j : Z) (f : Frame)
    (fpN : Z → list (addr * EdgeNode)) : Prop :=
  length (fSlots f) = length (slots o) ∧
  (∀ a, is_Some (ec !! a) → fEdges f !! a = ec !! a) ∧
  (∀ a, is_Some (vc !! a) → fVertices f !! a = vc !! a) ∧
  (∀ i, ¬ (1 ≤ i < j) → lookupZ (fSlots f) i = lookupZ (slots o) i ∧ fpN i = []) ∧
  (∀ i, 1 ≤ i < j →
     ∃ sl fsl d,
       lookupZ (fSlots f) i = Some sl ∧ lookupZ (slots oF) i = Some fsl ∧
       chainAt (fEdges f) (edgeHeadPtr sl) (fpN i) ∧
       (fpN i).*2 = (fpF i).*2 ∧
       dataPtr sl = Some d ∧ vc !! d = None ∧ is_Some (fVertices f !! d) ∧
       fVertices f !! d = labelOf vc (dataPtr fsl)) ∧
  (∀ i a, a ∈ (fpN i).*1 → ec !! a = None) ∧
  (∀ i i' a, a ∈ (fpN i).*1 → a ∈ (fpN i').*1 → i = i') ∧
  (∀ i i' sl sl' d,
     1 ≤ i < j → 1 ≤ i' < j →
     lookupZ (fSlots f) i = Some sl → lookupZ (fSlots f) i' = Some sl' →
     dataPtr sl = Some d → dataPtr sl' = Some d → i = i').


(** [g'] holds what [g] holds: the same size and table and, for every
    vertex [1..size], the same label and the same list of edges. *)
Definition sameGraph (g' g : Graph) : Prop :=
  size g' = size g ∧ T g' = T g ∧
  ∀ i, 1 ≤ i ≤ size g → lookupZ (vertices g') i = lookupZ (vertices g) i.

(** The object at [from] can be copied: it is well-formed and holds [g],
    its size lies inside its array, and each vertex [1..size] has a label. *)
Definition copyable (st : Store) (from : addr) (oF : GraphObject) (gF : Graph)
    (fpF : Z → list (addr * EdgeNode)) : Prop :=
  graphCells st !! from = Some oF ∧
  represents (edgeCells st) (vertexCells st) oF gF fpF ∧
  count oF < Z.of_nat (length (slots oF)) ∧
  ∀ i sl, 1 ≤ i ≤ count oF → lookupZ (slots oF) i = Some sl →
          is_Some (dataPtr sl).

(** In [st'] the object at [this] is an independent copy of the one at
    [from]: [from] is as it was, [this] holds the same graph, the two share
    no cell and no label, and no later change of [this] shows in [from]. *)
Definition independentCopy (st' : Store) (this from : addr)
    (oF : GraphObject) (gF : Graph) (fpF : Z → list (addr * EdgeNode)) : Prop :=
  ∃ oT' gT' fpT',
    graphCells st' !! this = Some oT' ∧
    graphCells st' !! from = Some oF ∧
    represents (edgeCells st') (vertexCells st') oT' gT' fpT' ∧
    represents (edgeCells st') (vertexCells st') oF gF fpF ∧
    sameGraph gT' gF ∧
    apart oT' fpT' oF fpF ∧
    ∀ st'', mutations this st' st'' →
            graphCells st'' !! from = Some oF ∧
            represents (edgeCells st'') (vertexCells st'') oF gF fpF.


(** ** The scenario in a store

    The object at address 1 holds the scenario graph: the chain of vertex 1
    is made of the cells 1 and 2, that of vertex 2 of the cell 3; the
    labels are at 1, 2 and 3.  The object at address 2 is a default
    constructed graph. *)

Definition scenarioObject : GraphObject :=
  mkGraphObject
    ([mkVertexSlot None None;
      mkVertexSlot (Some 1%positive) (Some 1%positive);
      mkVertexSlot (Some 3%positive) (Some 2%positive);
      mkVertexSlot None (Some 3%positive)]
     ++ replicate 97 (mkVertexSlot None None))
    3 initTable.

Definition blankObject : GraphObject :=
  mkGraphObject (replicate (Z.to_nat MAX_VERTICES) (mkVertexSlot None None))
    0 initTable.

Definition scenarioStore : Store :=
  mkStore
    (list_to_map
       [(1%positive, mkEdgeCell (mkEdgeNode 2 5) (Some 2%positive));
        (2%positive, mkEdgeCell (mkEdgeNode 3 10) None);
        (3%positive, mkEdgeCell (mkEdgeNode 3 2) None)])
    (list_to_map
       [(1%positive, Vertex.mk "A"); (2%positive, Vertex.mk "B");
        (3%positive, Vertex.mk "C")])
    (list_to_map [(1%positive, scenarioObject); (2%positive, blankObject)]).

Definition scenarioCells (i : Z) : list (addr * EdgeNode) :=
  if decide (i = 1) then
    [(1%positive, mkEdgeNode 2 5); (2%positive, mkEdgeNode 3 10)]
  else if decide (i = 2) then [(3%positive, mkEdgeNode 3 2)]
  else [].


(** ** When the computation is defined *)

(** Every cell [T[r][c]] of the [MAX_VERTICES * MAX_VERTICES] array is there. *)
Definition tableShape (t : list (list Table)) : Prop :=
  ∀ r c, 0 ≤ r < MAX_VERTICES → 0 ≤ c < MAX_VERTICES → is_Some (getT t r c).

(** [size] fits the arrays, every edge leads to a slot of the array, and the
    weights lie in [0..W], with [W] small enough for [size - 1] of them to
    be added in an [int]. *)
Definition wellFormed (W : Z) (g : Graph) : Prop :=
  0 ≤ size g < MAX_VERTICES ∧
  size g < Z.of_nat (length (vertices g)) ∧
  0 ≤ W ∧ W * (size g - 1) ≤ INT_MAX ∧
  ∀ u v w, edge g u v w → 0 ≤ v < MAX_VERTICES ∧ 0 ≤ w ≤ W.

(** The finite distances of row [s] lie in [0..B]. *)
Definition distBound (t : list (list Table)) (s B : Z) : Prop :=
  ∀ v e, getT t s v = Some e → dist e = INT_MAX ∨ 0 ≤ dist e ≤ B.

(** ** Shortest distances *)

(** Invariant of a run for source [s] that makes its distances the
    shortest ones.  [vis] lists the finalised vertices and [E u x w] holds
    of the edges [u -> x] of weight [w] relaxed so far. *)
Record optInv (g : Graph) (s : Z) (t : list (list Table)) (vis : list Z)
    (E : Z → Z → Z → Prop) : Prop := mkOptInv {
  opt_vis : ∀ v e, getT t s v = Some e → (visited e = true ↔ v ∈ vis);
  opt_nodup : NoDup vis;
  opt_range : ∀ v, v ∈ vis → 1 ≤ v ≤ size g;
  opt_max : ∀ v e, getT t s v = Some e →
      dist e ≤ INT_MAX ∧ (visited e = true → dist e < INT_MAX);
  opt_edge : ∀ u eu x w ex, getT t s u = Some eu → visited eu = true →
      E u x w → getT t s x = Some ex → dist ex ≤ dist eu + w;
  opt_order : ∀ u eu x ex, getT t s u = Some eu → visited eu = true →
      getT t s x = Some ex → visited ex = false → 1 ≤ x ≤ size g →
      dist eu ≤ dist ex
}.

(** The distances of row [s] cannot be lowered along an edge between two
    vertices of [1..size]. *)
Definition rowClosed (g : Graph) (t : list (list Table)) (s : Z) : Prop :=
  ∀ u x w eu ex, 1 ≤ u ≤ size g → 1 ≤ x ≤ size g → edge g u x w →
    getT t s u = Some eu → getT t s x = Some ex → dist ex ≤ dist eu + w.

(** The vertices of [p] are vertices of the graph, that is of [1..size]. *)
Definition inGraph (g : Graph) (p : list Z) : Prop :=
  Forall (λ v, 1 ≤ v ≤ size g) p.

(** ** Invariants of the adjacency lists *)

(** No list holds more than two nodes for one destination. *)
Definition atMostTwo (g : Graph) : Prop :=
  ∀ i vn d, lookupZ (vertices g) i = Some vn →
            (countTo d (edgeHead vn) ≤ 2)%nat.

(** The list [insertEdge] leaves in a slot that held [l], for a weight
    [>= 0]. *)
Definition insertedList (l : list EdgeNode) (d w : Z) : list EdgeNode :=
  match l with
  | [] => [mkEdgeNode d w]
  | current :: rest => insertWalk current rest d w
  end.

(** ** Output: Vertex::operator<<, Graph::printLocationDescriptions,
    Graph::display, Graph::displayAll *)

(** What is sent to [cout], one item per [<<]. *)
Inductive Out :=
  | OutStr (s : string)
  | OutInt (n : Z)
  | OutSetw (n : Z)
  | OutEndl.

(** [outStream << vertex] sends the string the vertex holds. *)
Definition printVertex (v : Vertex) : list Out := [OutStr (Vertex.data v)].

(** [*vertices[i].data]: undefined for a null pointer. *)
Definition label (g : Graph) (i : Z) : option Vertex :=
  vn ← lookupZ (vertices g) i; data vn.

(** What [printPath] sends for the vertices it prints: [cout << " " <<
    destination] for each. *)
Definition pathOut (p : list Z) : list Out :=
  p ≫= λ d, [OutStr " "; OutInt d].

(** The lines [printLocationDescriptions] sends for the labels [ls]. *)
Definition descriptionsOut (ls : list Vertex) : list Out :=
  ls ≫= λ l, printVertex l ++ [OutEndl].

(** The recursion of [printLocationDescriptions] is that of [printPath]. *)
Fixpoint printLocationDescriptions (fuel : nat) (g : Graph)
    (source destination : Z) : option (list Out) :=
  match fuel with
  | O => None
  | Datatypes.S fuel' =>
      e ← getT (T g) source destination;
      if 0 <? path e then
        before ← (if negb (source =? destination)
                  then printLocationDescriptions fuel' g source (path e)
                  else Some []);
        v ← label g destination;
        Some (before ++ printVertex v ++ [OutEndl])
      else Some []
  end.

(** Nested calls allowed to [printPath] and [printLocationDescriptions]
    where [display] and [displayAll] call them. *)
Definition callDepth (g : Graph) : nat := Datatypes.S (Z.to_nat (size g)).

(** The distance column: the distance or, for [INT_MAX], two dashes. *)
Definition distOut (e : Table) : list Out :=
  if dist e <? INT_MAX then [OutSetw 6; OutInt (dist e)]
  else [OutSetw 6; OutStr "--"].

(** [Graph::display]: the object after the call and what was printed. *)
Definition display (g : Graph) (source destination : Z)
    : option (Graph * list Out) :=
  g' ← findShortestPath g;
  e ← getT (T g') source destination;
  p ← printPath (callDepth g') (T g') source destination;
  ds ← printLocationDescriptions (callDepth g') g' source destination;
  Some (g', [OutInt source; OutSetw 6; OutInt destination] ++ distOut e ++
            [OutSetw 6] ++ pathOut p ++ [OutEndl] ++ ds).

Definition displayHeader : list Out :=
  [OutStr "Description"; OutSetw 16; OutStr "From"; OutSetw 6; OutStr "To";
   OutSetw 6; OutStr "Dist"; OutSetw 6; OutStr "Path"; OutEndl].

(** One line of the table of [displayAll], for [i <> j]. *)
Definition pairLine (g : Graph) (i j : Z) : option (list Out) :=
  e ← getT (T g) i j;
  p ← printPath (callDepth g) (T g) i j;
  Some ([OutSetw 26; OutInt i; OutSetw 6; OutInt j] ++ distOut e ++
        [OutSetw 4] ++ pathOut p ++ [OutEndl]).

(** Body of the inner loop of [displayAll]; [out] is what was printed so
    far. *)
Definition displayPair (g : Graph) (i j : Z) (out : list Out)
    : option (list Out) :=
  if negb (i =? j) then line ← pairLine g i j; Some (out ++ line)
  else Some out.

(** Body of the outer loop of [displayAll]. *)
Definition displayRow (g : Graph) (i : Z) (out : list Out) : option (list Out) :=
  v ← label g i;
  out' ← forRange 1 (size g) (displayPair g i) (out ++ printVertex v ++ [OutEndl]);
  Some (out' ++ [OutEndl]).

Definition displayAll (g : Graph) : option (Graph * list Out) :=
  g' ← findShortestPath g;
  out ← forRange 1 (size g') (displayRow g') displayHeader;
  Some (g', out).

(** ** Graph::buildGraph *)

(** What [buildGraph] asks of its [ifstream].  [readInt s x] is [infile >>
    x] for an [int] variable that holds [x]: the value it holds afterwards
    and the stream afterwards; [getline s x] is the same for
    [getline(infile, x)] and a string; [eof s] is [infile.eof()]. *)
Class IStream (S : Type) := {
  readInt : S → Z → Z * S;
  eof : S → bool;
  ignore : S → S;
  getline : S → string → string * S
}.

Section BuildGraph.
Context {S : Type} `{!IStream S}.

(** [istream& operator>>(istream&, Vertex&)] of Vertex.cpp. *)
Definition readVertex (s : S) (v : Vertex) : Vertex * S :=
  let r := getline s (Vertex.data v) in (Vertex.mk (fst r), snd r).

(** Body of the loop that reads the descriptions: [new Vertex], the
    description read into it, and a null [edgeHead]. *)
Definition readDescription (v : Z) (st : list VertexNode * S)
    : option (list VertexNode * S) :=
  let r := readVertex (snd st) (Vertex.mk EmptyString) in
  vs ← storeZ (fst st) v (mkVertexNode [] (Some (fst r)));
  Some (vs, snd r).

(** The [for (;;)] loop that reads the edges, with [fuel] passes allowed;
    [src], [dest] and [weight] are the three local variables. *)
Fixpoint readEdges (fuel : nat) (g : Graph) (s : S) (src dest weight : Z)
    : option (Graph * S) :=
  match fuel with
  | O => None
  | Datatypes.S fuel' =>
      let r1 := readInt s src in
      let r2 := readInt (snd r1) dest in
      let r3 := readInt (snd r2) weight in
      if (fst r1 =? 0) || eof (snd r3) then Some (g, snd r3)
      else
        r ← insertEdge g (fst r1) (fst r2) (fst r3);
        readEdges fuel' (snd r) (snd r3) (fst r1) (fst r2) (fst r3)
  end.

Definition buildGraph (fuel : nat) (g : Graph) (s : S) : option (Graph * S) :=
  let r := readInt s (size g) in
  if eof (snd r) then Some (mkGraph (vertices g) (fst r) (T g), snd r)
  else
    st ← forRange 1 (fst r) readDescription (vertices g, ignore (snd r));
    readEdges fuel (mkGraph (fst st) (fst r) (T g)) (snd st) 1 1 1.

End BuildGraph.

(** A stream already cut into its items, for the examples: the next item is
    read when it is of the kind asked for, nothing is read otherwise, and
    the end is met when no item is left. *)
Inductive Item :=
  | ItemInt (n : Z)
  | ItemLine (s : string).

#[export] Instance itemStream : IStream (list Item) := {
  readInt s x := match s with ItemInt n :: s' => (n, s') | _ => (x, s) end;
  eof s := match s with [] => true | _ => false end;
  ignore s := s;
  getline s x := match s with ItemLine l :: s' => (l, s') | _ => (x, s) end
}.

(** The file of the scenario: three vertices, three edges, the closing
    line of zeros. *)
Definition scenarioFile : list Item :=
  [ItemInt 3; ItemLine "A"; ItemLine "B"; ItemLine "C";
   ItemInt 1; ItemInt 2; ItemInt 5;
   ItemInt 2; ItemInt 3; ItemInt 2;
   ItemInt 1; ItemInt 3; ItemInt 10;
   ItemInt 0; ItemInt 0; ItemInt 0].

(** The states an object goes through, from its construction on, under the
    operations that work in place. *)
Inductive built : Graph → Prop :=
  | built_Graph T0 : built (newGraph T0)
  | built_buildGraph (S : Type) (I : IStream S) fuel g (s : S) g' s' :
      built g → buildGraph fuel g s = Some (g', s') → built g'
  | built_insertEdge g src dst w b g' :
      built g → insertEdge g src dst w = Some (b, g') → built g'
  | built_removeEdge g src dst b g' :
      built g → removeEdge g src dst = Some (b, g') → built g'
  | built_clearGraph g g' :
      built g → clearGraph g = Some g' → built g'
  | built_findShortestPath g g' :
      built g → findShortestPath g = Some g' → built g'.

(** An object as [buildGraph] leaves it when the file ends right after the
    number of vertices: [size] is 1 and vertex 1 has no label.  In
    [unlabelledStore] it lives at address 1, beside a default constructed
    object at address 2. *)
Definition unlabelledObject : GraphObject :=
  mkGraphObject (replicate (Z.to_nat MAX_VERTICES) (mkVertexSlot None None))
    1 initTable.

Definition unlabelledStore : Store :=
  mkStore ∅ ∅ (list_to_map [(1%positive, unlabelledObject); (2%positive, blankObject)]).

(** * Properties *)

(** ** Arrays *)

Section Arrays.
Context {A : Type}.
Implicit Types (l : list A) (i j : Z) (x : A).

Lemma lookupZ_Some l i x :
  lookupZ l i = Some x ↔ 0 ≤ i ∧ l !! Z.to_nat i = Some x.
Proof.
  unfold lookupZ. destruct (Z.ltb_spec i 0); split.
  - discriminate.
  - intros [? _]. lia.
  - auto.
  - tauto.
Qed.

Lemma lookupZ_range l i x :
  lookupZ l i = Some x → 0 ≤ i < Z.of_nat (length l).
Proof.
  intros [H0 H]%lookupZ_Some. apply lookup_lt_Some in H. lia.
Qed.

Lemma lookupZ_in_range l i :
  0 ≤ i < Z.of_nat (length l) → is_Some (lookupZ l i).
Proof.
  intros H. unfold lookupZ. destruct (Z.ltb_spec i 0); [lia|].
  apply lookup_lt_is_Some. lia.
Qed.

Lemma storeZ_Some l i x l' :
  storeZ l i x = Some l' ↔
  is_Some (lookupZ l i) ∧ l' = <[Z.to_nat i := x]> l.
Proof.
  unfold storeZ. destruct (lookupZ l i) as [y|]; simpl; split.
  - intros [= <-]. eauto.
  - intros [_ ->]. reflexivity.
  - discriminate.
  - intros [[? [=]] _].
Qed.

Lemma storeZ_total l i x :
  is_Some (lookupZ l i) → storeZ l i x = Some (<[Z.to_nat i := x]> l).
Proof. intros H. apply storeZ_Some. auto. Qed.

Lemma storeZ_length l i x l' :
  storeZ l i x = Some l' → length l' = length l.
Proof. intros [_ ->]%storeZ_Some. apply length_insert. Qed.

Lemma lookupZ_storeZ_eq l i x l' :
  storeZ l i x = Some l' → lookupZ l' i = Some x.
Proof.
  intros [[y Hy] ->]%storeZ_Some. apply lookupZ_Some in Hy as [H0 Hy].
  apply lookupZ_Some. split; [done|].
  apply list_lookup_insert_eq. by eapply lookup_lt_Some.
Qed.

Lemma lookupZ_storeZ_ne l i j x l' :
  storeZ l i x = Some l' → j ≠ i → lookupZ l' j = lookupZ l j.
Proof.
  intros [[y Hy] ->]%storeZ_Some Hne. apply lookupZ_Some in Hy as [H0 Hy].
  unfold lookupZ. destruct (Z.ltb_spec j 0); [done|].
  apply list_lookup_insert_ne. lia.
Qed.

Lemma lookupZ_insert_eq l i x :
  is_Some (lookupZ l i) → lookupZ (<[Z.to_nat i := x]> l) i = Some x.
Proof. intros H. eapply lookupZ_storeZ_eq. by apply storeZ_total. Qed.

Lemma lookupZ_insert_ne l i j x :
  is_Some (lookupZ l i) → j ≠ i →
  lookupZ (<[Z.to_nat i := x]> l) j = lookupZ l j.
Proof. intros H. eapply lookupZ_storeZ_ne. by apply storeZ_total. Qed.

(** Storing back what a slot already holds changes nothing. *)
Lemma storeZ_same l i x :
  lookupZ l i = Some x → storeZ l i x = Some l.
Proof.
  intros H. rewrite storeZ_total by eauto.
  apply lookupZ_Some in H as [_ H]. by rewrite list_insert_id.
Qed.
End Arrays.

(** ** Counted loops *)

(** Invariant rule for [forZ]: [P j] holds before the pass with index [j]. *)
Lemma forZ_inv {S} (P : Z → S → Prop) (body : Z → S → option S) n :
  ∀ i s s',
    P i s →
    (∀ j x y, i ≤ j < i + Z.of_nat n → P j x → body j x = Some y → P (j + 1) y) →
    forZ n i body s = Some s' →
    P (i + Z.of_nat n) s'.
Proof.
  induction n as [|n IH]; intros i s s' HP Hstep Hrun; simpl in Hrun.
  - injection Hrun as <-. by replace (i + Z.of_nat 0) with i by lia.
  - destruct (body i s) as [s1|] eqn:Hb; [|done]. simpl in Hrun.
    replace (i + Z.of_nat (Datatypes.S n)) with ((i + 1) + Z.of_nat n) by lia.
    eapply IH; [| |exact Hrun].
    + eapply Hstep; [|exact HP|exact Hb]. lia.
    + intros j x y Hj. apply Hstep. lia.
Qed.

Lemma forRange_inv {S} (P : Z → S → Prop) (body : Z → S → option S) lo hi s s' :
  lo ≤ hi + 1 →
  P lo s →
  (∀ j x y, lo ≤ j ≤ hi → P j x → body j x = Some y → P (j + 1) y) →
  forRange lo hi body s = Some s' →
  P (hi + 1) s'.
Proof.
  intros Hle HP Hstep Hrun. unfold forRange in Hrun.
  replace (hi + 1) with (lo + Z.of_nat (Z.to_nat (hi - lo + 1))) by lia.
  eapply forZ_inv; [exact HP| |exact Hrun].
  intros j x y Hj. apply Hstep. lia.
Qed.

Lemma forRange_empty {S} (body : Z → S → option S) lo hi s :
  hi < lo → forRange lo hi body s = Some s.
Proof.
  intros H. unfold forRange. by replace (Z.to_nat (hi - lo + 1)) with O by lia.
Qed.

(** A loop whose every pass succeeds runs to completion. *)

Lemma forZ_total {S} (P : Z → S → Prop) (body : Z → S → option S) n :
  ∀ i s,
    P i s →
    (∀ j x, i ≤ j < i + Z.of_nat n → P j x →
            ∃ y, body j x = Some y ∧ P (j + 1) y) →
    ∃ s', forZ n i body s = Some s' ∧ P (i + Z.of_nat n) s'.
Proof.
  induction n as [|n IH]; intros i s HP Hstep; simpl.
  - exists s. split; [done|]. by replace (i + Z.of_nat 0) with i by lia.
  - destruct (Hstep i s) as (y & Hb & HPy); [lia|done|].
    rewrite Hb. simpl.
    replace (i + Z.of_nat (Datatypes.S n)) with ((i + 1) + Z.of_nat n) by lia.
    apply IH; [done|]. intros j x Hj. apply Hstep. lia.
Qed.

Lemma forRange_total {S} (P : Z → S → Prop) (body : Z → S → option S) lo hi s :
  lo ≤ hi + 1 →
  P lo s →
  (∀ j x, lo ≤ j ≤ hi → P j x → ∃ y, body j x = Some y ∧ P (j + 1) y) →
  ∃ s', forRange lo hi body s = Some s' ∧ P (hi + 1) s'.
Proof.
  intros Hle HP Hstep. unfold forRange.
  replace (hi + 1) with (lo + Z.of_nat (Z.to_nat (hi - lo + 1))) by lia.
  apply forZ_total; [done|]. intros j x Hj. apply Hstep. lia.
Qed.

(** ** Edge lists *)

Lemma first_edge_to d (l : list EdgeNode) :
  (∃ e, e ∈ l ∧ adjVertex e = d) →
  ∃ l1 e l2, l = l1 ++ e :: l2 ∧ adjVertex e = d ∧ noEdgeTo d l1.
Proof.
  induction l as [|a l IH]; intros (e & Hin & He).
  - by apply elem_of_nil in Hin.
  - destruct (decide (adjVertex a = d)) as [Ha|Ha].
    + exists [], a, l. repeat split; [done|constructor].
    + apply elem_of_cons in Hin as [->|Hin]; [done|].
      destruct IH as (l1 & e' & l2 & -> & He' & Hl1); [eauto|].
      exists (a :: l1), e', l2. repeat split; [done|by constructor].
Qed.

Lemma removeWalk_none l d :
  removeWalk l d = None ↔ noEdgeTo d l.
Proof.
  unfold noEdgeTo. induction l as [|a l IH]; simpl.
  - split; [constructor|done].
  - destruct (Z.eqb_spec (adjVertex a) d) as [Ha|Ha].
    + split; [done|]. intros H. by inversion H.
    + destruct (removeWalk l d) as [l'|]; simpl.
      * split; [done|]. intros H. inversion H; subst.
        by apply IH in H3.
      * split; [|done]. intros _. constructor; [done|]. by apply IH.
Qed.

Lemma removeWalk_first l1 e l2 d :
  adjVertex e = d → noEdgeTo d l1 →
  removeWalk (l1 ++ e :: l2) d = Some (l1 ++ l2).
Proof.
  intros He Hl1. induction Hl1 as [|a l1 Ha Hl1 IH]; simpl.
  - destruct (Z.eqb_spec (adjVertex e) d); done.
  - destruct (Z.eqb_spec (adjVertex a) d); [done|]. by rewrite IH.
Qed.

(** What [removeEdge] does, in terms of the walk alone: the separate test
    of the head node agrees with the first step of the walk. *)
Lemma removeEdge_unfold g src dst v :
  lookupZ (vertices g) src = Some v →
  removeEdge g src dst =
    match removeWalk (edgeHead v) dst with
    | None => Some (false, g)
    | Some l' => Some (true, setVertices g (<[Z.to_nat src := setEdgeHead v l']> (vertices g)))
    end.
Proof.
  intros Hv. unfold removeEdge. rewrite Hv. simpl.
  destruct (edgeHead v) as [|head rest] eqn:Hl; [done|]. simpl.
  destruct (Z.eqb_spec (adjVertex head) dst) as [Hh|Hh].
  - rewrite storeZ_total by eauto. done.
  - destruct (removeWalk rest dst) as [l'|]; simpl; [|done].
    rewrite storeZ_total by eauto. done.
Qed.

Lemma insertWalk_in_place l1 e l2 d w :
  adjVertex e = d → noEdgeTo d l1 → l2 ≠ [] →
  ∀ current rest, current :: rest = l1 ++ e :: l2 →
  insertWalk current rest d w = l1 ++ mkEdgeNode d w :: l2.
Proof.
  intros He Hl1 Hl2. induction Hl1 as [|a l1 Ha Hl1 IH]; intros current rest Heq.
  - simpl in Heq. injection Heq as -> ->.
    destruct l2 as [|b l2]; [done|]. simpl.
    destruct (Z.eqb_spec (adjVertex e) d); [|done]. by rewrite He.
  - simpl in Heq. injection Heq as -> ->.
    destruct l1 as [|b l1]; simpl.
    + destruct (Z.eqb_spec (adjVertex a) d); [done|].
      f_equal. by apply (IH e l2).
    + destruct (Z.eqb_spec (adjVertex a) d); [done|].
      f_equal. by apply (IH b (l1 ++ e :: l2)).
Qed.

(** The walk never looks at the last node: when no earlier node leads to
    [d] the new node goes to the tail, whatever the last node is. *)
Lemma insertWalk_append l last d w :
  noEdgeTo d l →
  ∀ current rest, current :: rest = l ++ [last] →
  insertWalk current rest d w = l ++ [last; mkEdgeNode d w].
Proof.
  intros Hl. induction Hl as [|a l Ha Hl IH]; intros current rest Heq.
  - simpl in Heq. injection Heq as -> ->. done.
  - simpl in Heq. injection Heq as -> ->.
    destruct l as [|b l]; simpl.
    + destruct (Z.eqb_spec (adjVertex a) d); [done|]. done.
    + destruct (Z.eqb_spec (adjVertex a) d); [done|].
      f_equal. by apply (IH b (l ++ [last])).
Qed.

Lemma insertEdge_negative g src dst w :
  w < 0 → insertEdge g src dst w = Some (false, g).
Proof.
  intros Hw. unfold insertEdge. by destruct (Z.ltb_spec w 0); [|lia].
Qed.

Lemma insertEdge_nonnegative g src dst w v :
  0 ≤ w → lookupZ (vertices g) src = Some v →
  ∃ l', insertEdge g src dst w =
          Some (true, setVertices g (<[Z.to_nat src := setEdgeHead v l']> (vertices g)))
        ∧ mkEdgeNode dst w ∈ l'.
Proof.
  intros Hw Hv. unfold insertEdge. destruct (Z.ltb_spec w 0); [lia|].
  rewrite Hv. simpl. rewrite storeZ_total by eauto. simpl.
  eexists. split; [reflexivity|].
  destruct (edgeHead v) as [|current rest]; [by apply list_elem_of_singleton|].
  clear. revert current. induction rest as [|next rest IH]; intros current; simpl.
  - apply elem_of_cons. right. by apply list_elem_of_singleton.
  - destruct (Z.eqb_spec (adjVertex current) dst) as [->|].
    + apply elem_of_cons. by left.
    + apply elem_of_cons. right. apply IH.
Qed.

(** ** insertEdge *)

(** C7: a negative weight makes [insertEdge] return [false] with the graph
    exactly as it was; any weight [>= 0], zero and self-loops included,
    makes it return [true], for every source subscript inside the array. *)
Theorem insertEdge_weight_check g src dst w :
  (w < 0 → insertEdge g src dst w = Some (false, g)) ∧
  (0 ≤ w → is_Some (lookupZ (vertices g) src) →
   ∃ g', insertEdge g src dst w = Some (true, g')).
Proof.
  split.
  - apply insertEdge_negative.
  - intros Hw [v Hv].
    destruct (insertEdge_nonnegative g src dst w v Hw Hv) as (l' & -> & _).
    eauto.
Qed.

Lemma insertEdge_weight_check_witness :
  insertEdge (blankGraph 3) 1 2 (-4) = Some (false, blankGraph 3) ∧
  (∃ g', insertEdge (blankGraph 3) 1 1 0 = Some (true, g')).
Proof.
  split.
  - apply (insertEdge_weight_check (blankGraph 3) 1 2 (-4)). lia.
  - apply (insertEdge_weight_check (blankGraph 3) 1 1 0); [lia|].
    vm_compute. eauto.
Defined.

(** X8: the walk of [insertEdge] never compares the last node of the list.
    When no node before the last one leads to [dst], a new node [dst] of
    weight [w] goes to the tail, the old nodes staying as they are: also
    when the last node leads to [dst] already, which then has two nodes. *)
Lemma insertEdge_last_node_not_checked g src dst w v l last :
  0 ≤ w → lookupZ (vertices g) src = Some v →
  edgeHead v = l ++ [last] → noEdgeTo dst l →
  ∃ g', insertEdge g src dst w = Some (true, g') ∧
        adjacency g' src = Some (l ++ [last; mkEdgeNode dst w]).
Proof.
  intros Hw Hv Hl Hno. unfold insertEdge. destruct (Z.ltb_spec w 0); [lia|].
  rewrite Hv. simpl.
  assert (match edgeHead v with
          | [] => [mkEdgeNode dst w]
          | current :: rest => insertWalk current rest dst w
          end = l ++ [last; mkEdgeNode dst w]) as ->.
  { destruct (edgeHead v) as [|current rest] eqn:He.
    - by destruct l.
    - by apply insertWalk_append. }
  rewrite storeZ_total by eauto. simpl. eexists. split; [reflexivity|].
  unfold adjacency. simpl. rewrite lookupZ_insert_eq by eauto. done.
Qed.

(** X7: when the first node that leads to [dst] is not the last node of the
    list of [src], [insertEdge(src, dst, w)] with [w >= 0] overwrites the
    weight of that node and leaves every other node, and the order, as
    they are. *)
Lemma insertEdge_inner_node_updated g src dst w v l1 e l2 :
  0 ≤ w → lookupZ (vertices g) src = Some v →
  edgeHead v = l1 ++ e :: l2 → adjVertex e = dst → noEdgeTo dst l1 → l2 ≠ [] →
  ∃ g', insertEdge g src dst w = Some (true, g') ∧
        adjacency g' src = Some (l1 ++ mkEdgeNode dst w :: l2).
Proof.
  intros Hw Hv Hl He Hno Hl2. unfold insertEdge. destruct (Z.ltb_spec w 0); [lia|].
  rewrite Hv. simpl.
  assert (match edgeHead v with
          | [] => [mkEdgeNode dst w]
          | current :: rest => insertWalk current rest dst w
          end = l1 ++ mkEdgeNode dst w :: l2) as ->.
  { destruct (edgeHead v) as [|current rest] eqn:Hh.
    - by destruct l1.
    - by apply (insertWalk_in_place l1 e l2). }
  rewrite storeZ_total by eauto. simpl. eexists. split; [reflexivity|].
  unfold adjacency. simpl. rewrite lookupZ_insert_eq by eauto. done.
Qed.

(** C2: on a graph without edges, [insertEdge(1, 2, 5)] followed by
    [insertEdge(1, 2, 7)] leaves two nodes for [1 -> 2] in the list of
    vertex 1, the first still carrying weight 5. *)
Example insertEdge_twice_keeps_both :
  ∃ g1 g2,
    insertEdge (blankGraph 3) 1 2 5 = Some (true, g1) ∧
    insertEdge g1 1 2 7 = Some (true, g2) ∧
    adjacency g2 1 = Some [mkEdgeNode 2 5; mkEdgeNode 2 7].
Proof. do 2 eexists. repeat split; vm_compute; reflexivity. Qed.

(** ** removeEdge *)

Lemma removeEdge_removed g src dst v l1 e l2 :
  lookupZ (vertices g) src = Some v →
  edgeHead v = l1 ++ e :: l2 → adjVertex e = dst → noEdgeTo dst l1 →
  ∃ g', removeEdge g src dst = Some (true, g') ∧
        lookupZ (vertices g') src = Some (setEdgeHead v (l1 ++ l2)) ∧
        (∀ j, j ≠ src → lookupZ (vertices g') j = lookupZ (vertices g) j) ∧
        size g' = size g ∧ T g' = T g.
Proof.
  intros Hv Hl He Hno. rewrite (removeEdge_unfold g src dst v Hv), Hl.
  rewrite removeWalk_first by done.
  assert (storeZ (vertices g) src (setEdgeHead v (l1 ++ l2)) =
          Some (<[Z.to_nat src := setEdgeHead v (l1 ++ l2)]> (vertices g))) as Hst
    by (apply storeZ_total; eauto).
  eexists. split; [reflexivity|]. simpl. repeat split.
  - by eapply lookupZ_storeZ_eq.
  - intros j Hj. by eapply lookupZ_storeZ_ne.
Qed.

Lemma removeEdge_absent g src dst v :
  lookupZ (vertices g) src = Some v → noEdgeTo dst (edgeHead v) →
  removeEdge g src dst = Some (false, g).
Proof.
  intros Hv Hno. rewrite (removeEdge_unfold g src dst v Hv).
  apply removeWalk_none in Hno. by rewrite Hno.
Qed.

(** C8: [removeEdge] returns [false] and the graph as it was when the list
    of [src] is empty or holds no node for [dst]; when one exists it returns
    [true], the list loses that one node, the head included, the other
    nodes keep their order, and no other slot changes. *)
Theorem removeEdge_result g src dst v :
  lookupZ (vertices g) src = Some v →
  (edgeHead v = [] → removeEdge g src dst = Some (false, g)) ∧
  (noEdgeTo dst (edgeHead v) → removeEdge g src dst = Some (false, g)) ∧
  (∀ head rest, edgeHead v = head :: rest → adjVertex head = dst →
     ∃ g', removeEdge g src dst = Some (true, g') ∧
           adjacency g' src = Some rest) ∧
  ((∃ e, e ∈ edgeHead v ∧ adjVertex e = dst) →
     ∃ g' l1 e l2,
       removeEdge g src dst = Some (true, g') ∧
       edgeHead v = l1 ++ e :: l2 ∧ adjVertex e = dst ∧
       lookupZ (vertices g') src = Some (setEdgeHead v (l1 ++ l2)) ∧
       (∀ j, j ≠ src → lookupZ (vertices g') j = lookupZ (vertices g) j) ∧
       size g' = size g ∧ T g' = T g).
Proof.
  intros Hv. repeat split.
  - intros Hnil. apply (removeEdge_absent g src dst v Hv). rewrite Hnil. constructor.
  - apply (removeEdge_absent g src dst v Hv).
  - intros head rest Hl Hh.
    destruct (removeEdge_removed g src dst v [] head rest Hv Hl Hh) as (g' & Hr & Hs & _).
    { constructor. }
    exists g'. split; [done|]. unfold adjacency. by rewrite Hs.
  - intros Hex. destruct (first_edge_to dst (edgeHead v) Hex) as (l1 & e & l2 & Hl & He & Hno).
    destruct (removeEdge_removed g src dst v l1 e l2 Hv Hl He Hno) as (g' & Hr & Hs & Ho & Hsz & HT).
    exists g', l1, e, l2. done.
Qed.

Lemma removeEdge_result_witness :
  removeEdge oneEdgeGraph 1 3 = Some (false, oneEdgeGraph) ∧
  ∃ g', removeEdge oneEdgeGraph 1 2 = Some (true, g') ∧ adjacency g' 1 = Some [].
Proof.
  pose proof (removeEdge_result oneEdgeGraph 1 3
                (mkVertexNode [mkEdgeNode 2 5] (Some (Vertex.mk EmptyString)))
                eq_refl) as (_ & Habsent & _).
  pose proof (removeEdge_result oneEdgeGraph 1 2
                (mkVertexNode [mkEdgeNode 2 5] (Some (Vertex.mk EmptyString)))
                eq_refl) as (_ & _ & Hhead & _).
  split.
  - apply Habsent. repeat constructor. simpl. lia.
  - apply (Hhead (mkEdgeNode 2 5) []); reflexivity.
Defined.

Lemma countTo_app d l1 l2 :
  countTo d (l1 ++ l2) = (countTo d l1 + countTo d l2)%nat.
Proof. unfold countTo. by rewrite filter_app, length_app. Qed.

Lemma countTo_none d l : noEdgeTo d l → countTo d l = 0%nat.
Proof.
  unfold countTo. induction 1 as [|a l Ha Hl IH]; [done|].
  by rewrite filter_cons_False.
Qed.

(** C10: one call unlinks at most one node.  When the list holds several
    nodes for [dst], the node removed is the first of them and every node
    behind it, those for [dst] included, is still in the list afterwards. *)
Theorem removeEdge_unlinks_first_only g src dst v b g' :
  lookupZ (vertices g) src = Some v →
  removeEdge g src dst = Some (b, g') →
  ∃ l',
    adjacency g' src = Some l' ∧
    (length l' + (if b then 1 else 0) = length (edgeHead v))%nat ∧
    ∀ l1 e l2,
      edgeHead v = l1 ++ e :: l2 → adjVertex e = dst → noEdgeTo dst l1 →
      b = true ∧ l' = l1 ++ l2 ∧ countTo dst l' = countTo dst l2.
Proof.
  intros Hv Hr.
  destruct (removeWalk (edgeHead v) dst) as [l'|] eqn:Hw.
  - assert (∃ e, e ∈ edgeHead v ∧ adjVertex e = dst) as Hex.
    { destruct (decide (Exists (λ e, adjVertex e = dst) (edgeHead v))) as [Hx|Hx].
      - apply Exists_exists in Hx. exact Hx.
      - apply not_Exists_Forall in Hx; [|intros ?; apply _].
        apply removeWalk_none in Hx. congruence. }
    destruct (first_edge_to dst _ Hex) as (l1 & e & l2 & Hl & He & Hno).
    destruct (removeEdge_removed g src dst v l1 e l2 Hv Hl He Hno)
      as (g1 & Hr1 & Hs & _).
    rewrite Hr in Hr1. injection Hr1 as -> ->.
    exists (l1 ++ l2). unfold adjacency. rewrite Hs. simpl. split; [done|]. split.
    + rewrite Hl, !length_app. simpl. lia.
    + intros k1 e1 k2 Hk He1 Hno1.
      pose proof Hw as Hw'.
      rewrite Hk, removeWalk_first in Hw by done.
      rewrite Hl, removeWalk_first in Hw' by done.
      assert (l1 ++ l2 = k1 ++ k2) as -> by congruence.
      split; [done|]. split; [done|].
      rewrite countTo_app, countTo_none by done. done.
  - pose proof Hw as Hno. apply removeWalk_none in Hno.
    rewrite (removeEdge_absent g src dst v Hv Hno) in Hr. injection Hr as <- <-.
    exists (edgeHead v). unfold adjacency. rewrite Hv. simpl.
    split; [done|]. split; [lia|].
    intros l1 e l2 Hl He _. exfalso.
    rewrite Hl in Hno. apply Forall_app in Hno as [_ Hno]. by inversion Hno.
Qed.

Lemma removeEdge_unlinks_first_only_witness :
  ∃ g' l',
    removeEdge parallelEdgesGraph 1 2 = Some (true, g') ∧
    adjacency g' 1 = Some l' ∧
    l' = [mkEdgeNode 3 1; mkEdgeNode 2 7; mkEdgeNode 1 4] ∧
    countTo 2 l' = 1%nat.
Proof.
  destruct (removeEdge parallelEdgesGraph 1 2) as [[b g']|] eqn:Hr;
    [|by vm_compute in Hr].
  destruct (removeEdge_unlinks_first_only parallelEdgesGraph 1 2
              (mkVertexNode
                 [mkEdgeNode 3 1; mkEdgeNode 2 5; mkEdgeNode 2 7; mkEdgeNode 1 4]
                 (Some (Vertex.mk EmptyString))) b g' eq_refl Hr)
    as (l' & Hadj & _ & Hfirst).
  destruct (Hfirst [mkEdgeNode 3 1] (mkEdgeNode 2 5) [mkEdgeNode 2 7; mkEdgeNode 1 4])
    as (-> & -> & Hc); [reflexivity|reflexivity|repeat constructor; simpl; lia|].
  exists g', ([mkEdgeNode 3 1] ++ [mkEdgeNode 2 7; mkEdgeNode 1 4]).
  split; [reflexivity|]. split; [exact Hadj|]. split; [reflexivity|].
  rewrite Hc. reflexivity.
Defined.

(** ** clearGraph *)

Lemma clearSlots_result vs n vs' :
  forRange 1 n clearSlot vs = Some vs' →
  (∀ i, 1 ≤ i ≤ n → lookupZ vs' i = Some nullVertexNode) ∧
  (∀ i, ¬ (1 ≤ i ≤ n) → lookupZ vs' i = lookupZ vs i).
Proof.
  intros Hrun. destruct (Z.le_gt_cases 1 (n + 1)) as [Hn|Hn].
  - pose (P := λ (j : Z) (x : list VertexNode),
               (∀ i, 1 ≤ i < j → lookupZ x i = Some nullVertexNode) ∧
               (∀ i, ¬ (1 ≤ i < j) → lookupZ x i = lookupZ vs i)).
    assert (P (n + 1) vs') as [H1 H2].
    { eapply (forRange_inv P); [exact Hn| | |exact Hrun].
      - split; [lia|done].
      - intros j x y Hj [Hx1 Hx2] Hb. unfold clearSlot in Hb. split.
        + intros i Hi. destruct (decide (i = j)) as [->|Hne].
          * by eapply lookupZ_storeZ_eq.
          * rewrite (lookupZ_storeZ_ne _ _ _ _ _ Hb Hne). apply Hx1. lia.
        + intros i Hi. rewrite (lookupZ_storeZ_ne _ _ i _ _ Hb) by lia.
          apply Hx2. lia. }
    split; intros i Hi; [apply H1|apply H2]; lia.
  - rewrite forRange_empty in Hrun by lia. injection Hrun as <-.
    split; [lia|done].
Qed.

(** Clearing slots that are already null gives back the same array. *)
Lemma clearSlots_null vs n :
  (∀ i, 1 ≤ i ≤ n → lookupZ vs i = Some nullVertexNode) →
  forRange 1 n clearSlot vs = Some vs.
Proof.
  intros Hnull. unfold forRange.
  destruct (forZ_total (λ _ x, x = vs) clearSlot (Z.to_nat (n - 1 + 1)) 1 vs)
    as (s' & Hrun & ->); [done| |done].
  intros j x Hj ->. exists vs. split; [|done].
  unfold clearSlot. apply storeZ_same, Hnull. lia.
Qed.

(** C6 as the code has it: [clearGraph] empties the edge list and drops the
    label of every slot [1..size], touches no other slot, and leaves [size]
    and the table as they were; on a graph whose slots [1..size] are already
    null, and so on its own result, it changes nothing. *)
Theorem clearGraph_clears_slots_keeps_size g g' :
  clearGraph g = Some g' →
  (∀ i, 1 ≤ i ≤ size g → lookupZ (vertices g') i = Some nullVertexNode) ∧
  (∀ i, ¬ (1 ≤ i ≤ size g) → lookupZ (vertices g') i = lookupZ (vertices g) i) ∧
  size g' = size g ∧ T g' = T g ∧
  clearGraph g' = Some g' ∧
  ((∀ i, 1 ≤ i ≤ size g → lookupZ (vertices g) i = Some nullVertexNode) → g' = g).
Proof.
  unfold clearGraph. destruct (Z.ltb_spec 0 (size g)) as [Hs|Hs].
  - destruct (forRange 1 (size g) clearSlot (vertices g)) as [vs|] eqn:Hrun; [|done].
    simpl. intros [= <-]. simpl.
    destruct (clearSlots_result _ _ _ Hrun) as [H1 H2].
    split; [exact H1|]. split; [exact H2|]. do 2 (split; [reflexivity|]). split.
    + destruct (Z.ltb_spec 0 (size g)); [|lia].
      rewrite clearSlots_null by done. done.
    + intros Hnull. rewrite clearSlots_null in Hrun by done.
      injection Hrun as <-. by destruct g.
  - intros [= <-]. split; [lia|]. do 3 (split; [done|]). split; [|done].
    by destruct (Z.ltb_spec 0 (size g)); [lia|].
Qed.

Lemma clearGraph_clears_slots_keeps_size_witness :
  ∃ g', clearGraph oneEdgeGraph = Some g' ∧
        lookupZ (vertices g') 1 = Some nullVertexNode ∧ size g' = 3.
Proof.
  destruct (clearGraph oneEdgeGraph) as [g'|] eqn:Hc; [|by vm_compute in Hc].
  destruct (clearGraph_clears_slots_keeps_size oneEdgeGraph g' Hc)
    as (Hnull & _ & Hsize & _).
  exists g'. split; [reflexivity|]. split; [apply Hnull; simpl; lia|exact Hsize].
Defined.

(** C6 as stated fails: after [clearGraph] on a graph of three vertices the
    vertex count is still 3. *)
Lemma clearGraph_size_not_reset :
  ¬ (∀ g g', clearGraph g = Some g' → size g' = 0).
Proof.
  intros H.
  destruct (clearGraph oneEdgeGraph) as [g'|] eqn:Hc; [|by vm_compute in Hc].
  pose proof (H _ _ Hc) as H0.
  vm_compute in Hc. injection Hc as <-. simpl in H0. lia.
Qed.

(** ** The table *)

Lemma getT_Some t r c e :
  getT t r c = Some e ↔ ∃ row, lookupZ t r = Some row ∧ lookupZ row c = Some e.
Proof.
  unfold getT. destruct (lookupZ t r) as [row|]; simpl.
  - split; [eauto|]. by intros (? & [= <-] & ?).
  - split; [done|]. by intros (? & [=] & _).
Qed.

Lemma setT_Some t r c e t' :
  setT t r c e = Some t' ↔
  ∃ row, lookupZ t r = Some row ∧ is_Some (lookupZ row c) ∧
         t' = <[Z.to_nat r := <[Z.to_nat c := e]> row]> t.
Proof.
  unfold setT. destruct (lookupZ t r) as [row|] eqn:Hr; simpl.
  - destruct (storeZ row c e) as [row'|] eqn:Hc; simpl.
    + apply storeZ_Some in Hc as [Hc ->]. rewrite storeZ_total by eauto.
      split.
      * intros [= <-]. eauto.
      * by intros (? & [= <-] & _ & ->).
    + split; [done|]. intros (? & [= <-] & Hc' & _).
      by rewrite storeZ_total in Hc.
  - split; [done|]. by intros (? & [=] & _).
Qed.

Lemma setT_total t r c e :
  is_Some (getT t r c) → is_Some (setT t r c e).
Proof.
  intros [e0 (row & Hr & Hc)%getT_Some]. eexists. apply setT_Some. eauto.
Qed.

Lemma getT_setT_eq t r c e t' :
  setT t r c e = Some t' → getT t' r c = Some e.
Proof.
  intros (row & Hr & Hc & ->)%setT_Some. apply getT_Some.
  exists (<[Z.to_nat c := e]> row). split.
  - apply lookupZ_insert_eq. eauto.
  - by apply lookupZ_insert_eq.
Qed.

Lemma getT_setT_ne t r c e t' r' c' :
  setT t r c e = Some t' → r' ≠ r ∨ c' ≠ c → getT t' r' c' = getT t r' c'.
Proof.
  intros (row & Hr & Hc & ->)%setT_Some Hne. unfold getT.
  destruct (decide (r' = r)) as [->|Hrr].
  - rewrite lookupZ_insert_eq, Hr by eauto. simpl.
    apply lookupZ_insert_ne; [done|]. by destruct Hne.
  - by rewrite lookupZ_insert_ne by eauto.
Qed.

Lemma getT_initTable r c e :
  getT initTable r c = Some e → e = mkTable false INT_MAX 0.
Proof.
  intros (row & Hr & Hc)%getT_Some.
  apply lookupZ_Some in Hr as [_ Hr]. apply lookupZ_Some in Hc as [_ Hc].
  unfold initTable in Hr. apply lookup_replicate in Hr as [-> _].
  by apply lookup_replicate in Hc as [-> _].
Qed.

(** ** lowestWeightVertex *)

Lemma lowestStep_inv g t s j st st' :
  1 ≤ j →
  lowestInv g t s j st → lowestStep t s j st = Some st' →
  lowestInv g t s (j + 1) st'.
Proof.
  intros Hj1 Hinv Hstep. unfold lowestStep in Hstep.
  destruct (getT t s j) as [ej|] eqn:Hj; [|done]. simpl in Hstep.
  destruct st as [lw rv]. unfold lowestInv in *. simpl in *.
  destruct (visited ej) eqn:Hvis; simpl in Hstep.
  - injection Hstep as <-. simpl.
    destruct Hinv as [(-> & -> & Hall)|(Hrv & ev & Hev & Hu & Hd & Hfin & Hall)].
    + left. repeat split. intros i e Hi He.
      destruct (decide (i = j)) as [->|]; [left; congruence|].
      apply (Hall i); [lia|done].
    + right. split; [lia|]. exists ev. repeat split; try done.
      intros i e Hi He Hv.
      destruct (decide (i = j)) as [->|]; [congruence|].
      apply (Hall i); [lia|done|done].
  - destruct (Z.ltb_spec (dist ej) lw) as [Hlt|Hge]; injection Hstep as <-; simpl.
    + right. split; [lia|]. exists ej. repeat split; try done.
      * destruct Hinv as [(_ & -> & _)|(_ & _ & _ & _ & _ & Hfin & _)]; lia.
      * intros i e Hi He Hv.
        destruct (decide (i = j)) as [->|]; [right; split; [congruence|lia]|].
        destruct Hinv as [(_ & -> & Hall)|(Hrv & ev & Hev & Hu & Hd & Hfin & Hall)].
        -- destruct (Hall i e) as [?|?]; [lia|done|congruence|lia].
        -- destruct (Hall i e) as [?|[? ?]]; [lia|done|done|left; lia|left; lia].
    + destruct Hinv as [(-> & -> & Hall)|(Hrv & ev & Hev & Hu & Hd & Hfin & Hall)].
      * left. repeat split. intros i e Hi He.
        destruct (decide (i = j)) as [->|]; [right; congruence|].
        apply (Hall i); [lia|done].
      * right. split; [lia|]. exists ev. repeat split; try done.
        intros i e Hi He Hv.
        destruct (decide (i = j)) as [->|].
        -- assert (e = ej) as -> by congruence.
           destruct (decide (lw = dist ej)); [right; split; [done|lia]|left; lia].
        -- apply (Hall i); [lia|done|done].
Qed.

Lemma lowestWeightVertex_spec g t s v :
  lowestWeightVertex g t s = Some v →
  (0 < v → selected g t s v) ∧
  (v ≤ 0 → v = 0 ∧ ∀ i e, ¬ candidate g t s i e).
Proof.
  unfold lowestWeightVertex. intros Hrun.
  destruct (forRange 1 (size g) (lowestStep t s) (INT_MAX, 0)) as [st|] eqn:Hloop;
    [|done].
  simpl in Hrun. injection Hrun as <-.
  assert (lowestInv g t s (Z.max 1 (size g + 1)) st) as Hinv.
  { destruct (Z.le_gt_cases 1 (size g + 1)).
    - replace (Z.max 1 (size g + 1)) with (size g + 1) by lia.
      eapply (forRange_inv (lowestInv g t s)); [done| | |exact Hloop].
      + left. simpl. repeat split. lia.
      + intros j x y Hj. apply lowestStep_inv. lia.
    - rewrite forRange_empty in Hloop by lia. injection Hloop as <-.
      left. simpl. repeat split. lia. }
  unfold lowestInv in Hinv.
  destruct Hinv as [(Hv & _ & Hall)|(Hrv & ev & Hev & Hu & Hd & Hfin & Hall)].
  - rewrite Hv. split; [lia|]. intros _. split; [done|].
    intros i e (Hi & He & Hvis & Hfin).
    destruct (Hall i e) as [?|?]; [lia|done|congruence|lia].
  - split; [|lia]. intros _. exists ev. split.
    + repeat split; try done; lia.
    + intros i e (Hi & He & Hvis & Hfin').
      destruct (Hall i e) as [?|[? ?]]; [lia|done|done|left; lia|right; lia].
Qed.

Lemma scenario_is_scenarioGraph : scenario = Some scenarioGraph.
Proof. vm_compute. reflexivity. Qed.

(** ** The relaxation loop *)

Lemma helperLoop_log_length n g s :
  ∀ t t' log, helperLoop n g s t = Some (t', log) → (length log ≤ n)%nat.
Proof.
  induction n as [|n IH]; intros t t' log Hrun; simpl in Hrun.
  - injection Hrun as <- <-. done.
  - destruct (lowestWeightVertex g t s) as [v|]; [|done]. simpl in Hrun.
    destruct (0 <? v).
    + destruct (visitVertex g s v t) as [t1|]; [|done]. simpl in Hrun.
      destruct (helperLoop n g s t1) as [[t2 log2]|] eqn:Hrec; [|done].
      simpl in Hrun. injection Hrun as <- <-. simpl.
      apply IH in Hrec. lia.
    + injection Hrun as <- <-. simpl. lia.
Qed.

Lemma helperLoop_pass n g s t t' log :
  helperLoop (Datatypes.S n) g s t = Some (t', log) →
  (log = [] ∧ t' = t ∧ ∀ i e, ¬ candidate g t s i e) ∨
  (∃ v t1 log',
     log = v :: log' ∧ selected g t s v ∧
     visitVertex g s v t = Some t1 ∧
     helperLoop n g s t1 = Some (t', log')).
Proof.
  intros Hrun. simpl in Hrun.
  destruct (lowestWeightVertex g t s) as [v|] eqn:Hlow; [|done]. simpl in Hrun.
  destruct (lowestWeightVertex_spec g t s v Hlow) as [Hpos Hzero].
  destruct (Z.ltb_spec 0 v) as [Hv|Hv].
  - right. destruct (visitVertex g s v t) as [t1|] eqn:Hvisit; [|done].
    simpl in Hrun.
    destruct (helperLoop n g s t1) as [[t2 log2]|] eqn:Hrec; [|done].
    simpl in Hrun. injection Hrun as <- <-.
    exists v, t1, log2. split; [done|]. split; [by apply Hpos|]. done.
  - left. injection Hrun as <- <-. split; [done|]. split; [done|].
    by apply Hzero.
Qed.

Lemma helperLoop_no_candidate n g s t :
  (∀ i e, ¬ candidate g t s i e) →
  is_Some (lowestWeightVertex g t s) →
  helperLoop n g s t = Some (t, []).
Proof.
  intros Hno [v Hlow]. destruct n as [|n]; [done|]. simpl. rewrite Hlow. simpl.
  destruct (lowestWeightVertex_spec g t s v Hlow) as [Hpos _].
  destruct (Z.ltb_spec 0 v) as [Hv|Hv]; [|done].
  destruct (Hpos Hv) as (ev & Hc & _). by apply Hno in Hc.
Qed.

(** C3: a run for one source executes the loop body at most [size - 1]
    times; a pass that executes finalises the unvisited vertex of
    [1..size] of smallest finite distance, the lowest-numbered one on a
    tie; a pass that finds no unvisited vertex of finite distance ends the
    run at once with the table as it is. *)
Theorem helperLoop_selects_minimum g s :
  (∀ t t' log, findShortestPathHelper g s t = Some (t', log) →
     Z.of_nat (length log) ≤ Z.max 0 (size g - 1)) ∧
  (∀ n t t' log, helperLoop (Datatypes.S n) g s t = Some (t', log) →
     (log = [] ∧ t' = t ∧ ∀ i e, ¬ candidate g t s i e) ∨
     (∃ v t1 log',
        log = v :: log' ∧ selected g t s v ∧
        visitVertex g s v t = Some t1 ∧
        helperLoop n g s t1 = Some (t', log'))) ∧
  (∀ n t, (∀ i e, ¬ candidate g t s i e) →
     is_Some (lowestWeightVertex g t s) →
     helperLoop n g s t = Some (t, [])).
Proof.
  split; [|split].
  - intros t t' log Hrun. unfold findShortestPathHelper in Hrun.
    destruct (getT t s s) as [e|]; [|done]. simpl in Hrun.
    destruct (setT t s s _) as [t0|]; [|done]. simpl in Hrun.
    apply helperLoop_log_length in Hrun. lia.
  - intros n t t' log. apply helperLoop_pass.
  - intros n t. apply helperLoop_no_candidate.
Qed.

Lemma helperLoop_selects_minimum_witness :
  (∃ t' log,
     findShortestPathHelper scenarioGraph 1 initTable = Some (t', log) ∧
     Z.of_nat (length log) ≤ 2) ∧
  helperLoop 2 scenarioGraph 1 initTable = Some (initTable, []).
Proof.
  pose proof (helperLoop_selects_minimum scenarioGraph 1) as (Hlen & _ & Hstop).
  split.
  - destruct (findShortestPathHelper scenarioGraph 1 initTable)
      as [[t' log]|] eqn:Hrun; [|by vm_compute in Hrun].
    exists t', log. split; [reflexivity|].
    apply (Hlen initTable t' log Hrun).
  - apply Hstop.
    + intros i e (Hi & He & Hvis & Hfin).
      apply getT_initTable in He. subst e. simpl in Hfin. lia.
    + vm_compute. eauto.
Defined.

(** ** The invariant of a run *)

Lemma runInv_ext g s t t' k rank :
  (∀ c, getT t' s c = getT t s c) →
  runInv g s t k rank → runInv g s t' k rank.
Proof.
  intros Heq [H1 H2 H3 H4 H5]. split.
  - destruct H1 as (e & He & ?). exists e. by rewrite Heq.
  - intros v e He. rewrite Heq in He. by apply (H2 v).
  - intros v e He. rewrite Heq in He. by apply (H3 v).
  - intros v e He Hv Hp. rewrite Heq in He.
    destruct (H4 v e He Hv Hp) as (eu & w & Hu & ?).
    exists eu, w. by rewrite Heq.
  - destruct H5 as [(e & He & ?)|H5].
    + left. exists e. by rewrite Heq.
    + right. intros v e Hv He. rewrite Heq in He. by apply (H5 v).
Qed.

Lemma runInv_init g s t e t0 :
  1 ≤ s ≤ size g → freshRow t s → getT t s s = Some e →
  setT t s s (mkTable (visited e) 0 s) = Some t0 →
  runInv g s t0 0 (λ _, 0%nat).
Proof.
  intros Hs Hfresh He Hset.
  pose proof (Hfresh s e He) as ->. simpl in Hset.
  assert (∀ v ev, v ≠ s → getT t0 s v = Some ev → ev = mkTable false INT_MAX 0)
    as Hother.
  { intros v ev Hv Hev. rewrite (getT_setT_ne _ _ _ _ _ s v Hset) in Hev by auto.
    by apply (Hfresh v). }
  pose proof (getT_setT_eq _ _ _ _ _ Hset) as Hss.
  split.
  - eexists. split; [exact Hss|done].
  - intros v ev Hev. destruct (decide (v = s)) as [->|Hv].
    + rewrite Hss in Hev. injection Hev as <-. simpl. unfold INT_MAX. lia.
    + rewrite (Hother v ev Hv Hev). simpl. unfold INT_MAX. lia.
  - intros v ev Hev Hvis. destruct (decide (v = s)) as [->|Hv].
    + rewrite Hss in Hev. by injection Hev as <-.
    + by rewrite (Hother v ev Hv Hev) in Hvis.
  - intros v ev Hev Hv Hp. by rewrite (Hother v ev Hv Hev) in Hp.
  - by right.
Qed.

(** Marking a candidate as visited. *)
Lemma mark_inv g s t k rank v ev t1 :
  runInv g s t k rank → candidate g t s v ev →
  setT t s v (mkTable true (dist ev) (path ev)) = Some t1 →
  runInv g s t1 (Datatypes.S k) (λ x, if decide (x = v) then k else rank x) ∧
  (∃ es, getT t1 s s = Some es ∧ visited es = true).
Proof.
  intros [H1 H2 H3 H4 H5] (Hv & Hev & Hunv & Hfin) Hset.
  pose proof (getT_setT_eq _ _ _ _ _ Hset) as Hvv.
  assert (∀ x, x ≠ v → getT t1 s x = getT t s x) as Hother.
  { intros x Hx. apply (getT_setT_ne _ _ _ _ _ s x Hset). auto. }
  assert (∀ x ex, getT t s x = Some ex → visited ex = true → x ≠ v) as Hvisne.
  { intros x ex Hex Hvis ->. congruence. }
  assert (v = s ∨ ∃ es, getT t s s = Some es ∧ visited es = true) as Hsrc.
  { destruct H5 as [H5|H5]; [by right|]. left.
    destruct (decide (v = s)) as [|Hne]; [done|].
    rewrite (H5 v ev Hne Hev) in Hfin. simpl in Hfin. lia. }
  split; [split|].
  - destruct H1 as (es & Hes & Hd & Hp).
    destruct (decide (s = v)) as [->|Hne].
    + eexists. split; [exact Hvv|]. simpl. split; congruence.
    + exists es. by rewrite Hother.
  - intros x ex Hex. destruct (decide (x = v)) as [->|Hne].
    + rewrite Hvv in Hex. injection Hex as <-. simpl. by apply (H2 v).
    + rewrite Hother in Hex by done. by apply (H2 x).
  - intros x ex Hex Hvis. destruct (decide (x = v)) as [->|Hne].
    + split; [done|]. rewrite Hvv in Hex. injection Hex as <-. simpl.
      split; [done|lia].
    + rewrite Hother in Hex by done.
      destruct (H3 x ex Hex Hvis) as (? & ? & ?). split; [done|]. split; [done|lia].
  - intros x ex Hex Hxs Hp.
    assert (∃ ex0, getT t s x = Some ex0 ∧ path ex0 = path ex ∧ dist ex0 = dist ex
                   ∧ (x ≠ v → visited ex0 = visited ex)) as (ex0 & Hex0 & Hp0 & Hd0 & Hv0).
    { destruct (decide (x = v)) as [->|Hne].
      - rewrite Hvv in Hex. injection Hex as <-. exists ev. done.
      - rewrite Hother in Hex by done. exists ex. done. }
    rewrite <- Hp0 in Hp.
    destruct (H4 x ex0 Hex0 Hxs Hp) as (eu & w & Hu & Huvis & Hedge & Hdist & Hrank).
    rewrite <- Hp0, <- Hd0. exists eu, w.
    pose proof (Hvisne _ _ Hu Huvis) as Hune.
    rewrite Hother by done. repeat split; try done.
    intros Hvis. destruct (decide (path ex0 = v)) as [|_]; [done|].
    destruct (decide (x = v)) as [->|Hne].
    + by destruct (H3 _ _ Hu Huvis) as (_ & _ & ?).
    + apply Hrank. by rewrite Hv0.
  - left. destruct Hsrc as [->|(es & Hes & Hvis)].
    + eexists. split; [exact Hvv|done].
    + exists es. rewrite Hother; [done|]. by eapply Hvisne.
  - destruct Hsrc as [->|(es & Hes & Hvis)].
    + eexists. split; [exact Hvv|done].
    + exists es. rewrite Hother; [done|]. by eapply Hvisne.
Qed.

Lemma addInt_Some a b r :
  addInt a b = Some r ↔ r = a + b ∧ INT_MIN ≤ a + b ≤ INT_MAX.
Proof.
  unfold addInt.
  destruct (Z.leb_spec INT_MIN (a + b)), (Z.leb_spec (a + b) INT_MAX); simpl;
    split; try done; try (intros [= <-]; lia); try (intros [-> ?]; done || lia).
Qed.

(** Relaxing one edge of a visited vertex [u]. *)
Lemma relaxEdge_inv g s t k rank u eu vn current t' :
  runInv g s t k rank →
  (∃ es, getT t s s = Some es ∧ visited es = true) →
  getT t s u = Some eu → visited eu = true →
  lookupZ (vertices g) u = Some vn → current ∈ edgeHead vn →
  relaxEdge s u t current = Some t' →
  runInv g s t' k rank ∧
  (∃ es, getT t' s s = Some es ∧ visited es = true) ∧
  getT t' s u = Some eu.
Proof.
  intros Hinv Hsrc Hu Huvis Hvn Hin Hrel. unfold relaxEdge in Hrel.
  destruct (getT t s (adjVertex current)) as [ew|] eqn:Hw; [|done].
  simpl in Hrel.
  destruct (visited ew) eqn:Hwvis; [by injection Hrel as <-|].
  rewrite Hu in Hrel. simpl in Hrel.
  destruct (addInt (dist eu) (weight current)) as [sum|] eqn:Hsum; [|done].
  simpl in Hrel. apply addInt_Some in Hsum as [-> Hrange].
  destruct (Z.ltb_spec (dist eu + weight current) (dist ew)) as [Hlt|Hge];
    [|by injection Hrel as <-].
  set (x := adjVertex current) in *.
  pose proof (getT_setT_eq _ _ _ _ _ Hrel) as Hxx.
  assert (∀ y, y ≠ x → getT t' s y = getT t s y) as Hother.
  { intros y Hy. apply (getT_setT_ne _ _ _ _ _ s y Hrel). auto. }
  assert (∀ y ey, getT t s y = Some ey → visited ey = true → y ≠ x) as Hvisne.
  { intros y ey Hey Hvis ->. congruence. }
  destruct Hinv as [H1 H2 H3 H4 H5].
  destruct (H3 u eu Hu Huvis) as (Hurange & Hufin & Hurank).
  destruct (H2 x ew Hw) as (Hwmax & _ & _).
  split; [split|split].
  - destruct H1 as (es & Hes & ?). exists es.
    destruct Hsrc as (es' & Hes' & Hsvis).
    rewrite Hother; [done|]. by eapply Hvisne.
  - intros y ey Hey. destruct (decide (y = x)) as [->|Hne].
    + rewrite Hxx in Hey. injection Hey as <-. simpl.
      split; [lia|]. split; [|right; lia]. split; [lia|]. intros _. lia.
    + rewrite Hother in Hey by done. by apply (H2 y).
  - intros y ey Hey Hvis. destruct (decide (y = x)) as [->|Hne].
    + rewrite Hxx in Hey. injection Hey as <-. simpl in Hvis. congruence.
    + rewrite Hother in Hey by done. by apply (H3 y).
  - intros y ey Hey Hys Hp. destruct (decide (y = x)) as [->|Hne].
    + rewrite Hxx in Hey. injection Hey as <-. simpl in *.
      exists eu, (weight current).
      rewrite Hother by (by eapply Hvisne).
      split; [done|]. split; [done|]. split; [|split; [done|congruence]].
      exists vn. split; [done|]. subst x. by destruct current.
    + rewrite Hother in Hey by done.
      destruct (H4 y ey Hey Hys Hp) as (ep & w & Hep & Hpvis & Hrest).
      exists ep, w. rewrite Hother by (by eapply Hvisne). done.
  - left. destruct Hsrc as (es & Hes & Hsvis). exists es.
    rewrite Hother; [done|]. by eapply Hvisne.
  - destruct Hsrc as (es & Hes & Hsvis). exists es.
    rewrite Hother; [done|]. by eapply Hvisne.
  - rewrite Hother; [done|]. by eapply Hvisne.
Qed.

Lemma relaxEdges_inv g s k rank u eu vn l :
  lookupZ (vertices g) u = Some vn → (∀ c, c ∈ l → c ∈ edgeHead vn) →
  visited eu = true →
  ∀ t t',
    runInv g s t k rank →
    (∃ es, getT t s s = Some es ∧ visited es = true) →
    getT t s u = Some eu →
    relaxEdges s u t l = Some t' →
    runInv g s t' k rank.
Proof.
  intros Hvn Hl Huvis. induction l as [|c l IH]; intros t t' Hinv Hsrc Hu Hrun;
    simpl in Hrun.
  - by injection Hrun as <-.
  - destruct (relaxEdge s u t c) as [t1|] eqn:Hrel; [|done]. simpl in Hrun.
    destruct (relaxEdge_inv g s t k rank u eu vn c t1) as (Hinv1 & Hsrc1 & Hu1);
      try done.
    { apply Hl. by left. }
    apply (IH (λ c' Hc', Hl c' (list_elem_of_further _ _ _ Hc')) t1 t'); done.
Qed.

Lemma visitVertex_inv g s t k rank v t' :
  runInv g s t k rank → selected g t s v →
  visitVertex g s v t = Some t' →
  ∃ rank', runInv g s t' (Datatypes.S k) rank'.
Proof.
  intros Hinv (ev & Hcand & _) Hvisit. unfold visitVertex in Hvisit.
  pose proof Hcand as (Hv & Hev & Hunv & Hfin).
  rewrite Hev in Hvisit. simpl in Hvisit.
  destruct (setT t s v _) as [t1|] eqn:Hset; [|done]. simpl in Hvisit.
  destruct (lookupZ (vertices g) v) as [vn|] eqn:Hvn; [|done]. simpl in Hvisit.
  destruct (mark_inv g s t k rank v ev t1 Hinv Hcand Hset) as [Hinv1 Hsrc1].
  eexists.
  eapply (relaxEdges_inv g s (Datatypes.S k) _ v
            (mkTable true (dist ev) (path ev)) vn (edgeHead vn));
    [exact Hvn|done|done|exact Hinv1|exact Hsrc1| |exact Hvisit].
  by eapply getT_setT_eq.
Qed.

Lemma helperLoop_inv g s n :
  ∀ t k rank t' log,
    runInv g s t k rank →
    helperLoop n g s t = Some (t', log) →
    ∃ k' rank', runInv g s t' k' rank' ∧ (k' ≤ k + n)%nat.
Proof.
  induction n as [|n IH]; intros t k rank t' log Hinv Hrun.
  - simpl in Hrun. injection Hrun as <- <-. exists k, rank. split; [done|lia].
  - destruct (helperLoop_pass n g s t t' log Hrun)
      as [(_ & -> & _)|(v & t1 & log' & _ & Hsel & Hvisit & Hrec)].
    + exists k, rank. split; [done|lia].
    + destruct (visitVertex_inv g s t k rank v t1 Hinv Hsel Hvisit) as [rank1 Hinv1].
      destruct (IH t1 (Datatypes.S k) rank1 t' log' Hinv1 Hrec) as (k' & rank' & Hinv' & Hk).
      exists k', rank'. split; [done|lia].
Qed.

(** *** A run touches its own row only *)

Lemma relaxEdges_frame s u l :
  ∀ t t', relaxEdges s u t l = Some t' →
          ∀ r c, r ≠ s → getT t' r c = getT t r c.
Proof.
  induction l as [|cur l IH]; intros t t' Hrun r c Hr; simpl in Hrun.
  - by injection Hrun as <-.
  - destruct (relaxEdge s u t cur) as [t1|] eqn:Hrel; [|done]. simpl in Hrun.
    rewrite (IH t1 t' Hrun r c Hr).
    unfold relaxEdge in Hrel.
    destruct (getT t s (adjVertex cur)) as [ew|]; [|done]. simpl in Hrel.
    destruct (visited ew); [by injection Hrel as <-|].
    destruct (getT t s u) as [eu|]; [|done]. simpl in Hrel.
    destruct (addInt (dist eu) (weight cur)) as [sum|]; [|done]. simpl in Hrel.
    destruct (sum <? dist ew); [|by injection Hrel as <-].
    apply (getT_setT_ne _ _ _ _ _ r c Hrel). auto.
Qed.

Lemma helperLoop_frame g s n :
  ∀ t t' log, helperLoop n g s t = Some (t', log) →
              ∀ r c, r ≠ s → getT t' r c = getT t r c.
Proof.
  induction n as [|n IH]; intros t t' log Hrun r c Hr.
  - simpl in Hrun. by injection Hrun as <- <-.
  - destruct (helperLoop_pass n g s t t' log Hrun)
      as [(_ & -> & _)|(v & t1 & log' & _ & _ & Hvisit & Hrec)]; [done|].
    rewrite (IH t1 t' log' Hrec r c Hr).
    unfold visitVertex in Hvisit.
    destruct (getT t s v) as [ev|]; [|done]. simpl in Hvisit.
    destruct (setT t s v _) as [t0|] eqn:Hset; [|done]. simpl in Hvisit.
    destruct (lookupZ (vertices g) v) as [vn|]; [|done]. simpl in Hvisit.
    rewrite (relaxEdges_frame s v _ t0 t1 Hvisit r c Hr).
    apply (getT_setT_ne _ _ _ _ _ r c Hset). auto.
Qed.

Lemma findShortestPathHelper_frame g s t t' log :
  findShortestPathHelper g s t = Some (t', log) →
  ∀ r c, r ≠ s → getT t' r c = getT t r c.
Proof.
  intros Hrun r c Hr. unfold findShortestPathHelper in Hrun.
  destruct (getT t s s) as [e|]; [|done]. simpl in Hrun.
  destruct (setT t s s _) as [t0|] eqn:Hset; [|done]. simpl in Hrun.
  rewrite (helperLoop_frame g s _ t0 t' log Hrun r c Hr).
  apply (getT_setT_ne _ _ _ _ _ r c Hset). auto.
Qed.

Lemma findShortestPathHelper_rowDone g s t t' log :
  1 ≤ s ≤ size g → freshRow t s →
  findShortestPathHelper g s t = Some (t', log) →
  rowDone g t' s.
Proof.
  intros Hs Hfresh Hrun. unfold findShortestPathHelper in Hrun.
  destruct (getT t s s) as [e|] eqn:He; [|done]. simpl in Hrun.
  destruct (setT t s s _) as [t0|] eqn:Hset; [|done]. simpl in Hrun.
  pose proof (runInv_init g s t e t0 Hs Hfresh He Hset) as Hinv0.
  destruct (helperLoop_inv g s _ t0 0%nat _ t' log Hinv0 Hrun) as (k & rank & Hinv & Hk).
  exists k, rank. split; [lia|done].
Qed.

(** ** findShortestPath *)

Lemma findShortestPath_rows g g' :
  findShortestPath g = Some g' →
  vertices g' = vertices g ∧ size g' = size g ∧
  ∀ s, 1 ≤ s ≤ size g → rowDone g (T g') s.
Proof.
  unfold findShortestPath. intros Hrun.
  destruct (forRange 1 (size g) _ initTable) as [t|] eqn:Hloop; [|done].
  simpl in Hrun. injection Hrun as <-. simpl. split; [done|]. split; [done|].
  intros s Hs.
  pose (P := λ (j : Z) (x : list (list Table)),
               (∀ r, 1 ≤ r < j → rowDone g x r) ∧
               (∀ r, j ≤ r → freshRow x r)).
  assert (P (size g + 1) t) as [Hdone _].
  { eapply (forRange_inv P _ 1 (size g) initTable t); [lia| | |exact Hloop].
    - split; [lia|]. intros r _ c e. apply getT_initTable.
    - intros j x y Hj [Hd Hf] Hbody.
      destruct (findShortestPathHelper g j x) as [[y' log]|] eqn:Hh; [|done].
      simpl in Hbody. injection Hbody as <-.
      pose proof (findShortestPathHelper_frame g j x y' log Hh) as Hframe.
      split.
      + intros r Hr. destruct (decide (r = j)) as [->|Hne].
        * eapply findShortestPathHelper_rowDone; [done| |exact Hh].
          apply Hf. lia.
        * destruct (Hd r) as (k & rank & Hk & Hinv); [lia|].
          exists k, rank. split; [done|].
          eapply runInv_ext; [|exact Hinv]. intros c. by apply Hframe.
      + intros r Hr c e He. rewrite Hframe in He by lia.
        assert (j ≤ r) as Hjr by lia. exact (Hf r Hjr c e He). }
  apply Hdone. lia.
Qed.

(** ** Paths read off the table *)

Lemma printPath_mono t s :
  ∀ f d p, printPath f t s d = Some p →
           ∀ f', (f ≤ f')%nat → printPath f' t s d = Some p.
Proof.
  induction f as [|f IH]; intros d p Hrun f' Hle; [done|].
  destruct f' as [|f']; [lia|]. simpl in *.
  destruct (getT t s d) as [e|]; [|done]. simpl in *.
  destruct (0 <? path e); [|done].
  destruct (negb (s =? d)); [|done].
  destruct (printPath f t s (path e)) as [q|] eqn:Hq; [|done].
  rewrite (IH _ _ Hq f') by lia. done.
Qed.

Lemma printPath_step f t s d e :
  getT t s d = Some e →
  printPath (Datatypes.S f) t s d =
    if 0 <? path e then
      if negb (s =? d) then p ← printPath f t s (path e); Some (p ++ [d])
      else Some [d]
    else Some [].
Proof. intros He. simpl. by rewrite He. Qed.

Lemma runInv_source_range g s t k rank :
  runInv g s t k rank → 1 ≤ s ≤ size g.
Proof.
  intros [H1 H2 _ _ _]. destruct H1 as (e & He & Hd & Hp).
  destruct (H2 s e He) as (_ & Hiff & Hr).
  assert (path e ≠ 0) by (apply Hiff; rewrite Hd; unfold INT_MAX; lia).
  destruct Hr; [done|lia].
Qed.

(** From a finalised vertex the recursion of [printPath] ends after at most
    [rank v + 1] calls and prints a chain of edges of weight [dist]. *)
Lemma printPath_settled g s t k rank :
  runInv g s t k rank →
  ∀ r v e, getT t s v = Some e →
           v = s ∨ (visited e = true ∧ (rank v ≤ r)%nat) →
           ∃ p, printPath (Datatypes.S r) t s v = Some (p ++ [v]) ∧
                chain g s (p ++ [v]) (dist e).
Proof.
  intros Hinv. pose proof (runInv_source_range _ _ _ _ _ Hinv) as Hs.
  destruct Hinv as [H1 H2 H3 H4 H5].
  induction r as [|r IH]; intros v e He Hcase.
  - assert (v = s) as ->.
    { destruct Hcase as [|[Hvis Hr]]; [done|].
      destruct (decide (v = s)) as [|Hne]; [done|exfalso].
      destruct (H3 v e He Hvis) as (_ & Hfin & _).
      destruct (H2 v e He) as (_ & Hiff & _).
      destruct (H4 v e He Hne) as (eu & w & _ & _ & _ & _ & Hrank); [by apply Hiff|].
      specialize (Hrank Hvis). lia. }
    destruct H1 as (es & Hes & Hd & Hp).
    assert (e = es) as -> by congruence.
    exists []. rewrite (printPath_step _ t s s es Hes), Hp.
    destruct (Z.ltb_spec 0 s); [|lia]. rewrite Z.eqb_refl. cbn [negb].
    split; [done|]. rewrite Hd. constructor.
  - destruct (decide (v = s)) as [->|Hne].
    + destruct (IH s e He) as (p & Hp & Hc); [by left|].
      exists p. split; [|done]. eapply printPath_mono; [exact Hp|lia].
    + destruct Hcase as [|[Hvis Hr]]; [done|].
      destruct (H3 v e He Hvis) as (_ & Hfin & _).
      destruct (H2 v e He) as (_ & Hiff & Hrange).
      assert (path e ≠ 0) as Hp by (by apply Hiff).
      destruct (H4 v e He Hne Hp) as (eu & w & Hu & Huvis & Hedge & Hdist & Hrank).
      specialize (Hrank Hvis).
      destruct (IH (path e) eu Hu) as (q & Hq & Hc).
      { right. split; [done|lia]. }
      exists (q ++ [path e]).
      rewrite (printPath_step _ t s v e He).
      destruct (Z.ltb_spec 0 (path e)); [|lia].
      destruct (Z.eqb_spec s v); [congruence|]. cbn [negb].
      rewrite Hq. split; [done|].
      rewrite <- app_assoc. simpl. rewrite Hdist. by eapply chain_step.
Qed.

(** With [size] calls allowed, [printPath] prints, for every entry of finite
    distance, a chain of edges from the source whose weight is that distance. *)
Lemma printPath_finite g s t d e :
  rowDone g t s → getT t s d = Some e → dist e < INT_MAX →
  ∃ p, printPath (Z.to_nat (size g)) t s d = Some (p ++ [d]) ∧
       chain g s (p ++ [d]) (dist e).
Proof.
  intros (k & rank & Hk & Hinv) He Hfin.
  pose proof (runInv_source_range _ _ _ _ _ Hinv) as Hs.
  destruct (decide (d = s)) as [->|Hne].
  - destruct (printPath_settled g s t k rank Hinv 0 s e He) as (p & Hp & Hc);
      [by left|].
    exists p. split; [|done]. eapply printPath_mono; [exact Hp|lia].
  - pose proof Hinv as [H1 H2 H3 H4 H5].
    destruct (H2 d e He) as (_ & Hiff & Hrange).
    assert (path e ≠ 0) as Hp by (by apply Hiff).
    destruct (H4 d e He Hne Hp) as (eu & w & Hu & Huvis & Hedge & Hdist & _).
    destruct (H3 _ eu Hu Huvis) as (_ & _ & Hrank).
    destruct (printPath_settled g s t k rank Hinv (k - 1) (path e) eu Hu)
      as (q & Hq & Hc).
    { right. split; [done|lia]. }
    exists (q ++ [path e]). split.
    + apply (printPath_mono t s (Datatypes.S (Datatypes.S (k - 1)))); [|lia].
      rewrite (printPath_step _ t s d e He).
      destruct (Z.ltb_spec 0 (path e)); [|lia].
      destruct (Z.eqb_spec s d); [congruence|]. cbn [negb].
      rewrite Hq. done.
    + rewrite <- app_assoc. simpl. rewrite Hdist. by eapply chain_step.
Qed.

(** C1: after [findShortestPath], for a source [s] of [1..size] and an
    entry [d] of finite distance ([s <> d] or not), [printPath] prints a
    sequence that starts at [s], ends at [d] and follows edges of the
    graph whose weights add up to exactly [T[s][d].dist]. *)
Theorem printPath_weight_is_dist g g' s d e :
  findShortestPath g = Some g' →
  1 ≤ s ≤ size g →
  getT (T g') s d = Some e → dist e < INT_MAX →
  ∃ p, (∀ fuel, (Z.to_nat (size g) ≤ fuel)%nat →
                printPath fuel (T g') s d = Some p) ∧
       chain g s p (dist e) ∧ last p = Some d.
Proof.
  intros Hrun Hs He Hfin.
  destruct (findShortestPath_rows g g' Hrun) as (_ & _ & Hrows).
  destruct (printPath_finite g s (T g') d e (Hrows s Hs) He Hfin) as (p & Hp & Hc).
  exists (p ++ [d]). split; [|split; [done|]].
  - intros fuel Hfuel. by eapply printPath_mono.
  - by rewrite last_snoc.
Qed.

Lemma printPath_weight_is_dist_witness :
  ∃ g' p,
    findShortestPath scenarioGraph = Some g' ∧
    (∀ fuel, (3 ≤ fuel)%nat → printPath fuel (T g') 1 3 = Some p) ∧
    chain scenarioGraph 1 p 7 ∧ last p = Some 3.
Proof.
  destruct (findShortestPath scenarioGraph) as [g'|] eqn:Hrun;
    [|by vm_compute in Hrun].
  pose proof Hrun as Hval. vm_compute in Hval. injection Hval as <-.
  destruct (printPath_weight_is_dist scenarioGraph _ 1 3 (mkTable false 7 2) Hrun)
    as (p & Hp & Hc & Hl).
  - simpl. lia.
  - vm_compute. reflexivity.
  - vm_compute. reflexivity.
  - eexists _, p. split; [reflexivity|]. split; [exact Hp|]. split; [exact Hc|exact Hl].
Defined.

(** ** Walking the predecessor links *)

Lemma walkBack_here n t s : walkBack n t s s = Some [s].
Proof. destruct n; simpl; by rewrite Z.eqb_refl. Qed.

Lemma walkBack_step n t s d e :
  d ≠ s → getT t s d = Some e → 0 < path e →
  walkBack (Datatypes.S n) t s d =
    (l ← walkBack n t s (path e); Some (d :: l)).
Proof.
  intros Hne He Hp. simpl. destruct (Z.eqb_spec d s); [done|].
  rewrite He. simpl. by destruct (Z.ltb_spec 0 (path e)); [|lia].
Qed.

Lemma walkBack_mono t s :
  ∀ n d l, walkBack n t s d = Some l →
           ∀ n', (n ≤ n')%nat → walkBack n' t s d = Some l.
Proof.
  induction n as [|n IH]; intros d l Hrun n' Hle.
  - simpl in Hrun. destruct (Z.eqb_spec d s) as [->|]; [|done].
    injection Hrun as <-. apply walkBack_here.
  - destruct n' as [|n']; [lia|]. simpl in *.
    destruct (d =? s); [done|].
    destruct (getT t s d) as [e|]; [|done]. simpl in *.
    destruct (0 <? path e); [|done].
    destruct (walkBack n t s (path e)) as [l0|] eqn:Hl0; [|done].
    rewrite (IH _ _ Hl0 n') by lia. done.
Qed.

(** From a finalised vertex of rank [r] the walk meets the source within
    [r] steps, and the distances met never increase. *)
Lemma walkBack_settled g s t k rank :
  runInv g s t k rank → nonNegativeWeights g →
  ∀ r v e, getT t s v = Some e →
           v = s ∨ (visited e = true ∧ (rank v ≤ r)%nat) →
           ∃ l, walkBack r t s v = Some (v :: l) ∧
                last (v :: l) = Some s ∧
                distsDescend t s (v :: l) ∧ (length l ≤ r)%nat.
Proof.
  intros Hinv Hnn. pose proof (runInv_source_range _ _ _ _ _ Hinv) as Hs.
  destruct Hinv as [H1 H2 H3 H4 H5].
  assert (∀ r e, getT t s s = Some e →
            ∃ l, walkBack r t s s = Some (s :: l) ∧ last (s :: l) = Some s ∧
                 distsDescend t s (s :: l) ∧ (length l ≤ r)%nat) as Hsrc.
  { intros r e He. exists []. rewrite walkBack_here.
    repeat split; [constructor|simpl; lia]. }
  assert (∀ v e, getT t s v = Some e → v ≠ s → visited e = true →
            ∃ eu, 0 < path e ∧ getT t s (path e) = Some eu ∧ visited eu = true ∧
                    dist eu ≤ dist e ∧ (rank (path e) < rank v)%nat) as Hpred.
  { intros v e He Hne Hvis.
    destruct (H3 v e He Hvis) as (_ & Hfin & _).
    destruct (H2 v e He) as (_ & Hiff & Hrange).
    assert (path e ≠ 0) as Hp by (by apply Hiff).
    destruct (H4 v e He Hne Hp) as (eu & w & Hu & Huvis & Hedge & Hdist & Hrank).
    exists eu. pose proof (Hnn _ _ _ Hedge).
    repeat split; try done; try lia. by apply Hrank. }
  induction r as [|r IH]; intros v e He Hcase.
  - destruct (decide (v = s)) as [->|Hne]; [by eapply Hsrc|].
    destruct Hcase as [|[Hvis Hr]]; [done|].
    destruct (Hpred v e He Hne Hvis) as (? & ? & ? & ? & ? & ?). lia.
  - destruct (decide (v = s)) as [->|Hne]; [by eapply Hsrc|].
    destruct Hcase as [|[Hvis Hr]]; [done|].
    destruct (Hpred v e He Hne Hvis) as (eu & Hp & Hu & Huvis & Hle & Hrank).
    destruct (IH (path e) eu Hu) as (l & Hl & Hlast & Hdesc & Hlen).
    { right. split; [done|lia]. }
    exists (path e :: l). rewrite (walkBack_step r t s v e Hne He Hp), Hl.
    split; [done|]. split; [done|]. split; [by econstructor|simpl; lia].
Qed.

Lemma walkBack_finite g s t d e :
  rowDone g t s → nonNegativeWeights g →
  getT t s d = Some e → dist e < INT_MAX →
  ∃ l, walkBack (Z.to_nat (size g - 1)) t s d = Some (d :: l) ∧
       last (d :: l) = Some s ∧ distsDescend t s (d :: l) ∧
       Z.of_nat (length l) ≤ size g - 1.
Proof.
  intros (k & rank & Hk & Hinv) Hnn He Hfin.
  pose proof (runInv_source_range _ _ _ _ _ Hinv) as Hs.
  destruct (decide (d = s)) as [->|Hne].
  - destruct (walkBack_settled g s t k rank Hinv Hnn 0 s e He)
      as (l & Hl & Hlast & Hdesc & Hlen); [by left|].
    exists l. split; [|split; [done|split; [done|lia]]].
    eapply walkBack_mono; [exact Hl|lia].
  - pose proof Hinv as [H1 H2 H3 H4 H5].
    destruct (H2 d e He) as (_ & Hiff & Hrange).
    assert (path e ≠ 0) as Hp by (by apply Hiff).
    destruct (H4 d e He Hne Hp) as (eu & w & Hu & Huvis & Hedge & Hdist & _).
    destruct (H3 _ eu Hu Huvis) as (_ & _ & Hrank).
    pose proof (Hnn _ _ _ Hedge) as Hw.
    destruct (walkBack_settled g s t k rank Hinv Hnn (k - 1) (path e) eu Hu)
      as (l & Hl & Hlast & Hdesc & Hlen).
    { right. split; [done|lia]. }
    exists (path e :: l). split; [|split; [done|split]].
    + apply (walkBack_mono t s (Datatypes.S (k - 1))); [|lia].
      rewrite (walkBack_step _ t s d e Hne He) by lia. by rewrite Hl.
    + econstructor; [exact He|exact Hu|lia|exact Hdesc].
    + simpl. lia.
Qed.

(** C4: after [findShortestPath] on a graph whose weights are all
    non-negative, for a source [s] of [1..size] and an entry [d] of finite
    distance, following the [path] links from [d] meets [s] within
    [size - 1] steps, and the distances from [s] of the vertices met never
    increase on the way back. *)
Theorem walkBack_reaches_source g g' s d e :
  findShortestPath g = Some g' →
  nonNegativeWeights g →
  1 ≤ s ≤ size g →
  getT (T g') s d = Some e → dist e < INT_MAX →
  ∃ l, walkBack (Z.to_nat (size g - 1)) (T g') s d = Some (d :: l) ∧
       last (d :: l) = Some s ∧
       Z.of_nat (length l) ≤ size g - 1 ∧
       distsDescend (T g') s (d :: l).
Proof.
  intros Hrun Hnn Hs He Hfin.
  destruct (findShortestPath_rows g g' Hrun) as (_ & _ & Hrows).
  destruct (walkBack_finite g s (T g') d e (Hrows s Hs) Hnn He Hfin)
    as (l & Hl & Hlast & Hdesc & Hlen).
  exists l. done.
Qed.

Lemma nonNegativeWeightsb_sound g :
  nonNegativeWeightsb g = true → nonNegativeWeights g.
Proof.
  unfold nonNegativeWeightsb. intros Hall u v w (vn & Hvn & Hin).
  apply lookupZ_Some in Hvn as [_ Hvn].
  rewrite forallb_forall in Hall.
  apply list_elem_of_lookup_2, list_elem_of_In in Hvn.
  specialize (Hall vn Hvn). rewrite forallb_forall in Hall.
  apply list_elem_of_In in Hin. specialize (Hall _ Hin). simpl in Hall. lia.
Qed.

Lemma walkBack_reaches_source_witness :
  ∃ g' l,
    findShortestPath scenarioGraph = Some g' ∧
    walkBack 2 (T g') 1 3 = Some (3 :: l) ∧
    last (3 :: l) = Some 1 ∧
    Z.of_nat (length l) ≤ 2 ∧
    distsDescend (T g') 1 (3 :: l).
Proof.
  destruct (findShortestPath scenarioGraph) as [g'|] eqn:Hrun;
    [|by vm_compute in Hrun].
  pose proof Hrun as Hval. vm_compute in Hval. injection Hval as <-.
  destruct (walkBack_reaches_source scenarioGraph _ 1 3 (mkTable false 7 2) Hrun)
    as (l & Hl & Hlast & Hlen & Hdesc).
  - apply nonNegativeWeightsb_sound. vm_compute. reflexivity.
  - simpl. lia.
  - vm_compute. reflexivity.
  - vm_compute. reflexivity.
  - eexists _, l. split; [reflexivity|].
    split; [exact Hl|]. split; [exact Hlast|]. split; [exact Hlen|exact Hdesc].
Defined.

(** ** Trivial and unreachable pairs *)

Lemma printPath_no_path f t s d e :
  getT t s d = Some e → path e = 0 →
  printPath (Datatypes.S f) t s d = Some [].
Proof. intros He Hp. by rewrite (printPath_step f t s d e He), Hp. Qed.

Lemma printPath_source g s t f :
  rowDone g t s → printPath (Datatypes.S f) t s s = Some [s].
Proof.
  intros (k & rank & _ & Hinv).
  pose proof (runInv_source_range _ _ _ _ _ Hinv) as Hs.
  destruct (inv_source _ _ _ _ _ Hinv) as (e & He & _ & Hp).
  rewrite (printPath_step f t s s e He), Hp.
  destruct (Z.ltb_spec 0 s); [|lia]. by rewrite Z.eqb_refl.
Qed.

(** C5 as the code has it: after [findShortestPath], for every vertex [v]
    of [1..size], [T[v][v].dist] is 0 and [printPath(v, v)] prints the one
    vertex [v]; for every [d] that no chain of edges joins to [v] the
    distance is [INT_MAX] and [printPath(v, d)] prints nothing. *)
Theorem printPath_trivial_and_unreachable g g' v :
  findShortestPath g = Some g' →
  1 ≤ v ≤ size g →
  (∃ e, getT (T g') v v = Some e ∧ dist e = 0) ∧
  (∀ fuel, (0 < fuel)%nat → printPath fuel (T g') v v = Some [v]) ∧
  (∀ d e, getT (T g') v d = Some e → ¬ reachable g v d →
          dist e = INT_MAX ∧
          ∀ fuel, (0 < fuel)%nat → printPath fuel (T g') v d = Some []).
Proof.
  intros Hrun Hv.
  destruct (findShortestPath_rows g g' Hrun) as (_ & _ & Hrows).
  specialize (Hrows v Hv). split; [|split].
  - destruct Hrows as (k & rank & _ & Hinv).
    destruct (inv_source _ _ _ _ _ Hinv) as (e & He & Hd & _). eauto.
  - intros [|f] Hf; [lia|]. by eapply printPath_source.
  - intros d e He Hunreach.
    assert (¬ dist e < INT_MAX) as Hinf.
    { intros Hfin.
      destruct (printPath_finite g v (T g') d e Hrows He Hfin) as (p & _ & Hc).
      apply Hunreach. exists (p ++ [d]), (dist e). split; [done|].
      by rewrite last_snoc. }
    destruct Hrows as (k & rank & _ & Hinv).
    destruct (inv_bound _ _ _ _ _ Hinv d e He) as (Hmax & Hiff & _).
    split; [lia|]. intros [|f] Hf; [lia|].
    apply (printPath_no_path f _ v d e He).
    destruct (decide (path e = 0)) as [|Hp]; [done|]. apply Hiff in Hp. lia.
Qed.

(** Vertex 3 of the scenario has no outgoing edge: a chain from 3 stays there. *)
Lemma scenario_chain_from_3 p c : chain scenarioGraph 3 p c → p = [3].
Proof.
  induction 1 as [|p u v c w _ IH Hedge]; [done|].
  apply app_singleton in IH as [[-> [= ->]]|[_ [=]]].
  destruct Hedge as (vn & Hvn & Hin). vm_compute in Hvn.
  injection Hvn as <-. by apply elem_of_nil in Hin.
Qed.

Lemma printPath_trivial_and_unreachable_witness :
  ∃ g', findShortestPath scenarioGraph = Some g' ∧
        (∃ e, getT (T g') 3 3 = Some e ∧ dist e = 0) ∧
        printPath 1 (T g') 3 3 = Some [3] ∧
        printPath 1 (T g') 3 1 = Some [].
Proof.
  destruct (findShortestPath scenarioGraph) as [g'|] eqn:Hrun;
    [|by vm_compute in Hrun].
  pose proof Hrun as Hval. vm_compute in Hval. injection Hval as <-.
  destruct (printPath_trivial_and_unreachable scenarioGraph _ 3 Hrun)
    as (Hd & Hp & Hun); [simpl; lia|].
  eexists. split; [reflexivity|]. split; [exact Hd|]. split; [apply Hp; lia|].
  apply (Hun 1 (mkTable false INT_MAX 0)); [vm_compute; reflexivity| |lia].
  intros (p & c & Hc & Hl). apply scenario_chain_from_3 in Hc. by subst p.
Defined.

(** C5 as stated fails: in the scenario of the specification
    [printPath(1, 1)] prints vertex 1. *)
Lemma printPath_same_vertex_not_empty :
  ¬ (∀ g g' v fuel,
       findShortestPath g = Some g' → 1 ≤ v ≤ size g → (0 < fuel)%nat →
       printPath fuel (T g') v v = Some []).
Proof.
  intros H.
  destruct (findShortestPath scenarioGraph) as [g'|] eqn:Hrun;
    [|by vm_compute in Hrun].
  assert (printPath 1 (T g') 1 1 = Some []) as Hempty.
  { apply (H scenarioGraph g' 1 1%nat Hrun); [simpl; lia|lia]. }
  assert (printPath 1 (T g') 1 1 = Some [1]) as Hone.
  { by apply (printPath_source scenarioGraph), (findShortestPath_rows _ _ Hrun). }
  congruence.
Qed.

(** ** The computation is defined on well-formed graphs *)

Lemma setT_shape t r c e t' :
  tableShape t → setT t r c e = Some t' → tableShape t'.
Proof.
  intros Hshape Hset r' c' Hr Hc.
  destruct (decide (r' = r ∧ c' = c)) as [[-> ->]|Hne].
  - rewrite (getT_setT_eq _ _ _ _ _ Hset). eauto.
  - rewrite (getT_setT_ne _ _ _ _ _ r' c' Hset); [by apply Hshape|].
    destruct (decide (r' = r)); [right; intros ->; tauto|by left].
Qed.

Lemma initTable_shape : tableShape initTable.
Proof.
  intros r c Hr Hc. unfold getT, initTable.
  destruct (lookupZ_in_range
              (replicate (Z.to_nat MAX_VERTICES)
                 (replicate (Z.to_nat MAX_VERTICES) (mkTable false INT_MAX 0))) r)
    as [row Hrow].
  { rewrite length_replicate. lia. }
  rewrite Hrow. simpl.
  apply lookupZ_Some in Hrow as [_ Hrow]. apply lookup_replicate in Hrow as [-> _].
  apply lookupZ_in_range. rewrite length_replicate. lia.
Qed.

Lemma lowestWeightVertex_total g t s :
  tableShape t → 0 ≤ s < MAX_VERTICES → size g < MAX_VERTICES →
  is_Some (lowestWeightVertex g t s).
Proof.
  intros Hshape Hs Hsize. unfold lowestWeightVertex.
  destruct (Z.le_gt_cases 1 (size g + 1)).
  - destruct (forRange_total (λ _ _, True) (lowestStep t s) 1 (size g) (INT_MAX, 0))
      as (st & -> & _); [done|done| |by eexists].
    intros j x Hj _. unfold lowestStep.
    destruct (Hshape s j) as [e ->]; [done|lia|]. simpl.
    destruct (negb (visited e) && (dist e <? x.1)); eauto.
  - rewrite forRange_empty by lia. by eexists.
Qed.

Lemma relaxEdge_total s u t current eu B W :
  tableShape t → 0 ≤ s < MAX_VERTICES →
  0 ≤ adjVertex current < MAX_VERTICES → 0 ≤ weight current ≤ W →
  getT t s u = Some eu → visited eu = true → 0 ≤ dist eu ≤ B →
  B + W ≤ INT_MAX →
  distBound t s (B + W) →
  ∃ t', relaxEdge s u t current = Some t' ∧
        tableShape t' ∧ distBound t' s (B + W) ∧ getT t' s u = Some eu.
Proof.
  intros Hshape Hs Hadj Hw Hu Hvis Hdu Hsum Hbound. unfold relaxEdge.
  destruct (Hshape s (adjVertex current)) as [ew Hew]; [done..|].
  rewrite Hew. simpl. destruct (visited ew) eqn:Hwvis; [by exists t|].
  rewrite Hu. simpl.
  assert (addInt (dist eu) (weight current) = Some (dist eu + weight current))
    as ->.
  { apply addInt_Some. split; [done|]. unfold INT_MIN, INT_MAX in *. lia. }
  simpl. destruct (Z.ltb_spec (dist eu + weight current) (dist ew)); [|by exists t].
  destruct (setT_total t s (adjVertex current)
              (mkTable (visited ew) (dist eu + weight current) u)) as [t' Hset];
    [eauto|].
  rewrite Hwvis in Hset.
  exists t'. split; [done|]. split; [by eapply setT_shape|]. split.
  - intros v e He. destruct (decide (v = adjVertex current)) as [->|Hne].
    + rewrite (getT_setT_eq _ _ _ _ _ Hset) in He. injection He as <-. simpl.
      right. lia.
    + rewrite (getT_setT_ne _ _ _ _ _ s v Hset) in He by auto. by eapply Hbound.
  - rewrite (getT_setT_ne _ _ _ _ _ s u Hset); [done|]. right. intros ->. congruence.
Qed.

Lemma relaxEdges_total s u eu B W l :
  0 ≤ s < MAX_VERTICES →
  Forall (λ c, 0 ≤ adjVertex c < MAX_VERTICES ∧ 0 ≤ weight c ≤ W) l →
  visited eu = true → 0 ≤ dist eu ≤ B → B + W ≤ INT_MAX →
  ∀ t, tableShape t → getT t s u = Some eu → distBound t s (B + W) →
       ∃ t', relaxEdges s u t l = Some t' ∧
             tableShape t' ∧ distBound t' s (B + W).
Proof.
  intros Hs Hl Hvis Hdu Hsum. induction Hl as [|c l [Hadj Hw] Hl IH];
    intros t Hshape Hu Hbound; simpl.
  - by exists t.
  - destruct (relaxEdge_total s u t c eu B W) as (t1 & -> & Hshape1 & Hbound1 & Hu1);
      try done.
    simpl. by apply IH.
Qed.

Lemma visitVertex_total W g s t v k :
  wellFormed W g → 0 ≤ s < MAX_VERTICES →
  tableShape t → distBound t s (Z.of_nat k * W) →
  Z.of_nat (Datatypes.S k) * W ≤ INT_MAX →
  selected g t s v →
  ∃ t', visitVertex g s v t = Some t' ∧
        tableShape t' ∧ distBound t' s (Z.of_nat (Datatypes.S k) * W).
Proof.
  intros (Hsize & Hlen & HW & _ & Hedges) Hs Hshape Hbound Hsum
    (ev & (Hv & Hev & Hunv & Hfin) & _).
  unfold visitVertex. rewrite Hev. simpl.
  destruct (setT_total t s v (mkTable true (dist ev) (path ev))) as [t1 Hset];
    [eauto|].
  rewrite Hset. simpl.
  destruct (lookupZ_in_range (vertices g) v) as [vn Hvn]; [lia|].
  rewrite Hvn. simpl.
  assert (0 ≤ dist ev ≤ Z.of_nat k * W) as Hdv.
  { destruct (Hbound v ev Hev); [lia|done]. }
  replace (Z.of_nat (Datatypes.S k) * W) with (Z.of_nat k * W + W) in * by lia.
  eapply (relaxEdges_total s v (mkTable true (dist ev) (path ev))); try done.
  - apply Forall_forall. intros [a w] Hin. simpl. apply (Hedges v a w).
    by exists vn.
  - by eapply setT_shape.
  - by eapply getT_setT_eq.
  - intros x e He. destruct (decide (x = v)) as [->|Hne].
    + rewrite (getT_setT_eq _ _ _ _ _ Hset) in He. injection He as <-. simpl.
      right. lia.
    + rewrite (getT_setT_ne _ _ _ _ _ s x Hset) in He by auto.
      destruct (Hbound x e He); [by left|right; lia].
Qed.

Lemma helperLoop_total W g s :
  wellFormed W g → 0 ≤ s < MAX_VERTICES →
  ∀ n t k,
    tableShape t → distBound t s (Z.of_nat k * W) →
    Z.of_nat (k + n) * W ≤ INT_MAX →
    ∃ r, helperLoop n g s t = Some r ∧ tableShape r.1.
Proof.
  intros Hwf Hs. induction n as [|n IH]; intros t k Hshape Hbound Hsum.
  - by exists (t, []).
  - simpl.
    destruct (lowestWeightVertex_total g t s Hshape Hs) as [v Hlow];
      [by destruct Hwf as ((_ & ?) & _)|].
    rewrite Hlow. simpl.
    destruct (lowestWeightVertex_spec g t s v Hlow) as [Hpos _].
    destruct (Z.ltb_spec 0 v) as [Hv|Hv]; [|by exists (t, [])].
    assert (0 ≤ W) as HW by (by destruct Hwf as (_ & _ & ? & _)).
    destruct (visitVertex_total W g s t v k Hwf Hs Hshape Hbound)
      as (t1 & -> & Hshape1 & Hbound1); [nia|by apply Hpos|].
    simpl.
    destruct (IH t1 (Datatypes.S k) Hshape1 Hbound1) as ([t2 log] & -> & Hshape2).
    { replace (Datatypes.S k + n)%nat with (k + Datatypes.S n)%nat by lia. done. }
    simpl. by eexists.
Qed.

Lemma findShortestPathHelper_total W g s t :
  wellFormed W g → 1 ≤ s ≤ size g →
  tableShape t → freshRow t s →
  ∃ r, findShortestPathHelper g s t = Some r ∧ tableShape r.1.
Proof.
  intros Hwf Hs Hshape Hfresh.
  pose proof Hwf as (Hsize & Hlen & HW & Hsum & Hedges).
  unfold findShortestPathHelper.
  destruct (Hshape s s) as [e He]; [lia..|]. rewrite He. simpl.
  destruct (setT_total t s s (mkTable (visited e) 0 s)) as [t0 Hset]; [eauto|].
  rewrite Hset. simpl.
  apply (helperLoop_total W g s Hwf) with (k := 0%nat); [lia| | |].
  - by eapply setT_shape.
  - intros v ev Hev. destruct (decide (v = s)) as [->|Hne].
    + rewrite (getT_setT_eq _ _ _ _ _ Hset) in Hev. injection Hev as <-.
      right. simpl. lia.
    + rewrite (getT_setT_ne _ _ _ _ _ s v Hset) in Hev by auto.
      left. by rewrite (Hfresh v ev Hev).
  - simpl. nia.
Qed.

(** On a well-formed graph [findShortestPath] runs to its end: no subscript
    leaves an array and no addition overflows. *)
Lemma findShortestPath_defined W g :
  wellFormed W g → is_Some (findShortestPath g).
Proof.
  intros Hwf. pose proof Hwf as (Hsize & _).
  unfold findShortestPath.
  destruct (forRange_total
              (λ j t, tableShape t ∧ ∀ r, j ≤ r → freshRow t r)
              (λ i t, r ← findShortestPathHelper g i t; Some r.1)
              1 (size g) initTable) as (t & -> & _); [lia| | |by eexists].
  - split; [apply initTable_shape|]. intros r _ c e. apply getT_initTable.
  - intros j x Hj [Hshape Hfresh].
    destruct (findShortestPathHelper_total W g j x Hwf Hj Hshape)
      as ([y log] & Hrun & Hshape'); [apply Hfresh; lia|].
    rewrite Hrun. simpl. eexists. split; [done|]. split; [done|].
    intros r Hr c e He.
    rewrite (findShortestPathHelper_frame g j x y log Hrun) in He by lia.
    assert (j ≤ r) as Hjr by lia. exact (Hfresh r Hjr c e He).
Qed.

(** ** Weights stay non-negative *)

Lemma insertWalk_elem e rest d w :
  ∀ current, e ∈ insertWalk current rest d w →
             e ∈ current :: rest ∨ weight e = w.
Proof.
  induction rest as [|next rest IH]; intros current Hin; simpl in Hin.
  - apply elem_of_cons in Hin as [->|Hin]; [left; by left|].
    apply list_elem_of_singleton in Hin as ->. by right.
  - destruct (adjVertex current =? d).
    + apply elem_of_cons in Hin as [->|Hin]; [by right|]. left. by right.
    + apply elem_of_cons in Hin as [->|Hin]; [left; by left|].
      destruct (IH next Hin) as [?|?]; [left; by right|by right].
Qed.

Lemma removeWalk_elem e d :
  ∀ l l', removeWalk l d = Some l' → e ∈ l' → e ∈ l.
Proof.
  induction l as [|c l IH]; intros l' Hrun Hin; simpl in Hrun; [done|].
  destruct (adjVertex c =? d).
  - injection Hrun as <-. by right.
  - destruct (removeWalk l d) as [l0|]; [|done]. simpl in Hrun.
    injection Hrun as <-.
    apply elem_of_cons in Hin as [->|Hin]; [by left|]. right. by eapply IH.
Qed.

(** Whatever [insertEdge] is asked to store, every weight in the graph
    stays non-negative. *)
Lemma insertEdge_keeps_nonNegative g src dst w b g' :
  nonNegativeWeights g → insertEdge g src dst w = Some (b, g') →
  nonNegativeWeights g'.
Proof.
  intros Hnn Hrun. unfold insertEdge in Hrun.
  destruct (Z.ltb_spec w 0) as [Hw|Hw]; [by injection Hrun as <- <-|].
  destruct (lookupZ (vertices g) src) as [v|] eqn:Hv; [|done]. simpl in Hrun.
  rewrite storeZ_total in Hrun by eauto. simpl in Hrun. injection Hrun as <- <-.
  intros u x y (vn & Hvn & Hin). simpl in Hvn.
  destruct (decide (u = src)) as [->|Hne].
  - rewrite lookupZ_insert_eq in Hvn by eauto. injection Hvn as <-.
    simpl in Hin. destruct (edgeHead v) as [|current rest] eqn:Hl.
    + apply list_elem_of_singleton in Hin. injection Hin as -> ->. done.
    + destruct (insertWalk_elem _ _ _ _ _ Hin) as [Hold|Hnew]; [|simpl in Hnew; lia].
      apply (Hnn src x y). exists v. by rewrite Hl.
  - rewrite lookupZ_insert_ne in Hvn by eauto. apply (Hnn u x y). by exists vn.
Qed.

Lemma removeEdge_keeps_nonNegative g src dst b g' :
  nonNegativeWeights g → removeEdge g src dst = Some (b, g') →
  nonNegativeWeights g'.
Proof.
  intros Hnn Hrun.
  destruct (lookupZ (vertices g) src) as [v|] eqn:Hv;
    [|by unfold removeEdge in Hrun; rewrite Hv in Hrun].
  rewrite (removeEdge_unfold g src dst v Hv) in Hrun.
  destruct (removeWalk (edgeHead v) dst) as [l'|] eqn:Hw; injection Hrun as <- <-;
    [|done].
  intros u x y (vn & Hvn & Hin). simpl in Hvn.
  destruct (decide (u = src)) as [->|Hne].
  - rewrite lookupZ_insert_eq in Hvn by eauto. injection Hvn as <-.
    simpl in Hin. apply (Hnn src x y). exists v. split; [done|].
    by eapply removeWalk_elem.
  - rewrite lookupZ_insert_ne in Hvn by eauto. apply (Hnn u x y). by exists vn.
Qed.

Lemma newGraph_nonNegative T0 : nonNegativeWeights (newGraph T0).
Proof.
  intros u x y (vn & [_ Hvn]%lookupZ_Some & Hin).
  apply lookup_replicate in Hvn as [-> _]. by apply elem_of_nil in Hin.
Qed.

Lemma wellFormed_nonNegative W g : wellFormed W g → nonNegativeWeights g.
Proof. intros (_ & _ & _ & _ & Hedges) u v w He. by destruct (Hedges u v w He) as [_ [? _]]. Qed.

(** The scenario of the specification is well-formed, so the computation
    on it is defined. *)
Lemma scenarioGraph_wellFormed : wellFormed 10 scenarioGraph.
Proof.
  split; [simpl; unfold MAX_VERTICES; lia|]. split; [simpl; lia|].
  split; [lia|]. split; [simpl; unfold INT_MAX; lia|].
  intros u v w (vn & [Hu Hvn]%lookupZ_Some & Hin).
  unfold scenarioGraph in Hvn. cbn [vertices] in Hvn.
  destruct (decide (Z.to_nat u < 4)%nat) as [Hlt|Hge].
  - rewrite lookup_app_l in Hvn by (simpl; lia).
    destruct (Z.to_nat u) as [|[|[|[|n]]]]; simpl in Hvn; [..|simpl in Hlt; lia];
      injection Hvn as <-; simpl in Hin;
      repeat match goal with
             | H : _ ∈ _ :: _ |- _ => apply elem_of_cons in H as [H|H]
             | H : _ ∈ [] |- _ => by apply elem_of_nil in H
             | H : mkEdgeNode _ _ = mkEdgeNode _ _ |- _ => injection H as -> ->
             end; unfold MAX_VERTICES; lia.
  - rewrite lookup_app_r in Hvn by (simpl; lia).
    apply lookup_replicate in Hvn as [-> _]. by apply elem_of_nil in Hin.
Qed.

(** * Shortest distances *)

(** ** The invariant that makes the distances shortest *)

Lemma optInv_weaken g s t vis (E E' : Z → Z → Z → Prop) :
  (∀ u x w, E' u x w → E u x w) → optInv g s t vis E → optInv g s t vis E'.
Proof.
  intros Hsub [H1 H2 H3 H4 H5 H6]. split; try done.
  intros u eu x w ex Hu Hvis HE Hx. eapply H5; eauto.
Qed.

Lemma optInv_init g s t e t0 E :
  freshRow t s → getT t s s = Some e →
  setT t s s (mkTable (visited e) 0 s) = Some t0 →
  optInv g s t0 [] E.
Proof.
  intros Hfresh He Hset.
  pose proof (Hfresh s e He) as ->. simpl in Hset.
  assert (∀ v ev, getT t0 s v = Some ev →
            visited ev = false ∧ (dist ev = 0 ∨ dist ev = INT_MAX)) as Hall.
  { intros v ev Hev. destruct (decide (v = s)) as [->|Hne].
    - rewrite (getT_setT_eq _ _ _ _ _ Hset) in Hev. injection Hev as <-. auto.
    - rewrite (getT_setT_ne _ _ _ _ _ s v Hset) in Hev by auto.
      rewrite (Hfresh v ev Hev). auto. }
  split.
  - intros v ev Hev. destruct (Hall v ev Hev) as [-> _].
    split; [done|]. by intros ?%elem_of_nil.
  - constructor.
  - by intros v ?%elem_of_nil.
  - intros v ev Hev. destruct (Hall v ev Hev) as [-> Hd].
    split; [|done]. unfold INT_MAX in *. lia.
  - intros u eu x w ex Hu Hvis. destruct (Hall u eu Hu). congruence.
  - intros u eu x ex Hu Hvis. destruct (Hall u eu Hu). congruence.
Qed.

(** Marking the selected vertex [v]. *)
Lemma mark_opt g s t vis v ev t1 :
  optInv g s t vis (edge g) → candidate g t s v ev →
  (∀ i e, candidate g t s i e → dist ev < dist e ∨ (dist ev = dist e ∧ v ≤ i)) →
  setT t s v (mkTable true (dist ev) (path ev)) = Some t1 →
  optInv g s t1 (v :: vis) (λ u x w, u ≠ v ∧ edge g u x w) ∧
  (∀ u eu, getT t1 s u = Some eu → visited eu = true → dist eu ≤ dist ev).
Proof.
  intros [H1 H2 H3 H4 H5 H6] (Hv & Hev & Hunv & Hfin) Hmin Hset.
  pose proof (getT_setT_eq _ _ _ _ _ Hset) as Hvv.
  assert (∀ x, x ≠ v → getT t1 s x = getT t s x) as Hother.
  { intros x Hx. apply (getT_setT_ne _ _ _ _ _ s x Hset). auto. }
  assert (∀ u eu, getT t1 s u = Some eu → visited eu = true →
                  dist eu ≤ dist ev) as Hle.
  { intros u eu Hu Hvis. destruct (decide (u = v)) as [->|Hne].
    - rewrite Hvv in Hu. injection Hu as <-. simpl. lia.
    - rewrite Hother in Hu by done. by apply (H6 u eu v ev). }
  split; [split|done].
  - intros x ex Hex. destruct (decide (x = v)) as [->|Hne].
    + rewrite Hvv in Hex. injection Hex as <-. simpl. split; [|done].
      intros _. by left.
    + rewrite Hother in Hex by done. rewrite (H1 x ex Hex), elem_of_cons.
      split; [by right|]. by intros [?|?].
  - constructor; [|done]. intros Hin. apply (H1 v ev Hev) in Hin. congruence.
  - intros x [->|Hin]%elem_of_cons; [done|by apply H3].
  - intros x ex Hex. destruct (decide (x = v)) as [->|Hne].
    + rewrite Hvv in Hex. injection Hex as <-. simpl. split; [lia|done].
    + rewrite Hother in Hex by done. by apply (H4 x).
  - intros u eu x w ex Hu Hvis [Hne Hedge] Hx.
    rewrite Hother in Hu by done.
    destruct (decide (x = v)) as [->|Hxne].
    + rewrite Hvv in Hx. injection Hx as <-. simpl.
      by apply (H5 u eu v w ev).
    + rewrite Hother in Hx by done. by apply (H5 u eu x w ex).
  - intros u eu x ex Hu Hvis Hx Hxunv Hxr.
    assert (x ≠ v) as Hxne.
    { intros ->. rewrite Hvv in Hx. by injection Hx as <-. }
    pose proof Hx as Hx'. rewrite Hother in Hx' by done.
    destruct (decide (u = v)) as [->|Hne].
    + rewrite Hvv in Hu. injection Hu as <-. simpl.
      destruct (Z.lt_ge_cases (dist ex) INT_MAX) as [Hxfin|Hxinf]; [|lia].
      destruct (Hmin x ex) as [?|[? _]]; [done|lia|lia].
    + rewrite Hother in Hu by done. by apply (H6 u eu x ex).
Qed.

(** Relaxing one edge of the vertex [v] just finalised. *)
Lemma relaxEdge_opt g s t vis (E : Z → Z → Z → Prop) v ev current t' :
  optInv g s t vis E → getT t s v = Some ev → visited ev = true →
  (∀ u eu, getT t s u = Some eu → visited eu = true → dist eu ≤ dist ev) →
  0 ≤ weight current →
  relaxEdge s v t current = Some t' →
  optInv g s t' vis
    (λ u x w, E u x w ∨ (u = v ∧ x = adjVertex current ∧ w = weight current)) ∧
  getT t' s v = Some ev ∧
  (∀ u eu, getT t' s u = Some eu → visited eu = true → dist eu ≤ dist ev).
Proof.
  intros Hinv Hv Hvvis Hle Hw Hrel. unfold relaxEdge in Hrel.
  destruct (getT t s (adjVertex current)) as [ew|] eqn:Hx; [|done].
  simpl in Hrel.
  pose proof Hinv as [H1 H2 H3 H4 H5 H6].
  assert (dist ew ≤ dist ev + weight current →
          optInv g s t vis
            (λ u x w, E u x w ∨ (u = v ∧ x = adjVertex current ∧ w = weight current)))
    as Hsame.
  { intros Hok. split; try done.
    intros u eu x w ex Hu Hvis [HE|(-> & -> & ->)] Hex.
    - by apply (H5 u eu x w ex).
    - assert (eu = ev) as -> by congruence.
      assert (ex = ew) as -> by congruence. done. }
  destruct (visited ew) eqn:Hxvis.
  { injection Hrel as <-. split; [|done]. apply Hsame.
    pose proof (Hle _ _ Hx Hxvis). lia. }
  rewrite Hv in Hrel. simpl in Hrel.
  destruct (addInt (dist ev) (weight current)) as [sum|] eqn:Hsum; [|done].
  simpl in Hrel. apply addInt_Some in Hsum as [-> Hrange].
  destruct (Z.ltb_spec (dist ev + weight current) (dist ew)) as [Hlt|Hge].
  2:{ injection Hrel as <-. split; [|done]. apply Hsame. lia. }
  set (x := adjVertex current) in *.
  pose proof (getT_setT_eq _ _ _ _ _ Hrel) as Hxx.
  assert (∀ y, y ≠ x → getT t' s y = getT t s y) as Hother.
  { intros y Hy. apply (getT_setT_ne _ _ _ _ _ s y Hrel). auto. }
  assert (∀ y ey, getT t' s y = Some ey → visited ey = true →
                  y ≠ x ∧ getT t s y = Some ey) as Hvis'.
  { intros y ey Hey Hvis. destruct (decide (y = x)) as [->|Hne].
    - rewrite Hxx in Hey. injection Hey as <-. simpl in Hvis. congruence.
    - split; [done|]. by rewrite <- Hother. }
  destruct (H4 x ew Hx) as [Hxmax _].
  split; [split|split].
  - intros y ey Hey. destruct (decide (y = x)) as [->|Hne].
    + rewrite Hxx in Hey. injection Hey as <-. simpl.
      rewrite <- (H1 x ew Hx). by rewrite Hxvis.
    + rewrite Hother in Hey by done. by apply H1.
  - done.
  - done.
  - intros y ey Hey. destruct (decide (y = x)) as [->|Hne].
    + rewrite Hxx in Hey. injection Hey as <-. simpl. split; [lia|congruence].
    + rewrite Hother in Hey by done. by apply (H4 y).
  - intros u eu y w ey Hu Hvis HE Hy.
    destruct (Hvis' u eu Hu Hvis) as [Hune Hu0].
    destruct (decide (y = x)) as [->|Hne].
    + rewrite Hxx in Hy. injection Hy as <-. simpl.
      destruct HE as [HE|(-> & _ & ->)].
      * pose proof (H5 u eu x w ew Hu0 Hvis HE Hx). lia.
      * assert (eu = ev) as -> by congruence. lia.
    + rewrite Hother in Hy by done.
      destruct HE as [HE|(_ & ? & _)]; [|done].
      by apply (H5 u eu y w ey).
  - intros u eu y ey Hu Hvis Hy Hyunv Hyr.
    destruct (Hvis' u eu Hu Hvis) as [Hune Hu0].
    destruct (decide (y = x)) as [->|Hne].
    + rewrite Hxx in Hy. injection Hy as <-. simpl.
      pose proof (Hle u eu Hu0 Hvis). lia.
    + rewrite Hother in Hy by done. by apply (H6 u eu y ey).
  - rewrite Hother; [done|]. intros ->. congruence.
  - intros u eu Hu Hvis. destruct (Hvis' u eu Hu Hvis) as [_ Hu0].
    by apply (Hle u eu).
Qed.

Lemma relaxEdges_opt g s vis v ev l :
  visited ev = true → Forall (λ c, 0 ≤ weight c) l →
  ∀ (E : Z → Z → Z → Prop) t t',
    optInv g s t vis E → getT t s v = Some ev →
    (∀ u eu, getT t s u = Some eu → visited eu = true → dist eu ≤ dist ev) →
    relaxEdges s v t l = Some t' →
    optInv g s t' vis (λ u x w, E u x w ∨ (u = v ∧ mkEdgeNode x w ∈ l)).
Proof.
  intros Hvvis Hnn. induction Hnn as [|c l Hc Hl IH]; intros E t t' Hinv Hv Hle Hrun;
    simpl in Hrun.
  - injection Hrun as <-. eapply optInv_weaken; [|exact Hinv].
    intros u x w [?|[_ ?%elem_of_nil]]; done.
  - destruct (relaxEdge s v t c) as [t1|] eqn:Hrel; [|done]. simpl in Hrun.
    destruct (relaxEdge_opt g s t vis E v ev c t1 Hinv Hv Hvvis Hle Hc Hrel)
      as (Hinv1 & Hv1 & Hle1).
    pose proof (IH _ t1 t' Hinv1 Hv1 Hle1 Hrun) as Hinv'.
    eapply optInv_weaken; [|exact Hinv']. simpl.
    intros u x w [HE|[-> Hin]]; [by left; left|].
    apply elem_of_cons in Hin as [<-|Hin]; [left; right; done|right; done].
Qed.

Lemma visitVertex_opt g s t vis v t' :
  nonNegativeWeights g →
  optInv g s t vis (edge g) → selected g t s v →
  visitVertex g s v t = Some t' →
  optInv g s t' (v :: vis) (edge g).
Proof.
  intros Hnn Hinv (ev & Hcand & Hmin) Hvisit. unfold visitVertex in Hvisit.
  pose proof Hcand as (Hv & Hev & Hunv & Hfin).
  rewrite Hev in Hvisit. simpl in Hvisit.
  destruct (setT t s v _) as [t1|] eqn:Hset; [|done]. simpl in Hvisit.
  destruct (lookupZ (vertices g) v) as [vn|] eqn:Hvn; [|done]. simpl in Hvisit.
  destruct (mark_opt g s t vis v ev t1 Hinv Hcand Hmin Hset) as [Hinv1 Hle1].
  pose proof (relaxEdges_opt g s (v :: vis) v (mkTable true (dist ev) (path ev))
                (edgeHead vn)) as Hrel.
  eapply optInv_weaken; [|eapply Hrel; [done| |exact Hinv1| |exact Hle1|exact Hvisit]].
  - intros u x w Hedge. destruct (decide (u = v)) as [->|Hne]; [right|by left].
    split; [done|]. destruct Hedge as (vn' & Hvn' & Hin). congruence.
  - apply Forall_forall. intros [x w] Hin. simpl.
    apply (Hnn v x w). by exists vn.
  - by eapply getT_setT_eq.
Qed.

Lemma helperLoop_opt g s n :
  nonNegativeWeights g →
  ∀ t vis t' log,
    optInv g s t vis (edge g) →
    helperLoop n g s t = Some (t', log) →
    ∃ vis', optInv g s t' vis' (edge g) ∧
            ((∀ i e, ¬ candidate g t' s i e) ∨
             length vis' = (length vis + n)%nat).
Proof.
  intros Hnn. induction n as [|n IH]; intros t vis t' log Hinv Hrun.
  - simpl in Hrun. injection Hrun as <- <-. exists vis. split; [done|]. right. lia.
  - destruct (helperLoop_pass n g s t t' log Hrun)
      as [(_ & -> & Hno)|(v & t1 & log' & _ & Hsel & Hvisit & Hrec)].
    + exists vis. split; [done|by left].
    + pose proof (visitVertex_opt g s t vis v t1 Hnn Hinv Hsel Hvisit) as Hinv1.
      destruct (IH t1 (v :: vis) t' log' Hinv1 Hrec) as (vis' & Hinv' & Hend).
      exists vis'. split; [done|]. destruct Hend as [?|Hlen]; [by left|right].
      rewrite Hlen. simpl. lia.
Qed.

(** Distinct numbers of [1..n] are at most [n]. *)
Lemma NoDup_range_length (l : list Z) (n : Z) :
  NoDup l → (∀ v, v ∈ l → 1 ≤ v ≤ n) → Z.of_nat (length l) ≤ Z.max 0 n.
Proof.
  intros Hnd Hr.
  assert (l ⊆+ seqZ 1 n) as Hsub.
  { apply NoDup_submseteq; [done|]. intros v Hv. apply elem_of_seqZ.
    specialize (Hr v Hv). lia. }
  apply submseteq_length in Hsub. rewrite length_seqZ in Hsub. lia.
Qed.

Lemma optInv_closed g s t vis :
  nonNegativeWeights g → optInv g s t vis (edge g) →
  (∀ i e, ¬ candidate g t s i e) ∨ size g - 1 ≤ Z.of_nat (length vis) →
  rowClosed g t s.
Proof.
  intros Hnn [H1 H2 H3 H4 H5 H6] Hend u x w eu ex Hu Hx Hedge Heu Hex.
  pose proof (Hnn u x w Hedge) as Hw.
  destruct (visited eu) eqn:Huvis; [by apply (H5 u eu x w ex)|].
  destruct (H4 x ex Hex) as [Hxmax _].
  destruct Hend as [Hno|Hlen].
  - destruct (Z.lt_ge_cases (dist eu) INT_MAX) as [Hfin|Hinf]; [|lia].
    exfalso. apply (Hno u eu). unfold candidate. done.
  - destruct (visited ex) eqn:Hxvis.
    + pose proof (H6 x ex u eu Hex Hxvis Heu Huvis Hu). lia.
    + destruct (decide (x = u)) as [->|Hne].
      * assert (ex = eu) as -> by congruence. lia.
      * exfalso.
        assert (NoDup (u :: x :: vis)) as Hnd.
        { repeat constructor; try done.
          - rewrite elem_of_cons. intros [?|Hin]; [done|].
            apply (H1 u eu Heu) in Hin. congruence.
          - intros Hin. apply (H1 x ex Hex) in Hin. congruence. }
        apply (NoDup_range_length _ (size g)) in Hnd; [simpl in Hnd; lia|].
        intros y [ -> |[ -> |Hin]%elem_of_cons]%elem_of_cons; [done|done|by apply H3].
Qed.

Lemma findShortestPathHelper_closed g s t t' log :
  nonNegativeWeights g → freshRow t s →
  findShortestPathHelper g s t = Some (t', log) →
  rowClosed g t' s.
Proof.
  intros Hnn Hfresh Hrun. unfold findShortestPathHelper in Hrun.
  destruct (getT t s s) as [e|] eqn:He; [|done]. simpl in Hrun.
  destruct (setT t s s _) as [t0|] eqn:Hset; [|done]. simpl in Hrun.
  pose proof (optInv_init g s t e t0 (edge g) Hfresh He Hset) as Hinv0.
  destruct (helperLoop_opt g s _ Hnn t0 [] t' log Hinv0 Hrun) as (vis & Hinv & Hend).
  apply (optInv_closed g s t' vis Hnn Hinv).
  destruct Hend as [?|Hlen]; [by left|right]. rewrite Hlen. simpl. lia.
Qed.

(** ** Every row *)

(** What a run establishes of its own row holds of every row after
    [findShortestPath], the later runs leaving the row alone. *)
Lemma findShortestPath_each_row g g' (Q : list (list Table) → Z → Prop) :
  (∀ t t' s, (∀ c, getT t' s c = getT t s c) → Q t s → Q t' s) →
  (∀ s t t' log, 1 ≤ s ≤ size g → freshRow t s →
     findShortestPathHelper g s t = Some (t', log) → Q t' s) →
  findShortestPath g = Some g' →
  ∀ s, 1 ≤ s ≤ size g → Q (T g') s.
Proof.
  unfold findShortestPath. intros Hext Hrow Hrun.
  destruct (forRange 1 (size g) _ initTable) as [t|] eqn:Hloop; [|done].
  simpl in Hrun. injection Hrun as <-. simpl. intros s Hs.
  pose (P := λ (j : Z) (x : list (list Table)),
               (∀ r, 1 ≤ r < j → Q x r) ∧ (∀ r, j ≤ r → freshRow x r)).
  assert (P (size g + 1) t) as [Hdone _].
  { eapply (forRange_inv P _ 1 (size g) initTable t); [lia| | |exact Hloop].
    - split; [lia|]. intros r _ c e. apply getT_initTable.
    - intros j x y Hj [Hd Hf] Hbody.
      destruct (findShortestPathHelper g j x) as [[y' log]|] eqn:Hh; [|done].
      simpl in Hbody. injection Hbody as <-.
      pose proof (findShortestPathHelper_frame g j x y' log Hh) as Hframe.
      split.
      + intros r Hr. destruct (decide (r = j)) as [->|Hne].
        * eapply Hrow; [done| |exact Hh]. apply Hf. lia.
        * eapply Hext; [|apply Hd; lia]. intros c. by apply Hframe.
      + intros r Hr c e He. rewrite Hframe in He by lia.
        assert (j ≤ r) as Hjr by lia. exact (Hf r Hjr c e He). }
  apply Hdone. lia.
Qed.

Lemma findShortestPath_closed g g' :
  nonNegativeWeights g → findShortestPath g = Some g' →
  ∀ s, 1 ≤ s ≤ size g → rowClosed g (T g') s.
Proof.
  intros Hnn. apply (findShortestPath_each_row g g' (rowClosed g)).
  - intros t t' s Heq Hc u x w eu ex Hu Hx Hedge Heu Hex.
    rewrite Heq in Heu, Hex. by apply (Hc u x w).
  - intros s t t' log _. by apply findShortestPathHelper_closed.
Qed.

(** ** The cells of the table *)

Lemma setT_cells t r c e t' :
  setT t r c e = Some t' →
  ∀ r' c', is_Some (getT t' r' c') ↔ is_Some (getT t r' c').
Proof.
  intros Hset r' c'. destruct (decide (r' = r ∧ c' = c)) as [[-> ->]|Hne].
  - rewrite (getT_setT_eq _ _ _ _ _ Hset).
    apply setT_Some in Hset as (row & Hr & [e0 Hc] & _).
    split; [|by eauto]. intros _. exists e0. apply getT_Some. eauto.
  - rewrite (getT_setT_ne _ _ _ _ _ r' c' Hset); [done|].
    destruct (decide (r' = r)); [right; intros ->; tauto|by left].
Qed.

Lemma relaxEdges_cells s u l :
  ∀ t t', relaxEdges s u t l = Some t' →
          ∀ r c, is_Some (getT t' r c) ↔ is_Some (getT t r c).
Proof.
  induction l as [|cur l IH]; intros t t' Hrun r c; simpl in Hrun.
  - by injection Hrun as <-.
  - destruct (relaxEdge s u t cur) as [t1|] eqn:Hrel; [|done]. simpl in Hrun.
    rewrite (IH t1 t' Hrun r c).
    unfold relaxEdge in Hrel.
    destruct (getT t s (adjVertex cur)) as [ew|]; [|done]. simpl in Hrel.
    destruct (visited ew); [by injection Hrel as <-|].
    destruct (getT t s u) as [eu|]; [|done]. simpl in Hrel.
    destruct (addInt (dist eu) (weight cur)) as [sum|]; [|done]. simpl in Hrel.
    destruct (sum <? dist ew); [|by injection Hrel as <-].
    by apply (setT_cells _ _ _ _ _ Hrel).
Qed.

Lemma helperLoop_cells g s n :
  ∀ t t' log, helperLoop n g s t = Some (t', log) →
              ∀ r c, is_Some (getT t' r c) ↔ is_Some (getT t r c).
Proof.
  induction n as [|n IH]; intros t t' log Hrun r c.
  - simpl in Hrun. by injection Hrun as <- <-.
  - destruct (helperLoop_pass n g s t t' log Hrun)
      as [(_ & -> & _)|(v & t1 & log' & _ & _ & Hvisit & Hrec)]; [done|].
    rewrite (IH t1 t' log' Hrec r c).
    unfold visitVertex in Hvisit.
    destruct (getT t s v) as [ev|]; [|done]. simpl in Hvisit.
    destruct (setT t s v _) as [t0|] eqn:Hset; [|done]. simpl in Hvisit.
    destruct (lookupZ (vertices g) v) as [vn|]; [|done]. simpl in Hvisit.
    rewrite (relaxEdges_cells s v _ t0 t1 Hvisit r c).
    by apply (setT_cells _ _ _ _ _ Hset).
Qed.

Lemma findShortestPathHelper_cells g s t t' log :
  findShortestPathHelper g s t = Some (t', log) →
  ∀ r c, is_Some (getT t' r c) ↔ is_Some (getT t r c).
Proof.
  intros Hrun r c. unfold findShortestPathHelper in Hrun.
  destruct (getT t s s) as [e|]; [|done]. simpl in Hrun.
  destruct (setT t s s _) as [t0|] eqn:Hset; [|done]. simpl in Hrun.
  rewrite (helperLoop_cells g s _ t0 t' log Hrun r c).
  by apply (setT_cells _ _ _ _ _ Hset).
Qed.

Lemma initTable_cells r c :
  is_Some (getT initTable r c) ↔ 0 ≤ r < MAX_VERTICES ∧ 0 ≤ c < MAX_VERTICES.
Proof.
  split; [|intros [? ?]; by apply initTable_shape].
  intros [e (row & Hr & Hc)%getT_Some].
  pose proof (lookupZ_range _ _ _ Hr) as Hrr.
  apply lookupZ_Some in Hr as [_ Hr]. unfold initTable in Hr.
  apply lookup_replicate in Hr as [-> _].
  pose proof (lookupZ_range _ _ _ Hc) as Hcr.
  unfold initTable in Hrr. rewrite length_replicate in Hrr.
  rewrite length_replicate in Hcr.
  unfold MAX_VERTICES in *. lia.
Qed.

(** After [findShortestPath] the table has its [MAX_VERTICES * MAX_VERTICES]
    cells and no other. *)
Lemma findShortestPath_cells g g' :
  findShortestPath g = Some g' →
  ∀ r c, is_Some (getT (T g') r c) ↔
         0 ≤ r < MAX_VERTICES ∧ 0 ≤ c < MAX_VERTICES.
Proof.
  unfold findShortestPath. intros Hrun r c.
  destruct (forRange 1 (size g) _ initTable) as [t|] eqn:Hloop; [|done].
  simpl in Hrun. injection Hrun as <-. simpl.
  rewrite <- initTable_cells.
  destruct (Z.le_gt_cases 1 (size g + 1)) as [Hle|Hgt].
  - pose (P := λ (j : Z) (x : list (list Table)),
                 is_Some (getT x r c) ↔ is_Some (getT initTable r c)).
    assert (P (size g + 1) t) as HP; [|exact HP].
    eapply (forRange_inv P _ 1 (size g) initTable t); [lia|by unfold P| |exact Hloop].
    intros j x y Hj HP Hbody. simpl in Hbody.
    destruct (findShortestPathHelper g j x) as [[y' log]|] eqn:Hh; [|done].
    simpl in Hbody. injection Hbody as <-. unfold P in *.
    by rewrite (findShortestPathHelper_cells g j x y' log Hh r c).
  - rewrite forRange_empty in Hloop by lia. by injection Hloop as <-.
Qed.

(** The subscripts [1..size] must fit the table. *)
Lemma findShortestPath_size g g' :
  findShortestPath g = Some g' → size g < MAX_VERTICES.
Proof.
  intros Hrun. destruct (Z.le_gt_cases 1 (size g)) as [Hle|Hgt];
    [|unfold MAX_VERTICES; lia].
  destruct (findShortestPath_rows g g' Hrun) as (_ & _ & Hrows).
  destruct (Hrows (size g)) as (k & rank & _ & Hinv); [lia|].
  destruct (inv_source _ _ _ _ _ Hinv) as (e & He & _).
  assert (is_Some (getT (T g') (size g) (size g))) as Hsome by eauto.
  apply (findShortestPath_cells g g' Hrun) in Hsome. lia.
Qed.

Lemma findShortestPath_entry g g' s v :
  findShortestPath g = Some g' → 1 ≤ s ≤ size g → 1 ≤ v ≤ size g →
  is_Some (getT (T g') s v).
Proof.
  intros Hrun Hs Hv. pose proof (findShortestPath_size g g' Hrun).
  apply (findShortestPath_cells g g' Hrun). lia.
Qed.

(** ** No chain is lighter than the distance *)

Lemma chain_head g s p c : chain g s p c → ∃ q, p = s :: q.
Proof.
  induction 1 as [|p u v c w _ [q Hq] _]; [by exists []|].
  destruct p as [|x p]; simpl in *.
  - injection Hq as -> <-. by exists [v].
  - injection Hq as -> <-. by eexists.
Qed.

Lemma chain_source_inGraph g s p c :
  chain g s p c → inGraph g p → 1 ≤ s ≤ size g.
Proof.
  intros [q ->]%chain_head Hin. by apply Forall_cons in Hin as [? _].
Qed.

Lemma chain_dist_le g t s :
  rowClosed g t s →
  (∃ e, getT t s s = Some e ∧ dist e = 0) →
  (∀ v, 1 ≤ v ≤ size g → is_Some (getT t s v)) →
  ∀ p c, chain g s p c → inGraph g p →
         ∀ d, last p = Some d → ∃ e, getT t s d = Some e ∧ dist e ≤ c.
Proof.
  intros Hclosed (es & Hes & Hd0) Hcells p c Hchain.
  induction Hchain as [|p u v c w Hc IH Hedge]; intros Hin d Hlast.
  - simpl in Hlast. injection Hlast as <-. exists es. split; [done|lia].
  - unfold inGraph in Hin. rewrite Forall_app in Hin. destruct Hin as [Hp Huv].
    apply Forall_cons in Huv as [Hu Hv%Forall_cons]. destruct Hv as [Hv _].
    replace (p ++ [u; v]) with ((p ++ [u]) ++ [v]) in Hlast
      by (by rewrite <- app_assoc).
    rewrite last_snoc in Hlast. injection Hlast as <-.
    destruct (IH) with (d := u) as (eu & Heu & Hle).
    { unfold inGraph. rewrite Forall_app. split; [done|]. by constructor. }
    { by rewrite last_snoc. }
    destruct (Hcells v Hv) as [ev Hev]. exists ev. split; [done|].
    pose proof (Hclosed u v w eu ev Hu Hv Hedge Heu Hev). lia.
Qed.

Lemma findShortestPath_chain_dist_le g g' s p c d :
  findShortestPath g = Some g' → nonNegativeWeights g →
  chain g s p c → inGraph g p → last p = Some d →
  ∃ e, getT (T g') s d = Some e ∧ dist e ≤ c.
Proof.
  intros Hrun Hnn Hchain Hin Hlast.
  pose proof (chain_source_inGraph g s p c Hchain Hin) as Hs.
  destruct (findShortestPath_rows g g' Hrun) as (_ & _ & Hrows).
  destruct (Hrows s Hs) as (k & rank & _ & Hinv).
  destruct (inv_source _ _ _ _ _ Hinv) as (es & Hes & Hd0 & _).
  eapply (chain_dist_le g (T g') s); eauto.
  - by apply findShortestPath_closed.
  - intros v Hv. by eapply findShortestPath_entry.
Qed.

(** X1: with non-negative weights, after [findShortestPath] the distance
    [T[s][d].dist] is at most the total weight of any walk from [s] to [d]
    along edges of the graph through vertices of [1..size]: no path is
    shorter than the distance the table holds. *)
Theorem dist_is_shortest g g' s p c d :
  findShortestPath g = Some g' → nonNegativeWeights g →
  chain g s p c → inGraph g p → last p = Some d →
  ∃ e, getT (T g') s d = Some e ∧ dist e ≤ c.
Proof.
  intros Hrun Hnn Hchain Hin Hlast.
  pose proof (chain_source_inGraph g s p c Hchain Hin) as Hs.
  destruct (findShortestPath_rows g g' Hrun) as (_ & _ & Hrows).
  destruct (Hrows s Hs) as (k & rank & _ & Hinv).
  destruct (inv_source _ _ _ _ _ Hinv) as (es & Hes & Hd0 & _).
  apply (chain_dist_le g (T g') s (findShortestPath_closed g g' Hnn Hrun s Hs))
    with (p := p); try done.
  - by exists es.
  - intros v Hv. by eapply findShortestPath_entry.
Qed.

Lemma dist_is_shortest_witness :
  ∃ g' e, findShortestPath scenarioGraph = Some g' ∧
          getT (T g') 1 3 = Some e ∧ dist e ≤ 10.
Proof.
  destruct (findShortestPath scenarioGraph) as [g'|] eqn:Hrun;
    [|by vm_compute in Hrun].
  destruct (dist_is_shortest scenarioGraph g' 1 [1; 3] (0 + 10) 3 Hrun)
    as (e & He & Hle).
  - apply nonNegativeWeightsb_sound. vm_compute. reflexivity.
  - apply (chain_step scenarioGraph 1 [] 1 3 0 10); [constructor|].
    eexists. split; [vm_compute; reflexivity|].
    apply elem_of_cons. right. apply elem_of_cons. by left.
  - repeat constructor; simpl; lia.
  - reflexivity.
  - exists g', e. split; [reflexivity|]. split; [exact He|exact Hle].
Defined.

(** ** The vertices of a printed path *)

Lemma printPath_vertices g s t k rank :
  runInv g s t k rank →
  ∀ f d p, printPath f t s d = Some p →
           ∀ x, x ∈ p → x = d ∨ 1 ≤ x ≤ size g.
Proof.
  intros Hinv. induction f as [|f IH]; intros d p Hrun x Hx; [done|].
  simpl in Hrun. destruct (getT t s d) as [e|] eqn:He; [|done]. simpl in Hrun.
  destruct (Z.ltb_spec 0 (path e)) as [Hp|Hp].
  2:{ injection Hrun as <-. by apply elem_of_nil in Hx. }
  destruct (negb (s =? d)).
  2:{ injection Hrun as <-. apply list_elem_of_singleton in Hx. by left. }
  destruct (printPath f t s (path e)) as [q|] eqn:Hq; [|done].
  simpl in Hrun. injection Hrun as <-.
  apply elem_of_app in Hx as [Hx|Hx%list_elem_of_singleton]; [|by left].
  right. destruct (IH _ _ Hq x Hx) as [->|?]; [|done].
  destruct (inv_bound _ _ _ _ _ Hinv d e He) as (_ & _ & [?|?]); [lia|done].
Qed.

Lemma printPath_inGraph g s t d p f :
  rowDone g t s → 1 ≤ d ≤ size g → printPath f t s d = Some p → inGraph g p.
Proof.
  intros (k & rank & _ & Hinv) Hd Hrun. apply Forall_forall. intros x Hx.
  destruct (printPath_vertices g s t k rank Hinv f d p Hrun x Hx) as [->|?]; done.
Qed.

(** X2: with non-negative weights, after [findShortestPath] the distance of
    a pair of vertices of [1..size] is finite (below [INT_MAX]) exactly
    when some walk through vertices of [1..size] of total weight below
    [INT_MAX] joins them: a pair is reported unreachable only if it is. *)
Theorem finite_dist_iff_reachable g g' s d e :
  findShortestPath g = Some g' → nonNegativeWeights g →
  1 ≤ s ≤ size g → 1 ≤ d ≤ size g →
  getT (T g') s d = Some e →
  (dist e < INT_MAX ↔
   ∃ p c, chain g s p c ∧ inGraph g p ∧ last p = Some d ∧ c < INT_MAX).
Proof.
  intros Hrun Hnn Hs Hd He.
  destruct (findShortestPath_rows g g' Hrun) as (_ & _ & Hrows).
  split.
  - intros Hfin.
    destruct (printPath_finite g s (T g') d e (Hrows s Hs) He Hfin) as (p & Hp & Hc).
    exists (p ++ [d]), (dist e). split; [done|]. split; [|split; [|done]].
    + eapply (printPath_inGraph g s (T g') d); [by apply Hrows|done|exact Hp].
    + by rewrite last_snoc.
  - intros (p & c & Hc & Hin & Hlast & Hfin).
    destruct (findShortestPath_chain_dist_le g g' s p c d Hrun Hnn Hc Hin Hlast)
      as (e' & He' & Hle).
    assert (e' = e) as -> by congruence. lia.
Qed.

Lemma finite_dist_iff_reachable_witness :
  ∃ g', findShortestPath scenarioGraph = Some g' ∧
        (7 < INT_MAX ↔
         ∃ p c, chain scenarioGraph 1 p c ∧ inGraph scenarioGraph p ∧
                last p = Some 3 ∧ c < INT_MAX).
Proof.
  destruct (findShortestPath scenarioGraph) as [g'|] eqn:Hrun;
    [|by vm_compute in Hrun].
  pose proof Hrun as Hval. vm_compute in Hval. injection Hval as <-.
  eexists. split; [reflexivity|].
  apply (finite_dist_iff_reachable scenarioGraph _ 1 3 (mkTable false 7 2) Hrun).
  - apply nonNegativeWeightsb_sound. vm_compute. reflexivity.
  - simpl. lia.
  - simpl. lia.
  - vm_compute. reflexivity.
Defined.

(** ** Printed paths are simple *)

Lemma printPath_ranked g s t k rank :
  runInv g s t k rank →
  ∀ r v e, getT t s v = Some e →
           v = s ∨ (visited e = true ∧ (rank v ≤ r)%nat) →
           ∃ p, printPath (Datatypes.S r) t s v = Some (p ++ [v]) ∧
                NoDup (p ++ [v]) ∧
                ∀ x, x ∈ p →
                     x = s ∨ ∃ ex, getT t s x = Some ex ∧ visited ex = true ∧
                                   (rank x < rank v)%nat.
Proof.
  intros Hinv. pose proof (runInv_source_range _ _ _ _ _ Hinv) as Hs.
  destruct Hinv as [H1 H2 H3 H4 H5].
  assert (∀ r e, getT t s s = Some e →
            ∃ p, printPath (Datatypes.S r) t s s = Some (p ++ [s]) ∧
                 NoDup (p ++ [s]) ∧
                 ∀ x, x ∈ p →
                      x = s ∨ ∃ ex, getT t s x = Some ex ∧ visited ex = true ∧
                                    (rank x < rank s)%nat) as Hsrc.
  { intros r e He. destruct H1 as (es & Hes & Hd & Hp).
    exists []. rewrite (printPath_step _ t s s es Hes), Hp.
    destruct (Z.ltb_spec 0 s); [|lia]. rewrite Z.eqb_refl. cbn [negb].
    split; [done|]. split; [apply NoDup_singleton|]. by intros x ?%elem_of_nil. }
  induction r as [|r IH]; intros v e He Hcase;
    (destruct (decide (v = s)) as [->|Hne]; [by eapply Hsrc|]);
    (destruct Hcase as [|[Hvis Hr]]; [done|]);
    destruct (H3 v e He Hvis) as (_ & Hfin & _);
    destruct (H2 v e He) as (_ & Hiff & Hrange);
    (assert (path e ≠ 0) as Hp by (by apply Hiff));
    destruct (H4 v e He Hne Hp) as (eu & w & Hu & Huvis & Hedge & Hdist & Hrank);
    specialize (Hrank Hvis); [lia|].
  destruct (IH (path e) eu Hu) as (q & Hq & Hnd & Hall).
  { right. split; [done|lia]. }
  exists (q ++ [path e]).
  rewrite (printPath_step _ t s v e He).
  destruct (Z.ltb_spec 0 (path e)); [|lia].
  destruct (Z.eqb_spec s v); [congruence|]. cbn [negb].
  rewrite Hq. split; [done|].
  assert (∀ x, x ∈ q ++ [path e] →
            x = s ∨ ∃ ex, getT t s x = Some ex ∧ visited ex = true ∧
                          (rank x < rank v)%nat) as Hall'.
  { intros x [Hx|Hx%list_elem_of_singleton]%elem_of_app.
    - destruct (Hall x Hx) as [?|(ex & Hex & Hxvis & Hxr)]; [by left|right].
      exists ex. split; [done|]. split; [done|lia].
    - subst x. right. by exists eu. }
  split; [|done].
  apply NoDup_app. split; [done|]. split; [|apply NoDup_singleton].
  intros x Hx ->%list_elem_of_singleton.
  destruct (Hall' v Hx) as [?|(_ & _ & _ & ?)]; [done|lia].
Qed.

Lemma printPath_NoDup g s t d p f :
  rowDone g t s → printPath f t s d = Some p → NoDup p.
Proof.
  intros (k & rank & Hk & Hinv) Hrun.
  pose proof (runInv_source_range _ _ _ _ _ Hinv) as Hs.
  destruct f as [|f]; [done|].
  pose proof Hrun as Hrun0. simpl in Hrun0.
  destruct (getT t s d) as [e|] eqn:He; [|done]. clear Hrun0.
  assert (∃ f' p', printPath f' t s d = Some p' ∧ NoDup p') as (f' & p' & Hp' & Hnd).
  { destruct (decide (path e = 0)) as [Hp0|Hp].
    { exists 1%nat, []. split; [by apply (printPath_no_path 0 t s d e)|constructor]. }
    destruct (decide (d = s)) as [->|Hne].
    { destruct (printPath_ranked g s t k rank Hinv 0 s e He) as (q & Hq & Hnd & _);
        [by left|]. eauto. }
    pose proof Hinv as [H1 H2 H3 H4 H5].
    destruct (visited e) eqn:Hvis.
    - destruct (printPath_ranked g s t k rank Hinv (rank d) d e He)
        as (q & Hq & Hnd & _); [right; split; [done|lia]|]. eauto.
    - destruct (H4 d e He Hne Hp) as (eu & w & Hu & Huvis & Hedge & Hdist & _).
      destruct (printPath_ranked g s t k rank Hinv (rank (path e)) (path e) eu Hu)
        as (q & Hq & Hnd & Hall); [right; split; [done|lia]|].
      exists (Datatypes.S (Datatypes.S (rank (path e)))), ((q ++ [path e]) ++ [d]).
      rewrite (printPath_step _ t s d e He).
      destruct (H2 d e He) as (_ & _ & Hrange).
      destruct (Z.ltb_spec 0 (path e)); [|lia].
      destruct (Z.eqb_spec s d); [congruence|]. cbn [negb].
      rewrite Hq. split; [done|].
      apply NoDup_app. split; [done|]. split; [|apply NoDup_singleton].
      intros x Hx ->%list_elem_of_singleton.
      apply elem_of_app in Hx as [Hx|Hx%list_elem_of_singleton].
      + destruct (Hall d Hx) as [?|(ex & Hex & Hxvis & _)]; [done|congruence].
      + subst d. congruence. }
  pose proof (printPath_mono t s _ _ _ Hrun (Datatypes.S f + f')%nat) as E1.
  pose proof (printPath_mono t s _ _ _ Hp' (Datatypes.S f + f')%nat) as E2.
  rewrite E1 in E2 by lia. specialize (E2 ltac:(lia)). by injection E2 as ->.
Qed.

(** X3: after [findShortestPath], whatever [printPath(s, d)] prints for a
    source [s] of [1..size] names no vertex twice: a printed path never
    runs through a cycle or a self-loop. *)
Theorem printPath_simple g g' s d p fuel :
  findShortestPath g = Some g' → 1 ≤ s ≤ size g →
  printPath fuel (T g') s d = Some p → NoDup p.
Proof.
  intros Hrun Hs Hp.
  destruct (findShortestPath_rows g g' Hrun) as (_ & _ & Hrows).
  exact (printPath_NoDup g s (T g') d p fuel (Hrows s Hs) Hp).
Qed.

Lemma printPath_simple_witness :
  ∃ g', findShortestPath scenarioGraph = Some g' ∧ NoDup [1; 2; 3].
Proof.
  destruct (findShortestPath scenarioGraph) as [g'|] eqn:Hrun;
    [|by vm_compute in Hrun].
  pose proof Hrun as Hval. vm_compute in Hval. injection Hval as <-.
  eexists. split; [reflexivity|].
  apply (printPath_simple scenarioGraph _ 1 3 [1; 2; 3] 3 Hrun).
  - simpl. lia.
  - vm_compute. reflexivity.
Defined.

(** ** The triangle inequality *)

Lemma chain_app g s p c u q c' :
  chain g s p c → last p = Some u → chain g u q c' →
  ∃ r, chain g s r (c + c') ∧ last r = last q ∧
       ∀ x, x ∈ r → x ∈ p ∨ x ∈ q.
Proof.
  intros Hp Hlast Hq. induction Hq as [|q a b c' w Hq IH Hedge].
  - exists p. rewrite Z.add_0_r. split; [done|]. split; [done|]. by left.
  - destruct IH as (r & Hr & Hrl & Hsub).
    rewrite last_snoc in Hrl.
    destruct r as [|x r _] using rev_ind; [done|].
    rewrite last_snoc in Hrl. injection Hrl as ->.
    exists (r ++ [a; b]). split; [|split].
    + rewrite Z.add_assoc. by eapply chain_step.
    + replace (r ++ [a; b]) with ((r ++ [a]) ++ [b]) by (by rewrite <- app_assoc).
      replace (q ++ [a; b]) with ((q ++ [a]) ++ [b]) by (by rewrite <- app_assoc).
      by rewrite !last_snoc.
    + intros x Hx.
      replace (r ++ [a; b]) with ((r ++ [a]) ++ [b]) in Hx
        by (by rewrite <- app_assoc).
      replace (q ++ [a; b]) with ((q ++ [a]) ++ [b]) by (by rewrite <- app_assoc).
      apply elem_of_app in Hx as [Hx|Hx].
      * destruct (Hsub x Hx) as [?|?]; [by left|right].
        apply elem_of_app. by left.
      * right. apply elem_of_app. by right.
Qed.

(** X4: with non-negative weights the finite distances of the table obey
    the triangle inequality: going from [s] to [d] is never longer than
    going from [s] to [u] and then from [u] to [d]. *)
Theorem dist_triangle g g' s u d esu eud :
  findShortestPath g = Some g' → nonNegativeWeights g →
  1 ≤ s ≤ size g → 1 ≤ u ≤ size g → 1 ≤ d ≤ size g →
  getT (T g') s u = Some esu → getT (T g') u d = Some eud →
  dist esu < INT_MAX → dist eud < INT_MAX →
  ∃ esd, getT (T g') s d = Some esd ∧ dist esd ≤ dist esu + dist eud.
Proof.
  intros Hrun Hnn Hs Hu Hd Hsu Hud Hfsu Hfud.
  destruct (findShortestPath_rows g g' Hrun) as (_ & _ & Hrows).
  destruct (printPath_finite g s (T g') u esu (Hrows s Hs) Hsu Hfsu)
    as (p & Hp & Hcp).
  destruct (printPath_finite g u (T g') d eud (Hrows u Hu) Hud Hfud)
    as (q & Hq & Hcq).
  pose proof (printPath_inGraph g s (T g') u _ _ (Hrows s Hs) Hu Hp) as Hinp.
  pose proof (printPath_inGraph g u (T g') d _ _ (Hrows u Hu) Hd Hq) as Hinq.
  destruct (chain_app g s _ _ u _ _ Hcp (last_snoc _ _) Hcq) as (r & Hr & Hrl & Hsub).
  rewrite last_snoc in Hrl.
  apply (findShortestPath_chain_dist_le g g' s r _ d Hrun Hnn Hr); [|done].
  apply Forall_forall. intros x Hx. unfold inGraph in *.
  rewrite Forall_forall in Hinp, Hinq.
  destruct (Hsub x Hx); auto.
Qed.

Lemma dist_triangle_witness :
  ∃ g' esd, findShortestPath scenarioGraph = Some g' ∧
            getT (T g') 1 3 = Some esd ∧ dist esd ≤ 5 + 2.
Proof.
  destruct (findShortestPath scenarioGraph) as [g'|] eqn:Hrun;
    [|by vm_compute in Hrun].
  pose proof Hrun as Hval. vm_compute in Hval. injection Hval as <-.
  destruct (dist_triangle scenarioGraph _ 1 2 3
              (mkTable true 5 1) (mkTable true 2 2) Hrun)
    as (esd & Hesd & Hle).
  - apply nonNegativeWeightsb_sound. vm_compute. reflexivity.
  - simpl. lia.
  - simpl. lia.
  - simpl. lia.
  - vm_compute. reflexivity.
  - vm_compute. reflexivity.
  - vm_compute. reflexivity.
  - vm_compute. reflexivity.
  - eexists _, esd. split; [reflexivity|]. split; [exact Hesd|exact Hle].
Defined.

(** * Editing the adjacency lists *)

(** ** What insertEdge leaves in the list *)

Lemma insertWalk_new rest d w :
  ∀ current, mkEdgeNode d w ∈ insertWalk current rest d w.
Proof.
  induction rest as [|next rest IH]; intros current; simpl.
  - apply elem_of_cons. right. by apply list_elem_of_singleton.
  - destruct (Z.eqb_spec (adjVertex current) d) as [->|].
    + apply elem_of_cons. by left.
    + apply elem_of_cons. right. apply IH.
Qed.

Lemma insertWalk_from e rest d w :
  ∀ current, e ∈ insertWalk current rest d w →
             e ∈ current :: rest ∨ e = mkEdgeNode d w.
Proof.
  induction rest as [|next rest IH]; intros current Hin; simpl in Hin.
  - apply elem_of_cons in Hin as [->|Hin]; [left; by left|].
    apply list_elem_of_singleton in Hin as ->. by right.
  - destruct (Z.eqb_spec (adjVertex current) d) as [Hd|Hd].
    + apply elem_of_cons in Hin as [->|Hin]; [right; by rewrite Hd|]. left. by right.
    + apply elem_of_cons in Hin as [->|Hin]; [left; by left|].
      destruct (IH next Hin) as [?|?]; [left; by right|by right].
Qed.

Lemma insertWalk_others rest d w :
  ∀ current,
    filter (λ e, adjVertex e ≠ d) (insertWalk current rest d w) =
    filter (λ e, adjVertex e ≠ d) (current :: rest).
Proof.
  induction rest as [|next rest IH]; intros current; simpl.
  - destruct (decide (adjVertex current = d)) as [Hc|Hc].
    + rewrite !(filter_cons_False _ current) by (simpl; tauto).
      by rewrite filter_cons_False by (simpl; tauto).
    + rewrite !(filter_cons_True _ current) by done.
      by rewrite filter_cons_False by (simpl; tauto).
  - destruct (Z.eqb_spec (adjVertex current) d) as [Hc|Hc].
    + rewrite (filter_cons_False _ (mkEdgeNode _ _)) by (simpl; tauto).
      by rewrite (filter_cons_False _ current) by tauto.
    + rewrite !(filter_cons_True _ current) by done. by rewrite IH.
Qed.

Lemma insertWalk_length rest d w :
  ∀ current,
    (length (current :: rest) ≤ length (insertWalk current rest d w)
       ≤ length (current :: rest) + 1)%nat.
Proof.
  induction rest as [|next rest IH]; intros current; simpl; [lia|].
  destruct (adjVertex current =? d); simpl; [lia|].
  specialize (IH next). simpl in IH. lia.
Qed.

Lemma insertEdge_stores g src dst w v :
  0 ≤ w → lookupZ (vertices g) src = Some v →
  insertEdge g src dst w =
    Some (true, setVertices g
                  (<[Z.to_nat src := setEdgeHead v (insertedList (edgeHead v) dst w)]>
                     (vertices g))).
Proof.
  intros Hw Hv. unfold insertEdge. destruct (Z.ltb_spec w 0); [lia|].
  rewrite Hv. simpl. rewrite storeZ_total by eauto. done.
Qed.

Lemma insertedList_spec l d w :
  mkEdgeNode d w ∈ insertedList l d w ∧
  (∀ e, e ∈ insertedList l d w → e ∈ l ∨ e = mkEdgeNode d w) ∧
  filter (λ e, adjVertex e ≠ d) (insertedList l d w) =
    filter (λ e, adjVertex e ≠ d) l ∧
  (length l ≤ length (insertedList l d w) ≤ length l + 1)%nat.
Proof.
  destruct l as [|current rest]; simpl.
  - split; [by apply list_elem_of_singleton|]. split.
    + intros e ->%list_elem_of_singleton. by right.
    + split; [|lia]. by rewrite filter_cons_False by (simpl; tauto).
  - split; [apply insertWalk_new|]. split; [intros e; apply insertWalk_from|].
    split; [apply insertWalk_others|apply insertWalk_length].
Qed.

(** X5: for a weight [>= 0], after [insertEdge(src, dst, w)] the list of
    [src] holds a node [dst] with weight [w]; every node of the new list is
    that node or was there before; the nodes for other destinations are the
    same, in the same order; the list grew by at most one node; the label
    of [src], every other slot, [size] and the table are as before. *)
Theorem insertEdge_postcondition g src dst w v b g' :
  0 ≤ w → lookupZ (vertices g) src = Some v →
  insertEdge g src dst w = Some (b, g') →
  (∃ l', lookupZ (vertices g') src = Some (setEdgeHead v l') ∧
         mkEdgeNode dst w ∈ l' ∧
         (∀ e, e ∈ l' → e ∈ edgeHead v ∨ e = mkEdgeNode dst w) ∧
         filter (λ e, adjVertex e ≠ dst) l' =
           filter (λ e, adjVertex e ≠ dst) (edgeHead v) ∧
         (length (edgeHead v) ≤ length l' ≤ length (edgeHead v) + 1)%nat) ∧
  (∀ j, j ≠ src → lookupZ (vertices g') j = lookupZ (vertices g) j) ∧
  size g' = size g ∧ T g' = T g.
Proof.
  intros Hw Hv Hrun. rewrite (insertEdge_stores g src dst w v Hw Hv) in Hrun.
  injection Hrun as <- <-. simpl. split; [|split; [|done]].
  - exists (insertedList (edgeHead v) dst w). split.
    + apply lookupZ_insert_eq. eauto.
    + apply insertedList_spec.
  - intros j Hj. apply lookupZ_insert_ne; eauto.
Qed.

Lemma insertEdge_postcondition_witness :
  ∃ g' l', insertEdge oneEdgeGraph 1 3 4 = Some (true, g') ∧
           adjacency g' 1 = Some l' ∧ mkEdgeNode 3 4 ∈ l' ∧
           size g' = 3.
Proof.
  destruct (insertEdge oneEdgeGraph 1 3 4) as [[b g']|] eqn:Hrun;
    [|by vm_compute in Hrun].
  destruct (insertEdge_postcondition oneEdgeGraph 1 3 4
              (mkVertexNode [mkEdgeNode 2 5] (Some (Vertex.mk EmptyString)))
              b g') as ((l' & Hl' & Hin & _) & _ & Hsize & _).
  - lia.
  - reflexivity.
  - exact Hrun.
  - assert (b = true) as -> by (vm_compute in Hrun; congruence).
    exists g', l'. split; [reflexivity|]. unfold adjacency. rewrite Hl'.
    split; [reflexivity|]. split; [exact Hin|exact Hsize].
Defined.

(** ** Inserting and removing again *)

Lemma insertedList_fresh l d w :
  noEdgeTo d l → insertedList l d w = l ++ [mkEdgeNode d w].
Proof.
  intros Hno. destruct l as [|current rest]; [done|]. unfold insertedList.
  destruct (exists_last (l := current :: rest)) as (l0 & last & Hl); [done|].
  rewrite Hl in Hno. apply Forall_app in Hno as [Hno _].
  rewrite (insertWalk_append l0 last d w Hno current rest Hl), Hl.
  by rewrite <- app_assoc.
Qed.

(** X6: when the list of [src] holds no node for [dst], [insertEdge(src,
    dst, w)] with [w >= 0] followed by [removeEdge(src, dst)] gives back
    the graph exactly as it was. *)
Theorem insertEdge_removeEdge_roundtrip g src dst w v b g1 :
  0 ≤ w → lookupZ (vertices g) src = Some v → noEdgeTo dst (edgeHead v) →
  insertEdge g src dst w = Some (b, g1) →
  removeEdge g1 src dst = Some (true, g).
Proof.
  intros Hw Hv Hno Hrun. rewrite (insertEdge_stores g src dst w v Hw Hv) in Hrun.
  injection Hrun as <- <-. rewrite (insertedList_fresh _ _ _ Hno).
  erewrite removeEdge_unfold; [|simpl; apply lookupZ_insert_eq; eauto].
  simpl. rewrite removeWalk_first by done. rewrite app_nil_r.
  do 2 f_equal. unfold setVertices, setEdgeHead. simpl.
  rewrite list_insert_insert_eq.
  apply lookupZ_Some in Hv as [_ Hv]. rewrite list_insert_id; [by destruct g|].
  rewrite Hv. by destruct v.
Qed.

Lemma insertEdge_removeEdge_roundtrip_witness :
  ∃ g1, insertEdge oneEdgeGraph 1 3 4 = Some (true, g1) ∧
        removeEdge g1 1 3 = Some (true, oneEdgeGraph).
Proof.
  destruct (insertEdge oneEdgeGraph 1 3 4) as [[b g1]|] eqn:Hrun;
    [|by vm_compute in Hrun].
  assert (b = true) as -> by (vm_compute in Hrun; congruence).
  exists g1. split; [reflexivity|].
  apply (insertEdge_removeEdge_roundtrip oneEdgeGraph 1 3 4
           (mkVertexNode [mkEdgeNode 2 5] (Some (Vertex.mk EmptyString))) true g1).
  - lia.
  - reflexivity.
  - repeat constructor. simpl. lia.
  - exact Hrun.
Defined.

(** ** At most two nodes for a destination *)

Lemma countTo_cons d a l :
  countTo d (a :: l) =
    ((if decide (adjVertex a = d) then 1 else 0) + countTo d l)%nat.
Proof.
  unfold countTo. destruct (decide (adjVertex a = d)).
  - by rewrite filter_cons_True.
  - by rewrite filter_cons_False.
Qed.

(** The walk of [insertEdge] keeps the number of nodes for every
    destination, but for [d] itself when only the last node can lead to
    it: then there is one more. *)
Lemma insertWalk_count rest d w x :
  ∀ current,
    countTo x (insertWalk current rest d w) = countTo x (current :: rest) ∨
    (x = d ∧ (countTo d (current :: rest) ≤ 1)%nat ∧
     countTo d (insertWalk current rest d w) =
       Datatypes.S (countTo d (current :: rest))).
Proof.
  induction rest as [|next rest IH]; intros current; simpl.
  - destruct (decide (x = d)) as [->|Hne].
    + right. split; [done|]. rewrite !countTo_cons. unfold countTo. simpl.
      destruct (decide (adjVertex current = d)), (decide (d = d)); done || lia.
    + left. rewrite !countTo_cons. simpl.
      destruct (decide (d = x)); [congruence|]. done.
  - destruct (Z.eqb_spec (adjVertex current) d) as [Hc|Hc].
    + left. rewrite !(countTo_cons x _ (next :: rest)). simpl. by rewrite Hc.
    + destruct (IH next) as [Heq|(-> & Hle & Heq)].
      * left. rewrite !(countTo_cons x current). by rewrite Heq.
      * right. split; [done|]. rewrite !(countTo_cons d current).
        destruct (decide (adjVertex current = d)); [done|]. simpl.
        split; [done|]. by rewrite Heq.
Qed.

Lemma insertedList_count l d w x :
  (countTo x l ≤ 2)%nat → (countTo x (insertedList l d w) ≤ 2)%nat.
Proof.
  destruct l as [|current rest]; simpl; intros Hle.
  - rewrite countTo_cons. unfold countTo. simpl.
    destruct (decide (d = x)); lia.
  - destruct (insertWalk_count rest d w x current) as [->|(-> & ? & ->)]; lia.
Qed.

Lemma removeWalk_count d x :
  ∀ l l', removeWalk l d = Some l' → (countTo x l' ≤ countTo x l)%nat.
Proof.
  induction l as [|c l IH]; intros l' Hrun; simpl in Hrun; [done|].
  rewrite countTo_cons. destruct (adjVertex c =? d).
  - injection Hrun as <-. lia.
  - destruct (removeWalk l d) as [l0|]; [|done]. simpl in Hrun.
    injection Hrun as <-. rewrite countTo_cons. specialize (IH l0 eq_refl). lia.
Qed.

Lemma atMostTwo_update g i v l :
  atMostTwo g → lookupZ (vertices g) i = Some v →
  (∀ d, (countTo d l ≤ 2)%nat) →
  atMostTwo (setVertices g (<[Z.to_nat i := setEdgeHead v l]> (vertices g))).
Proof.
  intros Hg Hv Hl j vn d Hvn. simpl in Hvn.
  destruct (decide (j = i)) as [->|Hne].
  - rewrite lookupZ_insert_eq in Hvn by eauto. injection Hvn as <-. apply Hl.
  - rewrite lookupZ_insert_ne in Hvn by eauto. by apply (Hg j).
Qed.

Lemma insertEdge_keeps_atMostTwo g src dst w b g' :
  atMostTwo g → insertEdge g src dst w = Some (b, g') → atMostTwo g'.
Proof.
  intros Hg Hrun. destruct (Z.lt_ge_cases w 0) as [Hw|Hw].
  { rewrite insertEdge_negative in Hrun by done. by injection Hrun as <- <-. }
  destruct (lookupZ (vertices g) src) as [v|] eqn:Hv.
  - rewrite (insertEdge_stores g src dst w v) in Hrun by (done || lia).
    injection Hrun as <- <-. apply atMostTwo_update; [done|done|].
    intros d. apply insertedList_count. by apply (Hg src).
  - unfold insertEdge in Hrun. destruct (w <? 0); [by injection Hrun as <- <-|].
    by rewrite Hv in Hrun.
Qed.

Lemma removeEdge_keeps_atMostTwo g src dst b g' :
  atMostTwo g → removeEdge g src dst = Some (b, g') → atMostTwo g'.
Proof.
  intros Hg Hrun.
  destruct (lookupZ (vertices g) src) as [v|] eqn:Hv;
    [|by unfold removeEdge in Hrun; rewrite Hv in Hrun].
  rewrite (removeEdge_unfold g src dst v Hv) in Hrun.
  destruct (removeWalk (edgeHead v) dst) as [l'|] eqn:Hw; injection Hrun as <- <-;
    [|done].
  apply atMostTwo_update; [done|done|]. intros d.
  pose proof (removeWalk_count dst d _ _ Hw). pose proof (Hg src v d Hv). lia.
Qed.

Lemma newGraph_atMostTwo T0 : atMostTwo (newGraph T0).
Proof.
  intros i vn d [_ Hvn]%lookupZ_Some.
  apply lookup_replicate in Hvn as [-> _]. simpl. unfold countTo. simpl. lia.
Qed.

(** * Safety of the computation *)

(** X11: the subscripts [1..size] must fit the table: with [size] beyond
    [MAX_VERTICES - 1] the computation reads outside [T] and is
    undefined, whatever the edges. *)
Theorem findShortestPath_out_of_bounds g :
  MAX_VERTICES ≤ size g → findShortestPath g = None.
Proof.
  intros Hsize. destruct (findShortestPath g) as [g'|] eqn:Hrun; [|done].
  apply findShortestPath_size in Hrun. lia.
Qed.

Lemma findShortestPath_out_of_bounds_witness :
  findShortestPath (blankGraph 101) = None.
Proof. apply findShortestPath_out_of_bounds. simpl. unfold MAX_VERTICES. lia. Defined.

(** X12: an edge just inserted bounds the distance: after [insertEdge(s, d,
    w)] with [w >= 0] between two vertices of [1..size] and a new
    computation, [T[s][d].dist] is at most [w]. *)
Theorem insertEdge_then_findShortestPath g s d w b g1 g2 :
  nonNegativeWeights g → 0 ≤ w → 1 ≤ s ≤ size g → 1 ≤ d ≤ size g →
  insertEdge g s d w = Some (b, g1) → findShortestPath g1 = Some g2 →
  ∃ e, getT (T g2) s d = Some e ∧ dist e ≤ w.
Proof.
  intros Hnn Hw Hs Hd Hins Hrun.
  pose proof (insertEdge_keeps_nonNegative g s d w b g1 Hnn Hins) as Hnn1.
  destruct (lookupZ (vertices g) s) as [v|] eqn:Hv.
  2:{ unfold insertEdge in Hins. destruct (Z.ltb_spec w 0); [lia|].
      by rewrite Hv in Hins. }
  rewrite (insertEdge_stores g s d w v Hw Hv) in Hins. injection Hins as <- <-.
  apply (findShortestPath_chain_dist_le _ g2 s [s; d] (0 + w) d Hrun Hnn1).
  - apply (chain_step _ s [] s d 0 w); [constructor|].
    eexists. split; [simpl; apply lookupZ_insert_eq; eauto|].
    simpl. apply insertedList_spec.
  - repeat constructor; simpl; lia.
  - done.
Qed.

Lemma insertEdge_then_findShortestPath_witness :
  ∃ g1 g2 e, insertEdge scenarioGraph 3 1 4 = Some (true, g1) ∧
             findShortestPath g1 = Some g2 ∧
             getT (T g2) 3 1 = Some e ∧ dist e ≤ 4.
Proof.
  destruct (insertEdge scenarioGraph 3 1 4) as [[b g1]|] eqn:Hins;
    [|by vm_compute in Hins].
  assert (b = true) as -> by (vm_compute in Hins; congruence).
  destruct (findShortestPath g1) as [g2|] eqn:Hrun.
  2:{ vm_compute in Hins. injection Hins as <-. by vm_compute in Hrun. }
  destruct (insertEdge_then_findShortestPath scenarioGraph 3 1 4 true g1 g2)
    as (e & He & Hle).
  - apply nonNegativeWeightsb_sound. vm_compute. reflexivity.
  - lia.
  - simpl. lia.
  - simpl. lia.
  - exact Hins.
  - exact Hrun.
  - exists g1, g2, e. split; [reflexivity|]. split; [exact Hrun|].
    split; [exact He|exact Hle].
Defined.

(** * What is printed *)

(** ** The recursion of printPath ends *)

Lemma printPath_row g t s d e :
  rowDone g t s → getT t s d = Some e →
  ∃ p, printPath (Datatypes.S (Z.to_nat (size g))) t s d = Some p ∧
       ((dist e < INT_MAX ∧ chain g s p (dist e) ∧ last p = Some d) ∨
        (dist e = INT_MAX ∧ p = [])).
Proof.
  intros Hrow He. destruct (Z.lt_ge_cases (dist e) INT_MAX) as [Hfin|Hinf].
  - destruct (printPath_finite g s t d e Hrow He Hfin) as (p & Hp & Hc).
    exists (p ++ [d]). split.
    + apply (printPath_mono t s _ _ _ Hp). lia.
    + left. split; [done|]. split; [done|]. by rewrite last_snoc.
  - destruct Hrow as (k & rank & _ & Hinv).
    destruct (inv_bound _ _ _ _ _ Hinv d e He) as (Hmax & Hiff & _).
    exists []. split; [|right; split; [lia|done]].
    apply (printPath_no_path _ t s d e He).
    destruct (decide (path e = 0)) as [|Hp]; [done|]. apply Hiff in Hp. lia.
Qed.

(** ** printLocationDescriptions follows printPath *)

Lemma printLocationDescriptions_step f g s d e :
  getT (T g) s d = Some e →
  printLocationDescriptions (Datatypes.S f) g s d =
    if 0 <? path e then
      before ← (if negb (s =? d) then printLocationDescriptions f g s (path e)
                else Some []);
      v ← label g d;
      Some (before ++ printVertex v ++ [OutEndl])
    else Some [].
Proof. intros He. simpl. by rewrite He. Qed.

Lemma descriptionsOut_snoc ls l :
  descriptionsOut (ls ++ [l]) = descriptionsOut ls ++ printVertex l ++ [OutEndl].
Proof.
  unfold descriptionsOut. by rewrite bind_app.
Qed.

Lemma printLocationDescriptions_labelled g s :
  ∀ fuel d p ls,
    printPath fuel (T g) s d = Some p →
    Forall2 (λ v l, label g v = Some l) p ls →
    printLocationDescriptions fuel g s d = Some (descriptionsOut ls).
Proof.
  induction fuel as [|fuel IH]; intros d p ls Hp Hls; [done|].
  pose proof Hp as Hp0. simpl in Hp0.
  destruct (getT (T g) s d) as [e|] eqn:He; [|done]. clear Hp0.
  rewrite (printPath_step fuel _ s d e He) in Hp.
  rewrite (printLocationDescriptions_step fuel g s d e He).
  destruct (0 <? path e).
  2:{ injection Hp as <-. by apply Forall2_nil_inv_l in Hls as ->. }
  destruct (negb (s =? d)).
  - destruct (printPath fuel (T g) s (path e)) as [q|] eqn:Hq; [|done].
    simpl in Hp. injection Hp as <-.
    apply Forall2_app_inv_l in Hls as (ls1 & ls2 & Hls1 & Hls2 & ->).
    apply Forall2_cons_inv_l in Hls2 as (l & ls3 & Hl & Hnil & ->).
    apply Forall2_nil_inv_l in Hnil as ->.
    rewrite (IH _ q ls1 Hq Hls1). simpl. rewrite Hl. simpl.
    by rewrite descriptionsOut_snoc.
  - injection Hp as <-.
    apply Forall2_cons_inv_l in Hls as (l & ls3 & Hl & Hnil & ->).
    apply Forall2_nil_inv_l in Hnil as ->.
    simpl. rewrite Hl. simpl. done.
Qed.

Lemma printLocationDescriptions_null g s :
  ∀ fuel d p v,
    printPath fuel (T g) s d = Some p → v ∈ p → label g v = None →
    printLocationDescriptions fuel g s d = None.
Proof.
  induction fuel as [|fuel IH]; intros d p v Hp Hv Hnull; [done|].
  pose proof Hp as Hp0. simpl in Hp0.
  destruct (getT (T g) s d) as [e|] eqn:He; [|done]. clear Hp0.
  rewrite (printPath_step fuel _ s d e He) in Hp.
  rewrite (printLocationDescriptions_step fuel g s d e He).
  destruct (0 <? path e).
  2:{ injection Hp as <-. by apply elem_of_nil in Hv. }
  destruct (negb (s =? d)).
  - destruct (printPath fuel (T g) s (path e)) as [q|] eqn:Hq; [|done].
    simpl in Hp. injection Hp as <-.
    apply elem_of_app in Hv as [Hv|Hv%list_elem_of_singleton].
    + by rewrite (IH _ q v Hq Hv Hnull).
    + subst v. rewrite Hnull.
      by destruct (printLocationDescriptions fuel g s (path e)).
  - injection Hp as <-. apply list_elem_of_singleton in Hv as ->.
    simpl. by rewrite Hnull.
Qed.

(** X13: [printLocationDescriptions(s, d)] prints one line for each vertex
    that [printPath(s, d)] prints, in the same order: the label of that
    vertex.  If one of these vertices has no label (a null [data]
    pointer), the call is undefined. *)
Theorem printLocationDescriptions_follows_printPath g s d fuel p :
  printPath fuel (T g) s d = Some p →
  (∀ ls, Forall2 (λ v l, label g v = Some l) p ls →
         printLocationDescriptions fuel g s d = Some (descriptionsOut ls)) ∧
  (∀ v, v ∈ p → label g v = None →
        printLocationDescriptions fuel g s d = None).
Proof.
  intros Hp. split.
  - intros ls. by apply printLocationDescriptions_labelled.
  - intros v. by apply printLocationDescriptions_null.
Qed.

Lemma printLocationDescriptions_follows_printPath_witness :
  ∃ g', findShortestPath scenarioGraph = Some g' ∧
        printLocationDescriptions 3 g' 1 3 =
          Some [OutStr "A"; OutEndl; OutStr "B"; OutEndl; OutStr "C"; OutEndl].
Proof.
  destruct (findShortestPath scenarioGraph) as [g'|] eqn:Hrun;
    [|by vm_compute in Hrun].
  pose proof Hrun as Hval. vm_compute in Hval. injection Hval as <-.
  eexists. split; [reflexivity|].
  refine (proj1 (printLocationDescriptions_follows_printPath _ 1 3 3 [1; 2; 3] _)
            [Vertex.mk "A"; Vertex.mk "B"; Vertex.mk "C"] _).
  - vm_compute. reflexivity.
  - repeat constructor.
Defined.

(** ** display *)

Lemma labels_along g (p : list Z) :
  Forall (λ v, is_Some (label g v)) p →
  ∃ ls, Forall2 (λ v l, label g v = Some l) p ls.
Proof.
  induction 1 as [|v p [l Hl] _ [ls IH]]; [by exists []|].
  exists (l :: ls). by constructor.
Qed.

Lemma findShortestPath_label g g' i :
  findShortestPath g = Some g' → label g' i = label g i.
Proof.
  intros Hrun. destruct (findShortestPath_rows g g' Hrun) as (Hv & _).
  unfold label. by rewrite Hv.
Qed.

Lemma findShortestPath_callDepth g g' :
  findShortestPath g = Some g' → callDepth g' = callDepth g.
Proof.
  intros Hrun. destruct (findShortestPath_rows g g' Hrun) as (_ & Hs & _).
  unfold callDepth. by rewrite Hs.
Qed.

(** What [printPath] and the table give for a pair of vertices after the
    computation. *)
Lemma findShortestPath_pair g g' s d :
  findShortestPath g = Some g' → 1 ≤ s ≤ size g → 1 ≤ d ≤ size g →
  ∃ e p, getT (T g') s d = Some e ∧
         printPath (callDepth g') (T g') s d = Some p ∧
         inGraph g p ∧
         ((dist e < INT_MAX ∧ chain g s p (dist e) ∧ last p = Some d) ∨
          (dist e = INT_MAX ∧ p = [])).
Proof.
  intros Hrun Hs Hd.
  destruct (findShortestPath_entry g g' s d Hrun Hs Hd) as [e He].
  destruct (findShortestPath_rows g g' Hrun) as (_ & _ & Hrows).
  destruct (printPath_row g (T g') s d e (Hrows s Hs) He) as (p & Hp & Hcase).
  exists e, p. rewrite (findShortestPath_callDepth g g' Hrun).
  split; [done|]. split; [done|]. split; [|done].
  by apply (printPath_inGraph g s (T g') d p _ (Hrows s Hs) Hd Hp).
Qed.

(** X14: after the computation [display(s, d)] prints, for two vertices of
    a graph whose vertices all have a label, [s], [d], then either the
    distance, a path from [s] to [d] of that weight and the labels of the
    vertices of the path in order, or two dashes and neither path nor
    label; the object is left with the table just computed. *)
Theorem display_result g g' s d :
  findShortestPath g = Some g' →
  1 ≤ s ≤ size g → 1 ≤ d ≤ size g →
  (∀ i, 1 ≤ i ≤ size g → is_Some (label g i)) →
  ∃ e p ls,
    display g s d =
      Some (g', [OutInt s; OutSetw 6; OutInt d] ++ distOut e ++ [OutSetw 6] ++
                pathOut p ++ [OutEndl] ++ descriptionsOut ls) ∧
    getT (T g') s d = Some e ∧
    Forall2 (λ v l, label g v = Some l) p ls ∧
    ((dist e < INT_MAX ∧ distOut e = [OutSetw 6; OutInt (dist e)] ∧
      chain g s p (dist e) ∧ last p = Some d) ∨
     (dist e = INT_MAX ∧ distOut e = [OutSetw 6; OutStr "--"] ∧ p = [])).
Proof.
  intros Hrun Hs Hd Hlab.
  destruct (findShortestPath_pair g g' s d Hrun Hs Hd) as (e & p & He & Hp & Hin & Hcase).
  destruct (labels_along g p) as [ls Hls].
  { eapply Forall_impl; [exact Hin|]. intros v Hv. by apply Hlab. }
  exists e, p, ls. split; [|split; [done|split; [done|]]].
  - unfold display. rewrite Hrun. cbn [mbind option_bind].
    rewrite He. cbn [mbind option_bind]. rewrite Hp. cbn [mbind option_bind].
    rewrite (printLocationDescriptions_labelled g' s _ d p ls Hp); [done|].
    eapply Forall2_impl; [exact Hls|]. intros v l Hl.
    by rewrite (findShortestPath_label g g' v Hrun).
  - unfold distOut.
    destruct Hcase as [(Hfin & Hc & Hl)|(Hinf & ->)]; [left|right].
    + by destruct (Z.ltb_spec (dist e) INT_MAX); [|lia].
    + by destruct (Z.ltb_spec (dist e) INT_MAX); [lia|].
Qed.

Lemma display_result_witness :
  ∃ g' e p ls,
    display scenarioGraph 1 3 =
      Some (g', [OutInt 1; OutSetw 6; OutInt 3] ++ distOut e ++ [OutSetw 6] ++
                pathOut p ++ [OutEndl] ++ descriptionsOut ls) ∧
    getT (T g') 1 3 = Some e ∧
    Forall2 (λ v l, label scenarioGraph v = Some l) p ls.
Proof.
  destruct (findShortestPath scenarioGraph) as [g'|] eqn:Hrun;
    [|by vm_compute in Hrun].
  destruct (display_result scenarioGraph g' 1 3 Hrun)
    as (e & p & ls & Hd & He & Hls & _); [simpl; lia|simpl; lia| |].
  - intros i Hi. simpl in Hi.
    assert (i = 1 ∨ i = 2 ∨ i = 3) as [ -> |[ -> | -> ]] by lia; vm_compute; eauto.
  - exists g', e, p, ls. split; [exact Hd|]. split; [exact He|exact Hls].
Defined.

(** ** displayAll *)

(** A loop one of whose passes is undefined is undefined. *)
Lemma forZ_fail {S} (body : Z → S → option S) n :
  ∀ lo s i, lo ≤ i < lo + Z.of_nat n → (∀ x, body i x = None) →
            forZ n lo body s = None.
Proof.
  induction n as [|n IH]; intros lo s i Hi Hnone; simpl; [lia|].
  destruct (decide (i = lo)) as [->|Hne]; [by rewrite Hnone|].
  destruct (body lo s) as [s1|]; [|done]. simpl.
  apply (IH _ _ i); [lia|done].
Qed.

Lemma forRange_fail {S} (body : Z → S → option S) lo hi s i :
  lo ≤ i ≤ hi → (∀ x, body i x = None) → forRange lo hi body s = None.
Proof.
  intros Hi Hnone. unfold forRange. apply (forZ_fail _ _ _ _ i); [lia|done].
Qed.

Lemma displayRow_defined g g' i out :
  findShortestPath g = Some g' → 1 ≤ i ≤ size g →
  is_Some (label g i) → is_Some (displayRow g' i out).
Proof.
  intros Hrun Hi [v Hv]. unfold displayRow.
  rewrite (findShortestPath_label g g' i Hrun), Hv. cbn [mbind option_bind].
  destruct (findShortestPath_rows g g' Hrun) as (_ & Hsize & _).
  destruct (forRange_total (λ _ _, True) (displayPair g' i) 1 (size g')
              (out ++ printVertex v ++ [OutEndl])) as (out' & -> & _);
    [lia|done| |by eexists].
  intros j x Hj _. unfold displayPair. destruct (negb (i =? j)); [|by eexists].
  destruct (findShortestPath_pair g g' i j Hrun) as (e & p & He & Hp & _);
    [lia|lia|].
  unfold pairLine. rewrite He. cbn [mbind option_bind]. rewrite Hp.
  cbn [mbind option_bind]. by eexists.
Qed.

Lemma displayAll_computes g g' out :
  displayAll g = Some (g', out) → findShortestPath g = Some g'.
Proof.
  unfold displayAll. destruct (findShortestPath g) as [g1|]; [|done].
  cbn [mbind option_bind].
  destruct (forRange 1 (size g1) (displayRow g1) displayHeader); [|done].
  cbn [mbind option_bind]. by intros [= <- _].
Qed.

(** X15: on a well-formed graph [displayAll] is defined exactly when every
    vertex [1..size] has a label: it prints the label of each, so a null
    [data] pointer is dereferenced otherwise.  When defined it leaves the
    object with the table [findShortestPath] computes. *)
Theorem displayAll_defined W g :
  wellFormed W g →
  (is_Some (displayAll g) ↔ ∀ i, 1 ≤ i ≤ size g → is_Some (label g i)) ∧
  (∀ g' out, displayAll g = Some (g', out) → findShortestPath g = Some g').
Proof.
  intros Hwf. split; [|apply displayAll_computes].
  destruct (findShortestPath_defined W g Hwf) as [g' Hrun].
  destruct (findShortestPath_rows g g' Hrun) as (_ & Hsize & _).
  unfold displayAll. rewrite Hrun. cbn [mbind option_bind]. rewrite Hsize.
  split.
  - intros Hdef i Hi. destruct (label g i) as [v|] eqn:Hv; [by eexists|exfalso].
    rewrite (forRange_fail _ 1 (size g) _ i) in Hdef; [by destruct Hdef|done|].
    intros x. unfold displayRow.
    by rewrite (findShortestPath_label g g' i Hrun), Hv.
  - intros Hlab.
    destruct (forRange_total (λ _ _, True) (displayRow g') 1 (size g)
                displayHeader) as (out & -> & _); [|done| |by eexists].
    + destruct Hwf as (? & _). lia.
    + intros i x Hi _.
      destruct (displayRow_defined g g' i x Hrun Hi (Hlab i Hi)) as [y Hy].
      by exists y.
Qed.

Lemma displayAll_defined_witness :
  is_Some (displayAll scenarioGraph) ↔
  ∀ i, 1 ≤ i ≤ 3 → is_Some (label scenarioGraph i).
Proof. exact (proj1 (displayAll_defined 10 scenarioGraph scenarioGraph_wellFormed)). Defined.

(** * buildGraph *)

Lemma buildGraph_scenario :
  buildGraph 4 (newGraph initTable) scenarioFile = Some (scenarioGraph, []).
Proof. vm_compute. reflexivity. Qed.

Lemma insertEdge_frame g src dst w b g' :
  insertEdge g src dst w = Some (b, g') →
  size g' = size g ∧ T g' = T g ∧
  length (vertices g') = length (vertices g) ∧
  ∀ i, label g' i = label g i.
Proof.
  intros Hrun. unfold insertEdge in Hrun.
  destruct (w <? 0); [by injection Hrun as <- <-|].
  destruct (lookupZ (vertices g) src) as [v|] eqn:Hv; [|done]. simpl in Hrun.
  rewrite storeZ_total in Hrun by eauto. simpl in Hrun. injection Hrun as <- <-.
  simpl. split; [done|]. split; [done|]. split; [apply length_insert|].
  intros i. unfold label. simpl. destruct (decide (i = src)) as [->|Hne].
  - rewrite lookupZ_insert_eq by eauto. by rewrite Hv.
  - rewrite lookupZ_insert_ne by eauto. done.
Qed.

Section BuildGraph.
Context {S : Type} `{!IStream S}.

(** What every [insertEdge] keeps, the loop that reads the edges keeps. *)
Lemma readEdges_inv (P : Graph → Prop) :
  (∀ g src dst w b g', P g → insertEdge g src dst w = Some (b, g') → P g') →
  ∀ fuel g (s : S) a b c g' s',
    P g → readEdges fuel g s a b c = Some (g', s') → P g'.
Proof.
  intros Hstep. induction fuel as [|fuel IH]; intros g s a b c g' s' HP Hrun; [done|].
  simpl in Hrun.
  destruct ((fst (readInt s a) =? 0) || eof _); [by injection Hrun as <- <-|].
  destruct (insertEdge g _ _ _) as [[b1 g1]|] eqn:Hins; [|done]. simpl in Hrun.
  eapply IH; [|exact Hrun]. by eapply Hstep.
Qed.

(** The loop that reads the descriptions. *)
Lemma readDescriptions_result vs (s : S) n vs' s' :
  forRange 1 n readDescription (vs, s) = Some (vs', s') →
  length vs' = length vs ∧
  (∀ i, 1 ≤ i ≤ n →
        ∃ name, lookupZ vs' i = Some (mkVertexNode [] (Some name))) ∧
  (∀ i, ¬ (1 ≤ i ≤ n) → lookupZ vs' i = lookupZ vs i).
Proof.
  intros Hrun. destruct (Z.le_gt_cases 1 (n + 1)) as [Hn|Hn].
  - pose (P := λ (j : Z) (x : list VertexNode * S),
               length (fst x) = length vs ∧
               (∀ i, 1 ≤ i < j →
                     ∃ name, lookupZ (fst x) i = Some (mkVertexNode [] (Some name))) ∧
               (∀ i, ¬ (1 ≤ i < j) → lookupZ (fst x) i = lookupZ vs i)).
    assert (P (n + 1) (vs', s')) as (H0 & H1 & H2).
    { eapply (forRange_inv P _ 1 n (vs, s) (vs', s')); [exact Hn| | |exact Hrun].
      - split; [done|]. split; [lia|done].
      - intros j [x sx] [y sy] Hj (Hx0 & Hx1 & Hx2) Hb. unfold P. simpl in *.
        unfold readDescription in Hb. simpl in Hb.
        destruct (storeZ x j _) as [x'|] eqn:Hst; [|done]. simpl in Hb.
        injection Hb as <- <-. simpl. split; [|split].
        + by rewrite (storeZ_length _ _ _ _ Hst).
        + intros i Hi. destruct (decide (i = j)) as [->|Hne].
          * eexists. by eapply lookupZ_storeZ_eq.
          * rewrite (lookupZ_storeZ_ne _ _ _ _ _ Hst Hne). apply Hx1. lia.
        + intros i Hi. rewrite (lookupZ_storeZ_ne _ _ i _ _ Hst) by lia.
          apply Hx2. lia. }
    simpl in *. split; [done|]. split; intros i Hi; [apply H1|apply H2]; lia.
  - rewrite forRange_empty in Hrun by lia. injection Hrun as <- <-.
    split; [done|]. split; [lia|done].
Qed.

(** [buildGraph] taken apart: end of file right after the size, or the
    descriptions and then the edges. *)
Lemma buildGraph_cases fuel g (s : S) g' s' :
  buildGraph fuel g s = Some (g', s') →
  let n := fst (readInt s (size g)) in
  (eof (snd (readInt s (size g))) = true ∧
   g' = mkGraph (vertices g) n (T g)) ∨
  (eof (snd (readInt s (size g))) = false ∧
   ∃ vs s1 a b c,
     length vs = length (vertices g) ∧
     (∀ i, 1 ≤ i ≤ n →
           ∃ name, lookupZ vs i = Some (mkVertexNode [] (Some name))) ∧
     (∀ i, ¬ (1 ≤ i ≤ n) → lookupZ vs i = lookupZ (vertices g) i) ∧
     readEdges fuel (mkGraph vs n (T g)) s1 a b c = Some (g', s')).
Proof.
  intros Hrun n. unfold buildGraph in Hrun. fold n in Hrun.
  destruct (eof (snd (readInt s (size g)))); [left; by injection Hrun as <- <-|].
  right. split; [done|].
  destruct (forRange 1 n readDescription _) as [[vs s1]|] eqn:Hloop; [|done].
  simpl in Hrun.
  destruct (readDescriptions_result _ _ _ _ _ Hloop) as (H0 & H1 & H2).
  exists vs, s1, 1, 1, 1. done.
Qed.

Lemma buildGraph_inv (P : Graph → Prop) fuel g (s : S) g' s' :
  (∀ g src dst w b g', P g → insertEdge g src dst w = Some (b, g') → P g') →
  (∀ n vs, (∀ i vn, lookupZ vs i = Some vn →
                    edgeHead vn = [] ∨ lookupZ (vertices g) i = Some vn) →
           length vs = length (vertices g) →
           P (mkGraph vs n (T g))) →
  buildGraph fuel g s = Some (g', s') → P g'.
Proof.
  intros Hins Hreset Hrun.
  destruct (buildGraph_cases fuel g s g' s' Hrun)
    as [(_ & ->)|(_ & vs & s1 & a & b & c & H0 & H1 & H2 & Hedges)].
  - apply Hreset; [|done]. intros i vn Hvn. by right.
  - eapply (readEdges_inv P Hins); [|exact Hedges].
    apply Hreset; [|done]. intros i vn Hvn.
    destruct (decide (1 ≤ i ≤ fst (readInt s (size g)))) as [Hi|Hi].
    + destruct (H1 i Hi) as [name Hname]. left.
      rewrite Hname in Hvn. by injection Hvn as <-.
    + right. by rewrite <- H2.
Qed.

(** X16: a call of [buildGraph] that returns sets [size] to the number
    read first and leaves the table alone.  When the end of the file is
    met right after that number nothing else changes.  Otherwise the
    vertices [1..size] all get a label and lie inside the array (the call
    is undefined for a larger [size]), and the other slots keep their
    label. *)
Theorem buildGraph_result fuel g (s : S) g' s' :
  buildGraph fuel g s = Some (g', s') →
  size g' = fst (readInt s (size g)) ∧ T g' = T g ∧
  length (vertices g') = length (vertices g) ∧
  (eof (snd (readInt s (size g))) = true → vertices g' = vertices g) ∧
  (eof (snd (readInt s (size g))) = false →
     (0 < size g' → size g' < Z.of_nat (length (vertices g))) ∧
     (∀ i, 1 ≤ i ≤ size g' → is_Some (label g' i)) ∧
     (∀ i, ¬ (1 ≤ i ≤ size g') → label g' i = label g i)).
Proof.
  intros Hrun.
  destruct (buildGraph_cases fuel g s g' s' Hrun)
    as [(Heof & ->)|(Heof & vs & s1 & a & b & c & H0 & H1 & H2 & Hedges)].
  - simpl. do 4 (split; [done|]). congruence.
  - set (n := fst (readInt s (size g))) in *.
    assert (size g' = n ∧ T g' = T g ∧ length (vertices g') = length vs ∧
            ∀ i, label g' i = label (mkGraph vs n (T g)) i) as (Hs & HT & Hl & Hlab).
    { refine (readEdges_inv
               (λ x, size x = n ∧ T x = T g ∧ length (vertices x) = length vs ∧
                     ∀ i, label x i = label (mkGraph vs n (T g)) i)
               _ fuel _ s1 a b c g' s' _ Hedges); [|done].
      intros x src dst w b1 x' (Hxs & HxT & Hxl & Hxlab) Hins.
      destruct (insertEdge_frame x src dst w b1 x' Hins) as (E1 & E2 & E3 & E4).
      split; [congruence|]. split; [congruence|]. split; [congruence|].
      intros i. by rewrite E4. }
    split; [done|]. split; [done|]. split; [congruence|].
    split; [congruence|]. intros _. rewrite Hs. split; [|split].
    + intros Hpos. destruct (H1 n) as [name Hname]; [lia|].
      apply lookupZ_range in Hname. lia.
    + intros i Hi. rewrite Hlab. unfold label. simpl.
      destruct (H1 i Hi) as [name ->]. by eexists.
    + intros i Hi. rewrite Hlab. unfold label. simpl. by rewrite H2.
Qed.

End BuildGraph.

Lemma buildGraph_result_witness :
  ∃ g' s', buildGraph 4 (newGraph initTable) scenarioFile = Some (g', s') ∧
           size g' = 3 ∧ ∀ i, 1 ≤ i ≤ size g' → is_Some (label g' i).
Proof.
  destruct (buildGraph 4 (newGraph initTable) scenarioFile) as [[g' s']|] eqn:Hrun;
    [|by vm_compute in Hrun].
  destruct (buildGraph_result 4 (newGraph initTable) scenarioFile g' s' Hrun)
    as (Hsize & _ & _ & _ & Hlab).
  destruct Hlab as (_ & Hlab & _); [reflexivity|].
  exists g', s'. split; [reflexivity|]. split; [exact Hsize|exact Hlab].
Defined.

(** * The states of an object *)

Lemma nonNegativeWeights_reset g n vs :
  nonNegativeWeights g →
  (∀ i vn, lookupZ vs i = Some vn →
           edgeHead vn = [] ∨ lookupZ (vertices g) i = Some vn) →
  nonNegativeWeights (mkGraph vs n (T g)).
Proof.
  intros Hnn Hvs u x w (vn & Hvn & Hin). simpl in Hvn.
  destruct (Hvs u vn Hvn) as [Hnil|Hold].
  - rewrite Hnil in Hin. by apply elem_of_nil in Hin.
  - apply (Hnn u x w). by exists vn.
Qed.

Lemma atMostTwo_reset g n vs :
  atMostTwo g →
  (∀ i vn, lookupZ vs i = Some vn →
           edgeHead vn = [] ∨ lookupZ (vertices g) i = Some vn) →
  atMostTwo (mkGraph vs n (T g)).
Proof.
  intros Hg Hvs i vn d Hvn. simpl in Hvn.
  destruct (Hvs i vn Hvn) as [->|Hold].
  - unfold countTo. simpl. lia.
  - by apply (Hg i).
Qed.

Lemma clearGraph_reset g g' :
  clearGraph g = Some g' →
  ∃ vs, g' = mkGraph vs (size g) (T g) ∧
        length vs = length (vertices g) ∧
        ∀ i vn, lookupZ vs i = Some vn →
                edgeHead vn = [] ∨ lookupZ (vertices g) i = Some vn.
Proof.
  unfold clearGraph. destruct (0 <? size g).
  - destruct (forRange 1 (size g) clearSlot (vertices g)) as [vs|] eqn:Hrun; [|done].
    simpl. intros [= <-]. exists vs. split; [done|].
    destruct (clearSlots_result _ _ _ Hrun) as [H1 H2]. split.
    + assert (∀ n lo (x y : list VertexNode),
                forZ n lo clearSlot x = Some y → length y = length x) as Hlen.
      { induction n as [|n IH]; intros lo x y Hxy; simpl in Hxy.
        - by injection Hxy as <-.
        - destruct (clearSlot lo x) as [x1|] eqn:Hc; [|done]. simpl in Hxy.
          rewrite (IH _ _ _ Hxy). by apply storeZ_length in Hc. }
      by apply Hlen in Hrun.
    + intros i vn Hvn. destruct (decide (1 ≤ i ≤ size g)) as [Hi|Hi].
      * rewrite (H1 i Hi) in Hvn. injection Hvn as <-. by left.
      * right. by rewrite <- (H2 i Hi).
  - intros [= <-]. exists (vertices g). split; [by destruct g|]. split; [done|].
    intros i vn Hvn. by right.
Qed.

(** X9: whatever sequence of [buildGraph], [insertEdge], [removeEdge],
    [clearGraph] and [findShortestPath] calls a default-constructed object
    has gone through, no edge of it has a negative weight, none of its
    lists holds more than two nodes for the same destination, and its
    array has [MAX_VERTICES] slots. *)
Theorem built_invariants g :
  built g →
  nonNegativeWeights g ∧ atMostTwo g ∧
  Z.of_nat (length (vertices g)) = MAX_VERTICES.
Proof.
  induction 1 as [T0|S I fuel g s g' s' _ (IH1 & IH2 & IH3) Hrun
                 |g src dst w b g' _ (IH1 & IH2 & IH3) Hrun
                 |g src dst b g' _ (IH1 & IH2 & IH3) Hrun
                 |g g' _ (IH1 & IH2 & IH3) Hrun
                 |g g' _ (IH1 & IH2 & IH3) Hrun].
  - split; [apply newGraph_nonNegative|]. split; [apply newGraph_atMostTwo|].
    unfold newGraph. cbn [vertices]. rewrite length_replicate.
    unfold MAX_VERTICES. lia.
  - apply (buildGraph_inv
             (λ x, nonNegativeWeights x ∧ atMostTwo x ∧
                   Z.of_nat (length (vertices x)) = MAX_VERTICES)
             fuel g s g' s'); [| |exact Hrun].
    + intros x src dst w b x' (Hx1 & Hx2 & Hx3) Hins.
      split; [by eapply insertEdge_keeps_nonNegative|].
      split; [by eapply insertEdge_keeps_atMostTwo|].
      destruct (insertEdge_frame x src dst w b x' Hins) as (_ & _ & -> & _). done.
    + intros n vs Hvs Hlen. split; [by apply nonNegativeWeights_reset|].
      split; [by apply atMostTwo_reset|]. simpl. by rewrite Hlen.
  - split; [by eapply insertEdge_keeps_nonNegative|].
    split; [by eapply insertEdge_keeps_atMostTwo|].
    destruct (insertEdge_frame g src dst w b g' Hrun) as (_ & _ & -> & _). done.
  - split; [by eapply removeEdge_keeps_nonNegative|].
    split; [by eapply removeEdge_keeps_atMostTwo|].
    destruct (lookupZ (vertices g) src) as [v|] eqn:Hv;
      [|by unfold removeEdge in Hrun; rewrite Hv in Hrun].
    rewrite (removeEdge_unfold g src dst v Hv) in Hrun.
    destruct (removeWalk (edgeHead v) dst); injection Hrun as <- <-; [|done].
    simpl. by rewrite length_insert.
  - destruct (clearGraph_reset g g' Hrun) as (vs & -> & Hlen & Hvs).
    split; [by apply nonNegativeWeights_reset|].
    split; [by apply atMostTwo_reset|]. simpl. by rewrite Hlen.
  - destruct (findShortestPath_rows g g' Hrun) as (Hv & _).
    split; [|split].
    + intros u x w (vn & Hvn & Hin). rewrite Hv in Hvn. apply (IH1 u x w). by exists vn.
    + intros i vn d Hvn. rewrite Hv in Hvn. by apply (IH2 i).
    + by rewrite Hv.
Qed.

Lemma built_invariants_witness :
  nonNegativeWeights scenarioGraph ∧ atMostTwo scenarioGraph ∧
  Z.of_nat (length (vertices scenarioGraph)) = MAX_VERTICES.
Proof.
  apply built_invariants.
  apply (built_buildGraph (list Item) itemStream 4 (newGraph initTable)
           scenarioFile scenarioGraph []).
  - apply built_Graph.
  - apply buildGraph_scenario.
Defined.



(** * Bounds *)

(** X10: on a well-formed graph ([size] at most [MAX_VERTICES - 1], every
    edge leading to a subscript of the table, weights between 0 and a
    bound [W] with [W * (size - 1)] inside the [int] range)
    [findShortestPath] is defined: no subscript leaves the table and no
    addition overflows.  It changes the table only. *)
Theorem findShortestPath_safe W g :
  wellFormed W g →
  ∃ g', findShortestPath g = Some g' ∧
        vertices g' = vertices g ∧ size g' = size g.
Proof.
  intros Hwf. destruct (findShortestPath_defined W g Hwf) as [g' Hrun].
  exists g'. split; [done|].
  destruct (findShortestPath_rows g g' Hrun) as (? & ? & _). done.
Qed.

Lemma findShortestPath_safe_witness :
  ∃ g', findShortestPath scenarioGraph = Some g' ∧
        vertices g' = vertices scenarioGraph ∧ size g' = size scenarioGraph.
Proof. exact (findShortestPath_safe 10 scenarioGraph scenarioGraph_wellFormed). Defined.

(** ** An edge that leaves the table *)

Lemma relaxEdges_reads s u l :
  ∀ t t', relaxEdges s u t l = Some t' →
          ∀ c, c ∈ l → is_Some (getT t s (adjVertex c)).
Proof.
  induction l as [|cur l IH]; intros t t' Hrun c Hc; [by apply elem_of_nil in Hc|].
  simpl in Hrun.
  destruct (relaxEdge s u t cur) as [t1|] eqn:Hrel; [|done]. simpl in Hrun.
  apply elem_of_cons in Hc as [->|Hc].
  - unfold relaxEdge in Hrel. destruct (getT t s (adjVertex cur)); [by eexists|done].
  - apply (relaxEdges_cells s u [cur] t t1); [by simpl; rewrite Hrel|].
    by apply (IH t1 t').
Qed.

(** The first pass of a run from a fresh row finalises the source and
    reads the entry of every vertex its edges lead to. *)
Lemma findShortestPathHelper_reads g s t t' log v w :
  2 ≤ size g → 1 ≤ s ≤ size g → freshRow t s → edge g s v w →
  findShortestPathHelper g s t = Some (t', log) →
  is_Some (getT t s v).
Proof.
  intros Hsize Hs Hfresh (vn & Hvn & Hin) Hrun.
  unfold findShortestPathHelper in Hrun.
  destruct (getT t s s) as [e|] eqn:He; [|done]. cbn [mbind option_bind] in Hrun.
  pose proof (Hfresh s e He) as ->. cbn [visited] in Hrun.
  destruct (setT t s s _) as [t0|] eqn:Hset; [|done]. cbn [mbind option_bind] in Hrun.
  pose proof (getT_setT_eq _ _ _ _ _ Hset) as Hss.
  destruct (Z.to_nat (size g - 1)) as [|n] eqn:Hn; [lia|].
  destruct (helperLoop_pass n g s t0 t' log Hrun)
    as [(_ & _ & Hno)|(x & t1 & log' & _ & Hsel & Hvisit & _)].
  { exfalso. apply (Hno s (mkTable false 0 s)).
    split; [done|]. split; [done|]. split; [done|]. simpl. unfold INT_MAX. lia. }
  assert (x = s) as ->.
  { destruct Hsel as (ex & (Hx & Hex & Hunv & Hfin) & _).
    destruct (decide (x = s)) as [|Hne]; [done|exfalso].
    rewrite (getT_setT_ne _ _ _ _ _ s x Hset) in Hex by auto.
    rewrite (Hfresh x ex Hex) in Hfin. simpl in Hfin. lia. }
  unfold visitVertex in Hvisit. rewrite Hss in Hvisit.
  cbn [mbind option_bind] in Hvisit.
  destruct (setT t0 s s _) as [t2|] eqn:Hset2; [|done].
  cbn [mbind option_bind] in Hvisit. rewrite Hvn in Hvisit.
  cbn [mbind option_bind] in Hvisit.
  pose proof (relaxEdges_reads s s _ t2 t1 Hvisit _ Hin) as Hread.
  cbn [adjVertex] in Hread.
  apply (setT_cells _ _ _ _ _ Hset). by apply (setT_cells _ _ _ _ _ Hset2).
Qed.

(** X23: [insertEdge] never checks the destination, and the computation
    pays for it: in a graph of two vertices or more, an edge from a vertex
    of [1..size] to a number outside [0..MAX_VERTICES - 1] makes
    [findShortestPath] read outside the table. *)
Theorem findShortestPath_edge_leaves_table g s v w :
  2 ≤ size g → 1 ≤ s ≤ size g → edge g s v w →
  ¬ (0 ≤ v < MAX_VERTICES) →
  findShortestPath g = None.
Proof.
  intros Hsize Hs Hedge Hv.
  destruct (findShortestPath g) as [g'|] eqn:Hrun; [exfalso|done].
  unfold findShortestPath in Hrun.
  destruct (forRange 1 (size g) _ initTable) as [t|] eqn:Hloop; [|done].
  pose (P := λ (j : Z) (x : list (list Table)),
               j ≤ s ∧ (∀ r, j ≤ r → freshRow x r) ∧
               ∀ r c, is_Some (getT x r c) → is_Some (getT initTable r c)).
  assert (P (size g + 1) t) as (Hle & _); [|lia].
  eapply (forRange_inv P _ 1 (size g) initTable t); [lia| | |exact Hloop].
  - split; [lia|]. split; [|done]. intros r _ c e. apply getT_initTable.
  - intros j x y Hj (Hjs & Hf & Hcells) Hbody. simpl in Hbody.
    destruct (findShortestPathHelper g j x) as [[y' log]|] eqn:Hh; [|done].
    simpl in Hbody. injection Hbody as <-.
    destruct (decide (j = s)) as [->|Hne].
    + exfalso. apply Hv.
      assert (is_Some (getT x s v)) as Hread.
      { eapply findShortestPathHelper_reads; try done. apply Hf. lia. }
      apply Hcells, initTable_cells in Hread. lia.
    + split; [lia|]. split.
      * intros r Hr c e He.
        rewrite (findShortestPathHelper_frame g j x y' log Hh) in He by lia.
        assert (j ≤ r) as Hjr by lia. exact (Hf r Hjr c e He).
      * intros r c Hrc. apply Hcells.
        by apply (findShortestPathHelper_cells g j x y' log Hh).
Qed.

Lemma findShortestPath_edge_leaves_table_witness :
  ∃ g1, insertEdge scenarioGraph 3 101 4 = Some (true, g1) ∧
        findShortestPath g1 = None.
Proof.
  destruct (insertEdge scenarioGraph 3 101 4) as [[b g1]|] eqn:Hins;
    [|by vm_compute in Hins].
  assert (b = true) as -> by (vm_compute in Hins; congruence).
  exists g1. split; [reflexivity|].
  apply (findShortestPath_edge_leaves_table g1 3 101 4).
  - vm_compute in Hins. injection Hins as <-. simpl. lia.
  - vm_compute in Hins. injection Hins as <-. simpl. lia.
  - vm_compute in Hins. injection Hins as <-.
    eexists. split; [vm_compute; reflexivity|]. by apply list_elem_of_singleton.
  - unfold MAX_VERTICES. lia.
Defined.

(** ** Distances are not negative *)

Lemma chain_weight_nonneg g s p c :
  nonNegativeWeights g → chain g s p c → 0 ≤ c.
Proof.
  intros Hnn. induction 1 as [|p u v c w _ IH Hedge]; [done|].
  pose proof (Hnn u v w Hedge). lia.
Qed.

(** X24: with non-negative weights every distance of a computed row lies
    between 0 and [INT_MAX]. *)
Theorem dist_nonnegative g g' s d e :
  findShortestPath g = Some g' → nonNegativeWeights g →
  1 ≤ s ≤ size g → getT (T g') s d = Some e →
  0 ≤ dist e ≤ INT_MAX.
Proof.
  intros Hrun Hnn Hs He.
  destruct (findShortestPath_rows g g' Hrun) as (_ & _ & Hrows).
  destruct (printPath_row g (T g') s d e (Hrows s Hs) He)
    as (p & _ & [(Hfin & Hc & _)|(-> & _)]).
  - pose proof (chain_weight_nonneg g s p _ Hnn Hc). lia.
  - unfold INT_MAX. lia.
Qed.

Lemma dist_nonnegative_witness :
  ∃ g', findShortestPath scenarioGraph = Some g' ∧
        0 ≤ dist (mkTable false 7 2) ≤ INT_MAX.
Proof.
  destruct (findShortestPath scenarioGraph) as [g'|] eqn:Hrun;
    [|by vm_compute in Hrun].
  pose proof Hrun as Hval. vm_compute in Hval. injection Hval as <-.
  eexists. split; [reflexivity|].
  apply (dist_nonnegative scenarioGraph _ 1 3 (mkTable false 7 2) Hrun).
  - apply nonNegativeWeightsb_sound. vm_compute. reflexivity.
  - simpl. lia.
  - vm_compute. reflexivity.
Defined.

(** * Where insertEdge puts the weight *)

Lemma insertEdge_inner_node_updated_witness :
  ∃ g', insertEdge parallelEdgesGraph 1 3 8 = Some (true, g') ∧
        adjacency g' 1 =
          Some [mkEdgeNode 3 8; mkEdgeNode 2 5; mkEdgeNode 2 7; mkEdgeNode 1 4].
Proof.
  apply (insertEdge_inner_node_updated parallelEdgesGraph 1 3 8
           (mkVertexNode
              [mkEdgeNode 3 1; mkEdgeNode 2 5; mkEdgeNode 2 7; mkEdgeNode 1 4]
              (Some (Vertex.mk EmptyString)))
           [] (mkEdgeNode 3 1) [mkEdgeNode 2 5; mkEdgeNode 2 7; mkEdgeNode 1 4]).
  - lia.
  - reflexivity.
  - reflexivity.
  - reflexivity.
  - constructor.
  - done.
Defined.

Lemma insertEdge_last_node_not_checked_witness :
  ∃ g', insertEdge parallelEdgesGraph 1 1 9 = Some (true, g') ∧
        adjacency g' 1 =
          Some [mkEdgeNode 3 1; mkEdgeNode 2 5; mkEdgeNode 2 7; mkEdgeNode 1 4;
                mkEdgeNode 1 9].
Proof.
  apply (insertEdge_last_node_not_checked parallelEdgesGraph 1 1 9
           (mkVertexNode
              [mkEdgeNode 3 1; mkEdgeNode 2 5; mkEdgeNode 2 7; mkEdgeNode 1 4]
              (Some (Vertex.mk EmptyString)))
           [mkEdgeNode 3 1; mkEdgeNode 2 5; mkEdgeNode 2 7] (mkEdgeNode 1 4)).
  - lia.
  - reflexivity.
  - reflexivity.
  - repeat constructor; simpl; lia.
Defined.

(** ** Sources that are no vertices *)

(** The rows of the subscripts outside [1..size] stay as they were
    initialised. *)
Lemma findShortestPath_other_rows g g' r :
  findShortestPath g = Some g' → ¬ (1 ≤ r ≤ size g) → freshRow (T g') r.
Proof.
  unfold findShortestPath. intros Hrun Hr.
  destruct (forRange 1 (size g) _ initTable) as [t|] eqn:Hloop; [|done].
  simpl in Hrun. injection Hrun as <-. simpl.
  destruct (Z.le_gt_cases 1 (size g + 1)) as [Hle|Hgt].
  - pose (P := λ (j : Z) (x : list (list Table)), freshRow x r).
    assert (P (size g + 1) t) as HP; [|exact HP].
    eapply (forRange_inv P _ 1 (size g) initTable t); [lia| | |exact Hloop].
    + intros c e. apply getT_initTable.
    + intros j x y Hj HP Hbody. simpl in Hbody.
      destruct (findShortestPathHelper g j x) as [[y' log]|] eqn:Hh; [|done].
      simpl in Hbody. injection Hbody as <-. intros c e He.
      rewrite (findShortestPathHelper_frame g j x y' log Hh) in He by lia.
      by apply (HP c).
  - rewrite forRange_empty in Hloop by lia. injection Hloop as <-.
    intros c e. apply getT_initTable.
Qed.

(** The calls [callDepth] allows are enough: after the computation the
    recursion of [printPath] ends within them for every cell of the
    table. *)
Lemma callDepth_enough g g' s d :
  findShortestPath g = Some g' → is_Some (getT (T g') s d) →
  is_Some (printPath (callDepth g') (T g') s d).
Proof.
  intros Hrun [e He]. destruct (decide (1 ≤ s ≤ size g)) as [Hs|Hs].
  - destruct (findShortestPath_rows g g' Hrun) as (_ & _ & Hrows).
    destruct (printPath_row g (T g') s d e (Hrows s Hs) He) as (p & Hp & _).
    rewrite (findShortestPath_callDepth g g' Hrun). by exists p.
  - pose proof (findShortestPath_other_rows g g' s Hrun Hs d e He) as ->.
    exists []. by apply (printPath_no_path _ (T g') s d _ He).
Qed.

(** X25: for a source that is no vertex of the graph (a subscript of the
    table outside [1..size]) and any destination inside the table,
    [display] prints the two numbers, two dashes, and neither path nor
    label, whatever the graph holds. *)
Theorem display_no_vertex g g' s d :
  findShortestPath g = Some g' →
  ¬ (1 ≤ s ≤ size g) →
  0 ≤ s < MAX_VERTICES → 0 ≤ d < MAX_VERTICES →
  display g s d =
    Some (g', [OutInt s; OutSetw 6; OutInt d; OutSetw 6; OutStr "--";
               OutSetw 6; OutEndl]).
Proof.
  intros Hrun Hs Hs' Hd.
  destruct (proj2 (findShortestPath_cells g g' Hrun s d)) as [e He]; [done|].
  pose proof (findShortestPath_other_rows g g' s Hrun Hs d e He) as ->.
  unfold display. rewrite Hrun. cbn [mbind option_bind].
  rewrite He. cbn [mbind option_bind]. unfold callDepth.
  rewrite (printPath_no_path _ (T g') s d _ He) by done.
  cbn [mbind option_bind].
  rewrite (printLocationDescriptions_step _ g' s d _ He). done.
Qed.

Lemma display_no_vertex_witness :
  ∃ g', display scenarioGraph 0 2 =
          Some (g', [OutInt 0; OutSetw 6; OutInt 2; OutSetw 6; OutStr "--";
                     OutSetw 6; OutEndl]).
Proof.
  destruct (findShortestPath scenarioGraph) as [g'|] eqn:Hrun;
    [|by vm_compute in Hrun].
  exists g'.
  apply (display_no_vertex scenarioGraph g' 0 2 Hrun);
    [simpl; lia|unfold MAX_VERTICES; lia|unfold MAX_VERTICES; lia].
Defined.

(** * The object store *)

(** ** Chains of edge cells *)

Lemma chainAt_frame (ec ec' : gmap addr EdgeCell) cells :
  ∀ p, (∀ a, a ∈ cells.*1 → ec' !! a = ec !! a) →
       chainAt ec p cells → chainAt ec' p cells.
Proof.
  induction cells as [|[a e] rest IH]; intros p Hsame Hc; simpl in *; [done|].
  destruct Hc as (-> & Hnin & next & Ha & Hrest).
  split; [done|]. split; [done|]. exists next. split.
  - rewrite Hsame; [done|]. by left.
  - apply IH; [|done]. intros b Hb. apply Hsame. by right.
Qed.

Lemma chainAt_allocated (ec : gmap addr EdgeCell) cells :
  ∀ p a, chainAt ec p cells → a ∈ cells.*1 → is_Some (ec !! a).
Proof.
  induction cells as [|[b e] rest IH]; intros p a Hc Hin; simpl in *.
  - by apply elem_of_nil in Hin.
  - destruct Hc as (-> & Hnin & next & Hb & Hrest).
    apply elem_of_cons in Hin as [->|Hin]; [eauto|]. by eapply IH.
Qed.

Lemma chainAt_NoDup (ec : gmap addr EdgeCell) cells :
  ∀ p, chainAt ec p cells → NoDup (cells.*1).
Proof.
  induction cells as [|[b e] rest IH]; intros p Hc; simpl in *; [constructor|].
  destruct Hc as (-> & Hnin & next & Hb & Hrest).
  constructor; [done|]. by eapply IH.
Qed.

(** A chain has no more cells than the store. *)
Lemma chainAt_length (ec : gmap addr EdgeCell) p cells :
  chainAt ec p cells → (length cells ≤ base.size ec)%nat.
Proof.
  intros Hc.
  rewrite <- (length_fmap fst cells), <- (size_dom (D := gset addr) ec).
  rewrite <- (size_list_to_set (C := gset addr) (cells.*1))
    by (by eapply chainAt_NoDup).
  apply subseteq_size. intros a Ha. apply elem_of_list_to_set in Ha.
  apply elem_of_dom. by eapply chainAt_allocated.
Qed.

(** The values of a chain determine nothing about addresses, but the store
    determines the chain. *)
Lemma chainAt_unique (ec : gmap addr EdgeCell) cells :
  ∀ p cells', chainAt ec p cells → chainAt ec p cells' → cells = cells'.
Proof.
  induction cells as [|[a e] rest IH]; intros p cells' Hc Hc'; simpl in *.
  - subst p. destruct cells' as [|[a' e'] rest']; [done|]. simpl in Hc'.
    by destruct Hc' as ([=] & _).
  - destruct Hc as (-> & Hnin & next & Ha & Hrest).
    destruct cells' as [|[a' e'] rest']; [done|]. simpl in Hc'.
    destruct Hc' as ([= <-] & Hnin' & next' & Ha' & Hrest').
    rewrite Ha in Ha'. injection Ha' as <- <-.
    f_equal. by eapply IH.
Qed.

(** ** clearGraph on the store *)

Lemma deleteChain_spec cells :
  ∀ (ec : gmap addr EdgeCell) p fuel,
    chainAt ec p cells → (length cells ≤ fuel)%nat →
    ∃ ec', deleteChain fuel ec p = Some ec' ∧
           (∀ a, a ∈ cells.*1 → ec' !! a = None) ∧
           (∀ a, a ∉ cells.*1 → ec' !! a = ec !! a).
Proof.
  induction cells as [|[b e] rest IH]; intros ec p fuel Hc Hfuel; simpl in *.
  - subst p. exists ec. destruct fuel; simpl; repeat split; try done.
    all: intros a Ha; by apply elem_of_nil in Ha.
  - destruct Hc as (-> & Hnin & next & Hb & Hrest).
    destruct fuel as [|fuel]; [lia|]. simpl. rewrite Hb. simpl.
    destruct (IH (delete b ec) next fuel) as (ec' & Hrun & Hgone & Hkept); [|lia|].
    { eapply chainAt_frame; [|exact Hrest].
      intros a Ha. apply lookup_delete_ne. by intros ->. }
    exists ec'. split; [done|]. split.
    + intros a [->|Ha]%elem_of_cons; [|by apply Hgone].
      rewrite Hkept by done. apply lookup_delete_eq.
    + intros a Ha. apply not_elem_of_cons in Ha as [Hne Ha].
      rewrite Hkept by done. by apply lookup_delete_ne.
Qed.

(** ** copyGraph on the store *)

Lemma copyRest_spec cells :
  ∀ (ec : gmap addr EdgeCell) current e from fuel,
    chainAt ec from cells →
    ec !! current = Some (mkEdgeCell e None) →
    current ∉ cells.*1 →
    (length cells ≤ fuel)%nat →
    ∃ ec' new,
      copyRest fuel ec current from = Some ec' ∧
      chainAt ec' (Some current) ((current, e) :: new) ∧
      new.*2 = cells.*2 ∧
      (∀ a, a ∈ new.*1 → ec !! a = None) ∧
      (∀ a, is_Some (ec !! a) → a ≠ current → ec' !! a = ec !! a).
Proof.
  induction cells as [|[b eb] rest IH]; intros ec current e from fuel Hc Hcur Hnin Hfuel;
    simpl in Hc.
  - subst from. exists ec, []. simpl. split; [by destruct fuel|].
    split; [|split; [done|split; [|done]]].
    + split; [done|]. split; [apply not_elem_of_nil|]. by exists None.
    + intros a Ha. by apply elem_of_nil in Ha.
  - destruct Hc as (-> & Hbnin & next & Hb & Hrest).
    destruct fuel as [|fuel]; [simpl in Hfuel; lia|]. simpl. rewrite Hb. simpl.
    set (temp := fresh (dom ec)).
    assert (ec !! temp = None) as Htemp.
    { apply not_elem_of_dom. apply is_fresh. }
    assert (temp ≠ current) as Htc by (intros Heq; rewrite Heq in Htemp; congruence).
    assert (temp ≠ b) as Htb by (intros Heq; rewrite Heq in Htemp; congruence).
    rewrite lookup_insert_ne by done. rewrite Hcur. simpl.
    set (ec2 := <[current := _]> (<[temp := _]> ec)).
    assert (∀ a, a ≠ current → a ≠ temp → ec2 !! a = ec !! a) as Hec2.
    { intros a Ha1 Ha2. unfold ec2. by rewrite !lookup_insert_ne. }
    apply not_elem_of_cons in Hnin as [Hcb Hnin].
    destruct (IH ec2 temp eb next fuel) as (ec' & new & Hrun & Hchain & Hval & Hnew & Hold).
    { eapply chainAt_frame; [|exact Hrest]. intros a Ha. apply Hec2.
      - by intros ->.
      - intros ->. destruct (chainAt_allocated _ _ _ _ Hrest Ha) as [? ?]. congruence. }
    { unfold ec2. rewrite lookup_insert_ne by done. apply lookup_insert_eq. }
    { intros Hin. destruct (chainAt_allocated _ _ _ _ Hrest Hin) as [? ?]. congruence. }
    { simpl in Hfuel. lia. }
    assert (ec2 !! current = Some (mkEdgeCell e (Some temp))) as Hcur2.
    { unfold ec2. apply lookup_insert_eq. }
    exists ec', ((temp, eb) :: new). split; [done|].
    split; [|split; [|split]].
    + split; [done|]. split.
      * simpl. apply not_elem_of_cons. split; [done|].
        intros Hin. apply Hnew in Hin. congruence.
      * exists (Some temp). split; [|done].
        rewrite Hold; [done|by eauto|done].
    + by rewrite !fmap_cons, Hval.
    + intros a [->|Ha]%elem_of_cons; [done|].
      apply Hnew in Ha. destruct (decide (a = current)) as [->|]; [congruence|].
      destruct (decide (a = temp)) as [->|]; [done|]. by rewrite <- Hec2.
    + intros a [x Ha] Hac.
      assert (a ≠ temp) as Hat by (intros ->; congruence).
      rewrite Hold; [by apply Hec2| |done]. rewrite Hec2 by done. eauto.
Qed.

Lemma copyChain_spec (ec : gmap addr EdgeCell) from cells :
  chainAt ec from cells →
  ∃ ec' p new,
    copyChain ec from = Some (ec', p) ∧
    chainAt ec' p new ∧
    new.*2 = cells.*2 ∧
    (∀ a, a ∈ new.*1 → ec !! a = None) ∧
    (∀ a, is_Some (ec !! a) → ec' !! a = ec !! a).
Proof.
  intros Hc. pose proof (chainAt_length _ _ _ Hc) as Hlen.
  destruct cells as [|[b eb] rest]; simpl in Hc.
  - subst from. exists ec, None, []. simpl. repeat split; try done.
    intros a Ha. by apply elem_of_nil in Ha.
  - destruct Hc as (-> & Hbnin & next & Hb & Hrest). simpl. rewrite Hb. simpl.
    set (head := fresh (dom ec)).
    assert (ec !! head = None) as Hhead.
    { apply not_elem_of_dom. apply is_fresh. }
    destruct (copyRest_spec rest (<[head := mkEdgeCell eb None]> ec) head eb next
                (base.size ec)) as (ec' & new & Hrun & Hchain & Hval & Hnew & Hold).
    { eapply chainAt_frame; [|exact Hrest]. intros a Ha. apply lookup_insert_ne.
      intros <-. destruct (chainAt_allocated _ _ _ _ Hrest Ha) as [? ?]. congruence. }
    { apply lookup_insert_eq. }
    { intros Hin. destruct (chainAt_allocated _ _ _ _ Hrest Hin) as [? ?]. congruence. }
    { simpl in Hlen. lia. }
    rewrite Hrun. simpl. exists ec', (Some head), ((head, eb) :: new).
    split; [done|]. split; [done|]. split; [by rewrite !fmap_cons, Hval|]. split.
    + intros a [->|Ha]%elem_of_cons; [done|].
      apply Hnew in Ha. destruct (decide (a = head)) as [->|Hne]; [done|].
      by rewrite lookup_insert_ne in Ha.
    + intros a [x Ha].
      assert (a ≠ head) as Hne by (intros ->; congruence).
      rewrite Hold; [by apply lookup_insert_ne| |done].
      rewrite lookup_insert_ne by done. eauto.
Qed.

Lemma deleteVertex_spec (vc : gmap addr Vertex) p :
  (∀ a, p = Some a → is_Some (vc !! a)) →
  ∃ vc', deleteVertex vc p = Some vc' ∧
         (∀ a, p = Some a → vc' !! a = None) ∧
         (∀ a, p ≠ Some a → vc' !! a = vc !! a).
Proof.
  intros Halloc. destruct p as [b|]; simpl.
  - destruct (Halloc b eq_refl) as [v Hv]. rewrite Hv. simpl.
    exists (delete b vc). split; [done|]. split.
    + intros a [= <-]. apply lookup_delete_eq.
    + intros a Hne. apply lookup_delete_ne. congruence.
  - exists vc. repeat split; done.
Qed.

(** The loop of [clearGraph] over the slots [1..n] of a well-formed object
    runs to its end; it frees the cells and labels of these slots, nulls
    their pointers and touches nothing else. *)
Lemma clearSlots_spec (ec : gmap addr EdgeCell) (vc : gmap addr Vertex) o fp n :
  ownedBy ec vc o fp →
  n < Z.of_nat (length (slots o)) →
  ∃ f,
    forRange 1 n clearSlotP (mkFrame ec vc (slots o)) = Some f ∧
    length (fSlots f) = length (slots o) ∧
    (∀ i, 1 ≤ i ≤ n → lookupZ (fSlots f) i = Some (mkVertexSlot None None)) ∧
    (∀ i, ¬ (1 ≤ i ≤ n) → lookupZ (fSlots f) i = lookupZ (slots o) i) ∧
    (∀ a, (∃ i, 1 ≤ i ≤ n ∧ a ∈ (fp i).*1) → fEdges f !! a = None) ∧
    (∀ a, ¬ (∃ i, 1 ≤ i ≤ n ∧ a ∈ (fp i).*1) → fEdges f !! a = ec !! a) ∧
    (∀ a, (∃ i sl, 1 ≤ i ≤ n ∧ lookupZ (slots o) i = Some sl ∧ dataPtr sl = Some a) →
          fVertices f !! a = None) ∧
    (∀ a, ¬ (∃ i sl, 1 ≤ i ≤ n ∧ lookupZ (slots o) i = Some sl ∧ dataPtr sl = Some a) →
          fVertices f !! a = vc !! a).
Proof.
  intros [Hchain Hlabel Hout Hcapart Hlapart] Hn.
  pose (P := λ (j : Z) (f : Frame),
    length (fSlots f) = length (slots o) ∧
    (∀ i, 1 ≤ i < j → lookupZ (fSlots f) i = Some (mkVertexSlot None None)) ∧
    (∀ i, ¬ (1 ≤ i < j) → lookupZ (fSlots f) i = lookupZ (slots o) i) ∧
    (∀ a, (∃ i, 1 ≤ i < j ∧ a ∈ (fp i).*1) → fEdges f !! a = None) ∧
    (∀ a, ¬ (∃ i, 1 ≤ i < j ∧ a ∈ (fp i).*1) → fEdges f !! a = ec !! a) ∧
    (∀ a, (∃ i sl, 1 ≤ i < j ∧ lookupZ (slots o) i = Some sl ∧ dataPtr sl = Some a) →
          fVertices f !! a = None) ∧
    (∀ a, ¬ (∃ i sl, 1 ≤ i < j ∧ lookupZ (slots o) i = Some sl ∧ dataPtr sl = Some a) →
          fVertices f !! a = vc !! a)).
  assert (∃ f, forRange 1 n clearSlotP (mkFrame ec vc (slots o)) = Some f
               ∧ P (Z.max 1 (n + 1)) f) as (f & Hrun & HP).
  { destruct (Z.le_gt_cases 1 (n + 1)) as [Hle|Hgt].
    - replace (Z.max 1 (n + 1)) with (n + 1) by lia.
      apply (forRange_total P); [done| |].
      + unfold P. simpl. split; [done|]. split; [lia|]. split; [done|].
        split; [intros a (i & Hi & _); lia|]. split; [done|].
        split; [intros a (i & sl & Hi & _); lia|done].
      + intros j x Hj (Hlen & Hnull & Hsame & Hgone & Hkept & Hlgone & Hlkept).
        destruct (lookupZ_in_range (slots o) j) as [sl Hsl]; [lia|].
        assert (lookupZ (fSlots x) j = Some sl) as Hslx by (rewrite Hsame; [done|lia]).
        assert (chainAt (fEdges x) (edgeHeadPtr sl) (fp j)) as Hcj.
        { eapply chainAt_frame; [|by eapply Hchain]. intros a Ha. apply Hkept.
          intros (i & Hi & Hai). pose proof (Hcapart _ _ _ Hai Ha). lia. }
        destruct (deleteChain_spec (fp j) (fEdges x) (edgeHeadPtr sl)
                    (base.size (fEdges x)) Hcj (chainAt_length _ _ _ Hcj))
          as (ec' & Hdel & Hdgone & Hdkept).
        destruct (deleteVertex_spec (fVertices x) (dataPtr sl))
          as (vc' & Hdv & Hvgone & Hvkept).
        { intros a Ha. rewrite Hlkept; [by eapply Hlabel|].
          intros (i & si & Hi & Hsi & Hai).
          pose proof (Hlapart _ _ _ _ _ Hsi Hsl Hai Ha). lia. }
        pose proof (storeZ_total (fSlots x) j (mkVertexSlot None None)
                      (ex_intro _ _ Hslx)) as Hst.
        eexists. split.
        { unfold clearSlotP. rewrite Hslx. simpl. rewrite Hdel. simpl.
          rewrite Hdv. simpl. rewrite Hst. simpl. reflexivity. }
        unfold P. simpl. split; [by rewrite length_insert|].
        split; [|split; [|split; [|split; [|split]]]].
        * intros i Hi. destruct (decide (i = j)) as [->|Hne].
          -- by eapply lookupZ_storeZ_eq.
          -- rewrite (lookupZ_storeZ_ne _ _ _ _ _ Hst Hne). apply Hnull. lia.
        * intros i Hi. rewrite (lookupZ_storeZ_ne _ _ i _ _ Hst) by lia.
          apply Hsame. lia.
        * intros a (i & Hi & Hai).
          destruct (decide (a ∈ (fp j).*1)) as [Haj|Haj]; [by apply Hdgone|].
          rewrite Hdkept by done. apply Hgone. exists i. split; [|done].
          destruct (decide (i = j)) as [->|]; [done|lia].
        * intros a Hno.
          assert (a ∉ (fp j).*1) as Haj by (intros Haj; apply Hno; exists j; split; [lia|done]).
          rewrite Hdkept by done. apply Hkept.
          intros (i & Hi & Hai). apply Hno. exists i. split; [lia|done].
        * intros a (i & si & Hi & Hsi & Hai).
          destruct (decide (dataPtr sl = Some a)) as [Haj|Haj]; [by apply Hvgone|].
          rewrite Hvkept by done. apply Hlgone. exists i, si.
          split; [|done].
          destruct (decide (i = j)) as [->|]; [congruence|lia].
        * intros a Hno.
          assert (dataPtr sl ≠ Some a) as Haj.
          { intros Haj. apply Hno. exists j, sl. split; [lia|done]. }
          rewrite Hvkept by done. apply Hlkept.
          intros (i & si & Hi & Hrest). apply Hno. exists i, si. split; [lia|done].
    - rewrite forRange_empty by lia. eexists. split; [reflexivity|].
      replace (Z.max 1 (n + 1)) with 1 by lia.
      unfold P. simpl. split; [done|]. split; [lia|]. split; [done|].
      split; [intros a (i & Hi & _); lia|]. split; [done|].
      split; [intros a (i & sl & Hi & _); lia|done]. }
  exists f. split; [done|].
  destruct HP as (Hlen & Hnull & Hsame & Hgone & Hkept & Hlgone & Hlkept).
  split; [done|]. split; [|split; [|split; [|split; [|split]]]].
  - intros i Hi. apply Hnull. lia.
  - intros i Hi. apply Hsame. lia.
  - intros a (i & Hi & Hai). apply Hgone. exists i. split; [lia|done].
  - intros a Hno. apply Hkept. intros (i & Hi & Hai). apply Hno. exists i.
    split; [lia|done].
  - intros a (i & si & Hi & Hrest). apply Hlgone. exists i, si. split; [lia|done].
  - intros a Hno. apply Hlkept. intros (i & si & Hi & Hrest). apply Hno.
    exists i, si. split; [lia|done].
Qed.

(** ** Objects and the graphs they hold *)

Lemma abstracts_absGraph (vc : gmap addr Vertex) o fp :
  abstracts vc o (absGraph vc o fp) fp.
Proof.
  unfold abstracts, absGraph. simpl. split; [done|]. split; [done|].
  split; [by rewrite length_imap|].
  intros i sl Hsl. apply lookupZ_Some in Hsl as [Hi Hsl].
  apply lookupZ_Some. split; [done|].
  rewrite list_lookup_imap, Hsl. simpl. by rewrite Z2Nat.id.
Qed.

Lemma abstracts_lookup (vc : gmap addr Vertex) o g fp i sl :
  abstracts vc o g fp → lookupZ (slots o) i = Some sl →
  lookupZ (vertices g) i =
    Some (mkVertexNode ((fp i).*2) (labelOf vc (dataPtr sl))).
Proof. intros (_ & _ & _ & H). apply H. Qed.

Lemma ownsCell_allocated (ec : gmap addr EdgeCell) (vc : gmap addr Vertex) o fp a :
  ownedBy ec vc o fp → ownsCell fp a → is_Some (ec !! a).
Proof.
  intros Hown [i Ha].
  destruct (lookupZ (slots o) i) as [sl|] eqn:Hsl.
  - eapply chainAt_allocated; [by eapply (own_chain _ _ _ _ Hown)|done].
  - rewrite (own_outside _ _ _ _ Hown i Hsl) in Ha. by apply elem_of_nil in Ha.
Qed.

Lemma ownsLabel_allocated (ec : gmap addr EdgeCell) (vc : gmap addr Vertex) o fp a :
  ownedBy ec vc o fp → ownsLabel o a → is_Some (vc !! a).
Proof. intros Hown (i & sl & Hsl & Ha). by eapply (own_label _ _ _ _ Hown). Qed.

(** A well-formed object stays well-formed, with the same chains, when none
    of its cells and labels changes. *)
Lemma ownedBy_frame (ec ec' : gmap addr EdgeCell) (vc vc' : gmap addr Vertex) o fp :
  ownedBy ec vc o fp →
  (∀ a, ownsCell fp a → ec' !! a = ec !! a) →
  (∀ a, ownsLabel o a → vc' !! a = vc !! a) →
  ownedBy ec' vc' o fp.
Proof.
  intros Hown Hec Hvc. pose proof Hown as [H1 H2 H3 H4 H5]. split; try done.
  - intros i sl Hsl. eapply chainAt_frame; [|by eapply H1].
    intros a Ha. apply Hec. by exists i.
  - intros i sl a Hsl Ha. rewrite Hvc; [by eapply H2|]. by exists i, sl.
Qed.

Lemma abstracts_frame (vc vc' : gmap addr Vertex) o g fp :
  abstracts vc o g fp →
  (∀ a, ownsLabel o a → vc' !! a = vc !! a) →
  abstracts vc' o g fp.
Proof.
  intros (Hs & Ht & Hl & Hslots) Hvc. repeat split; try done.
  intros i sl Hsl. rewrite (Hslots i sl Hsl). do 2 f_equal.
  unfold labelOf. destruct (dataPtr sl) as [a|] eqn:Ha; [|done]. simpl.
  symmetry. apply Hvc. by exists i, sl.
Qed.

(** The other object: after a step of the object at [this], an object that
    shared nothing with it holds the same graph in the same cells, and
    still shares nothing with it. *)
Lemma other_object_kept this from o fp st o' fp' st' oF gF fpF :
  this ≠ from →
  stepsTo this o fp st o' fp' st' →
  graphCells st !! from = Some oF →
  represents (edgeCells st) (vertexCells st) oF gF fpF →
  apart o fp oF fpF →
  graphCells st' !! from = Some oF ∧
  represents (edgeCells st') (vertexCells st') oF gF fpF ∧
  apart o' fp' oF fpF.
Proof.
  intros Hne (Hthis & Hown' & _ & (Hfe & Hfv & Hfg) & Hcells & Hlabels) HoF
    [HownF HabsF] [Hac Hal].
  assert (∀ a, ownsCell fpF a → edgeCells st' !! a = edgeCells st !! a) as HecF.
  { intros a Ha. apply Hfe; [by eapply ownsCell_allocated|].
    intros Ha'. by apply (Hac a). }
  assert (∀ a, ownsLabel oF a → vertexCells st' !! a = vertexCells st !! a) as HvcF.
  { intros a Ha. apply Hfv; [by eapply ownsLabel_allocated|].
    intros Ha'. by apply (Hal a). }
  split; [by rewrite Hfg|]. split; [split|split].
  - by eapply ownedBy_frame.
  - by eapply abstracts_frame.
  - intros a Ha HaF. destruct (Hcells a Ha) as [Hold|Hnew]; [by apply (Hac a)|].
    destruct (ownsCell_allocated _ _ _ _ _ HownF HaF) as [? ?]. congruence.
  - intros a Ha HaF. destruct (Hlabels a Ha) as [Hold|Hnew]; [by apply (Hal a)|].
    destruct (ownsLabel_allocated _ _ _ _ _ HownF HaF) as [? ?]. congruence.
Qed.

(** [clearGraph] on a well-formed object whose size lies inside the array
    is defined; it empties the slots [1..size]. *)
Lemma clearGraphP_steps st this o fp :
  graphCells st !! this = Some o →
  ownedBy (edgeCells st) (vertexCells st) o fp →
  count o < Z.of_nat (length (slots o)) →
  ∃ st' o',
    clearGraphP st this = Some st' ∧
    stepsTo this o fp st
            o' (λ i, if decide (1 ≤ i ≤ count o) then [] else fp i) st' ∧
    count o' = count o ∧ table o' = table o ∧
    length (slots o') = length (slots o) ∧
    (∀ i, 1 ≤ i ≤ count o → lookupZ (slots o') i = Some (mkVertexSlot None None)) ∧
    (∀ i, ¬ (1 ≤ i ≤ count o) → lookupZ (slots o') i = lookupZ (slots o) i).
Proof.
  intros Ho Hown Hn. unfold clearGraphP. rewrite Ho. simpl.
  destruct (clearSlots_spec (edgeCells st) (vertexCells st) o fp (count o) Hown Hn)
    as (f & Hrun & Hlen & Hnull & Hsame & Hgone & Hkept & Hlgone & Hlkept).
  assert (∃ st', (if 0 <? count o
                  then f ← forRange 1 (count o) clearSlotP
                             (mkFrame (edgeCells st) (vertexCells st) (slots o));
                       Some (mkStore (fEdges f) (fVertices f)
                               (<[this := mkGraphObject (fSlots f) (count o) (table o)]>
                                  (graphCells st)))
                  else Some st) = Some st' ∧
                 edgeCells st' = fEdges f ∧ vertexCells st' = fVertices f ∧
                 graphCells st' = <[this := mkGraphObject (fSlots f) (count o) (table o)]>
                                    (graphCells st)) as (st' & -> & Hec & Hvc & Hgc).
  { destruct (Z.ltb_spec 0 (count o)) as [Hpos|Hneg].
    - rewrite Hrun. simpl. eexists. split; [reflexivity|]. done.
    - exists st. split; [done|].
      rewrite forRange_empty in Hrun by lia. injection Hrun as <-. simpl.
      split; [done|]. split; [done|].
      destruct o. simpl. by rewrite insert_id. }
  destruct st' as [ec' vc' gc']. simpl in Hec, Hvc, Hgc. subst ec' vc' gc'.
  eexists _, (mkGraphObject (fSlots f) (count o) (table o)).
  split; [done|]. pose proof Hown as [H1 H2 H3 H4 H5].
  split; [|simpl; by repeat split].
  split; [by simpl; rewrite lookup_insert_eq|]. split; [|split; [simpl; lia|split; [|split]]].
  - split; simpl.
    + intros i sl Hsl. destruct (decide (1 ≤ i ≤ count o)) as [Hi|Hi].
      * rewrite Hnull in Hsl by done. by injection Hsl as <-.
      * rewrite Hsame in Hsl by done. eapply chainAt_frame; [|by eapply H1].
        intros a Ha. apply Hkept. intros (k & Hk & Hak).
        pose proof (H4 _ _ _ Hak Ha). lia.
    + intros i sl a Hsl Ha. destruct (decide (1 ≤ i ≤ count o)) as [Hi|Hi].
      * rewrite Hnull in Hsl by done. by injection Hsl as <-.
      * rewrite Hsame in Hsl by done. rewrite Hlkept; [by eapply H2|].
        intros (k & sk & Hk & Hsk & Hak).
        pose proof (H5 _ _ _ _ _ Hsk Hsl Hak Ha). lia.
    + intros i Hnone. destruct (decide (1 ≤ i ≤ count o)) as [Hi|Hi]; [done|].
      rewrite Hsame in Hnone by done. by apply H3.
    + intros i j a Hi Hj.
      destruct (decide (1 ≤ i ≤ count o)); [by apply elem_of_nil in Hi|].
      destruct (decide (1 ≤ j ≤ count o)); [by apply elem_of_nil in Hj|].
      by eapply H4.
    + intros i j si sj a Hsi Hsj Hai Haj.
      destruct (decide (1 ≤ i ≤ count o)) as [Hi|Hi].
      { rewrite Hnull in Hsi by done. by injection Hsi as <-. }
      destruct (decide (1 ≤ j ≤ count o)) as [Hj|Hj].
      { rewrite Hnull in Hsj by done. by injection Hsj as <-. }
      rewrite Hsame in Hsi, Hsj by done. by eapply H5.
  - split; [|split]; simpl.
    + intros a _ Hno. apply Hkept. intros (i & Hi & Hai). apply Hno. by exists i.
    + intros a _ Hno. apply Hlkept. intros (i & sl & Hi & Hsl & Ha). apply Hno.
      by exists i, sl.
    + intros b Hb. by apply lookup_insert_ne.
  - intros a (i & Hi). left. exists i.
    by destruct (decide (1 ≤ i ≤ count o)); [apply elem_of_nil in Hi|].
  - intros a (i & sl & Hsl & Ha). left. simpl in Hsl.
    destruct (decide (1 ≤ i ≤ count o)) as [Hi|Hi].
    + rewrite Hnull in Hsl by done. by injection Hsl as <-.
    + rewrite Hsame in Hsl by done. by exists i, sl.
Qed.

(** ** copyGraph on the store: the loop over the slots *)

Lemma copySlot_step (ec : gmap addr EdgeCell) (vc : gmap addr Vertex)
    o oF fpF j x fpN :
  ownedBy ec vc oF fpF →
  1 ≤ j →
  j < Z.of_nat (length (slots o)) → j < Z.of_nat (length (slots oF)) →
  (∀ sl, lookupZ (slots oF) j = Some sl → is_Some (dataPtr sl)) →
  copyInv ec vc o oF fpF j x fpN →
  ∃ y fpN', copySlot (slots oF) j x = Some y ∧
            copyInv ec vc o oF fpF (j + 1) y fpN'.
Proof.
  intros HownF Hj1 Hjo HjF Hdata
    (Hlen & Hkept & Hlkept & Hrest & Hdone & Hfresh & Hcapart & Hlapart).
  destruct (lookupZ_in_range (slots oF) j) as [fsl Hfsl]; [lia|].
  destruct (lookupZ_in_range (fSlots x) j) as [sl0 Hsl0]; [lia|].
  destruct (Hdata fsl Hfsl) as [fd Hfd].
  destruct (own_label _ _ _ _ HownF j fsl fd Hfsl Hfd) as [lbl Hlbl].
  assert (fVertices x !! fd = Some lbl) as Hlblx by (rewrite Hlkept; eauto).
  set (d := fresh (dom (fVertices x))).
  assert (fVertices x !! d = None) as Hd by (apply not_elem_of_dom, is_fresh).
  assert (chainAt (fEdges x) (edgeHeadPtr fsl) (fpF j)) as HcF.
  { eapply chainAt_frame; [|by eapply (own_chain _ _ _ _ HownF)].
    intros a Ha. apply Hkept. eapply ownsCell_allocated; [done|]. by exists j. }
  destruct (copyChain_spec (fEdges x) (edgeHeadPtr fsl) (fpF j) HcF)
    as (ec' & p & new & Hcopy & Hnewchain & Hval & Hnew & Hold).
  pose proof (storeZ_total (fSlots x) j (mkVertexSlot p (Some d))
                (ex_intro _ _ Hsl0)) as Hst.
  exists (mkFrame ec' (<[d := lbl]> (fVertices x))
            (<[Z.to_nat j := mkVertexSlot p (Some d)]> (fSlots x))),
         (λ i, if decide (i = j) then new else fpN i).
  split.
  { unfold copySlot. rewrite Hfsl. simpl. rewrite Hsl0. simpl. rewrite Hfd. simpl.
    rewrite Hlblx. simpl. rewrite Hcopy. simpl. fold d. rewrite Hst. done. }
  assert (∀ i, i ≠ j → 1 ≤ i < j + 1 → 1 ≤ i < j) as Hlt by lia.
  unfold copyInv. simpl.
  split; [by rewrite length_insert|].
  split; [intros a Ha; rewrite Hold; [by apply Hkept|by rewrite Hkept]|].
  split.
  { intros a Ha. rewrite lookup_insert_ne; [by apply Hlkept|].
    intros <-. rewrite Hlkept in Hd by done. destruct Ha. congruence. }
  split.
  { intros i Hi. rewrite (lookupZ_storeZ_ne _ _ i _ _ Hst) by lia.
    destruct (decide (i = j)); [lia|]. apply Hrest. lia. }
  split.
  { intros i Hi. destruct (decide (i = j)) as [->|Hne].
    - exists (mkVertexSlot p (Some d)), fsl, d.
      rewrite (lookupZ_storeZ_eq _ _ _ _ Hst), lookup_insert_eq. simpl.
      repeat split; try done.
      + destruct (vc !! d) as [v|] eqn:Hvd; [|done].
        rewrite Hlkept in Hd by eauto. congruence.
      + unfold labelOf. rewrite Hfd. simpl. done.
    - destruct (Hdone i (Hlt i Hne Hi))
        as (sl & fsl' & d' & Hsl & Hfsl' & Hc & Hv & Hdp & Hvd & Hal & Hlab).
      exists sl, fsl', d'.
      rewrite (lookupZ_storeZ_ne _ _ i _ _ Hst) by done.
      assert (d' ≠ d) as Hdd by (intros ->; destruct Hal; congruence).
      rewrite lookup_insert_ne by done. repeat split; try done.
      eapply chainAt_frame; [|exact Hc]. intros a Ha. apply Hold.
      by eapply chainAt_allocated. }
  split.
  { intros i a. destruct (decide (i = j)) as [->|Hne]; [|by apply Hfresh].
    intros Ha. apply Hnew in Ha. destruct (ec !! a) as [c|] eqn:Hc; [|done].
    rewrite Hkept in Ha by eauto. congruence. }
  assert (∀ i a, i ≠ j → a ∈ (fpN i).*1 → a ∈ new.*1 → False) as Holdnew.
  { intros i a Hne Ha Hanew.
    destruct (decide (1 ≤ i < j)) as [Hi|Hi].
    - destruct (Hdone i Hi) as (sl & _ & _ & _ & _ & Hc & _).
      destruct (chainAt_allocated _ _ _ _ Hc Ha) as [c Hca].
      apply Hnew in Hanew. congruence.
    - destruct (Hrest i Hi) as [_ Hnil]. rewrite Hnil in Ha.
      by apply elem_of_nil in Ha. }
  split.
  { intros i i' a Hi Hi'.
    destruct (decide (i = j)) as [->|Hne], (decide (i' = j)) as [->|Hne']; try done.
    - by destruct (Holdnew i' a).
    - by destruct (Holdnew i a).
    - by eapply Hcapart. }
  intros i i' sl sl' d' Hi Hi' Hsl Hsl' Hdp Hdp'.
  assert (∀ k sk, k ≠ j → 1 ≤ k < j + 1 → lookupZ (fSlots x) k = Some sk →
            dataPtr sk = Some d → False) as Holdd.
  { intros k sk Hk Hkr Hsk Hdk.
    destruct (Hdone k (Hlt k Hk Hkr)) as (sl1 & _ & d1 & Hsl1 & _ & _ & _ & Hd1 & _ & Hal & _).
    rewrite Hsk in Hsl1. injection Hsl1 as <-. rewrite Hdk in Hd1.
    injection Hd1 as <-. destruct Hal. congruence. }
  destruct (decide (i = j)) as [->|Hne], (decide (i' = j)) as [->|Hne']; try done.
  - rewrite (lookupZ_storeZ_eq _ _ _ _ Hst) in Hsl. injection Hsl as <-.
    rewrite (lookupZ_storeZ_ne _ _ i' _ _ Hst) in Hsl' by done.
    simpl in Hdp. injection Hdp as <-. by destruct (Holdd i' sl').
  - rewrite (lookupZ_storeZ_eq _ _ _ _ Hst) in Hsl'. injection Hsl' as <-.
    rewrite (lookupZ_storeZ_ne _ _ i _ _ Hst) in Hsl by done.
    simpl in Hdp'. injection Hdp' as <-. by destruct (Holdd i sl).
  - rewrite (lookupZ_storeZ_ne _ _ i _ _ Hst) in Hsl by done.
    rewrite (lookupZ_storeZ_ne _ _ i' _ _ Hst) in Hsl' by done.
    eapply (Hlapart i i'); eauto.
Qed.

Lemma copySlots_spec (ec : gmap addr EdgeCell) (vc : gmap addr Vertex) o oF fpF n :
  ownedBy ec vc oF fpF →
  n < Z.of_nat (length (slots o)) → n < Z.of_nat (length (slots oF)) →
  (∀ i sl, 1 ≤ i ≤ n → lookupZ (slots oF) i = Some sl → is_Some (dataPtr sl)) →
  ∃ f fpN,
    forRange 1 n (copySlot (slots oF)) (mkFrame ec vc (slots o)) = Some f ∧
    copyInv ec vc o oF fpF (Z.max 1 (n + 1)) f fpN.
Proof.
  intros HownF Hno HnF Hdata.
  assert (copyInv ec vc o oF fpF 1 (mkFrame ec vc (slots o)) (λ _, [])) as Hinit.
  { unfold copyInv. simpl. repeat split; try done; try lia.
    - intros i a Ha. by apply elem_of_nil in Ha.
    - intros i i' a Ha. by apply elem_of_nil in Ha. }
  destruct (Z.le_gt_cases 1 (n + 1)) as [Hle|Hgt].
  - replace (Z.max 1 (n + 1)) with (n + 1) by lia.
    destruct (forRange_total (λ j f, ∃ fpN, copyInv ec vc o oF fpF j f fpN)
                (copySlot (slots oF)) 1 n (mkFrame ec vc (slots o)))
      as (f & Hrun & fpN & Hinv); [done|by eexists| |by exists f, fpN].
    intros j x Hj [fpN Hinv].
    destruct (copySlot_step ec vc o oF fpF j x fpN) as (y & fpN' & Hy & Hinv');
      try done; try lia.
    + intros sl. apply Hdata. lia.
    + exists y. split; [done|]. by exists fpN'.
  - rewrite forRange_empty by lia. eexists _, _. split; [reflexivity|].
    by replace (Z.max 1 (n + 1)) with 1 by lia.
Qed.

(** [copyGraph] is defined when the source object is well-formed, every
    slot to copy has a label and [size] lies inside both arrays.  The slots
    [1..size] of the object at [this] then hold fresh copies of the chains
    and labels of the source; nothing that was allocated has changed. *)
Lemma copyGraph_steps st this from o oF fpT fpF :
  this ≠ from →
  graphCells st !! this = Some o → graphCells st !! from = Some oF →
  ownedBy (edgeCells st) (vertexCells st) o fpT →
  ownedBy (edgeCells st) (vertexCells st) oF fpF →
  count o < Z.of_nat (length (slots o)) →
  count o < Z.of_nat (length (slots oF)) →
  (∀ i sl, 1 ≤ i ≤ count o → lookupZ (slots oF) i = Some sl →
           is_Some (dataPtr sl)) →
  ∃ st' o' fp',
    copyGraph st this from = Some st' ∧
    stepsTo this o fpT st o' fp' st' ∧
    (∀ a, is_Some (edgeCells st !! a) → edgeCells st' !! a = edgeCells st !! a) ∧
    (∀ a, is_Some (vertexCells st !! a) →
          vertexCells st' !! a = vertexCells st !! a) ∧
    count o' = count o ∧ table o' = table oF ∧
    length (slots o') = length (slots o) ∧
    (∀ i, 1 ≤ i ≤ count o →
       ∃ sl fsl,
         lookupZ (slots o') i = Some sl ∧ lookupZ (slots oF) i = Some fsl ∧
         (fp' i).*2 = (fpF i).*2 ∧
         labelOf (vertexCells st') (dataPtr sl) =
           labelOf (vertexCells st) (dataPtr fsl)) ∧
    (∀ i, ¬ (1 ≤ i ≤ count o) →
       lookupZ (slots o') i = lookupZ (slots o) i ∧ fp' i = fpT i).
Proof.
  intros Hne Ho HoF Hown HownF Hno HnF Hdata.
  destruct (copySlots_spec (edgeCells st) (vertexCells st) o oF fpF (count o)
              HownF Hno HnF Hdata)
    as (f & fpN & Hrun & Hlen & Hkept & Hlkept & Hrest & Hdone & Hfresh & Hcapart & Hlapart).
  set (n := count o) in *.
  assert (∀ i, 1 ≤ i ≤ n ↔ 1 ≤ i < Z.max 1 (n + 1)) as Hrange by lia.
  exists (mkStore (fEdges f) (fVertices f)
            (<[this := mkGraphObject (fSlots f) n (table oF)]> (graphCells st))),
         (mkGraphObject (fSlots f) n (table oF)),
         (λ i, if decide (1 ≤ i ≤ n) then fpN i else fpT i).
  split.
  { unfold copyGraph. rewrite Ho, HoF. simpl. fold n. rewrite Hrun. done. }
  pose proof Hown as [H1 H2 H3 H4 H5].
  assert (∀ i a, ¬ (1 ≤ i ≤ n) → a ∈ (fpT i).*1 → is_Some (edgeCells st !! a))
    as Holdalloc.
  { intros i a _ Ha. eapply ownsCell_allocated; [exact Hown|]. by exists i. }
  split; [|simpl; split; [done|split; [done|split; [done|split; [done|split; [done|split]]]]]].
  - split; [simpl; apply lookup_insert_eq|].
    split; [|split; [simpl; fold n; lia|split; [|split]]].
    + split; simpl.
      * intros i sl Hsl. destruct (decide (1 ≤ i ≤ n)) as [Hi|Hi].
        -- destruct (Hdone i (proj1 (Hrange i) Hi)) as (sl' & _ & _ & Hsl' & _ & Hc & _).
           by assert (sl = sl') as -> by congruence.
        -- destruct (Hrest i) as [Hsame _]; [lia|]. rewrite Hsame in Hsl.
           eapply chainAt_frame; [|by eapply H1].
           intros a Ha. apply Hkept. by eapply (Holdalloc i).
      * intros i sl a Hsl Ha. destruct (decide (1 ≤ i ≤ n)) as [Hi|Hi].
        -- destruct (Hdone i (proj1 (Hrange i) Hi))
             as (sl' & _ & d & Hsl' & _ & _ & _ & Hd & _ & Hal & _).
           assert (sl = sl') as -> by congruence. congruence.
        -- destruct (Hrest i) as [Hsame _]; [lia|]. rewrite Hsame in Hsl.
           rewrite Hlkept; by eapply H2.
      * intros i Hnone. destruct (decide (1 ≤ i ≤ n)) as [Hi|Hi].
        -- destruct (Hdone i (proj1 (Hrange i) Hi)) as (sl' & _ & _ & Hsl' & _).
           congruence.
        -- destruct (Hrest i) as [Hsame _]; [lia|]. rewrite Hsame in Hnone.
           by apply H3.
      * intros i j a Hi Hj.
        destruct (decide (1 ≤ i ≤ n)) as [Hir|Hir],
                 (decide (1 ≤ j ≤ n)) as [Hjr|Hjr].
        -- by eapply Hcapart.
        -- apply Hfresh in Hi. destruct (Holdalloc j a Hjr Hj). congruence.
        -- apply Hfresh in Hj. destruct (Holdalloc i a Hir Hi). congruence.
        -- by eapply H4.
      * intros i j si sj a Hsi Hsj Hai Haj.
        assert (∀ k sk, 1 ≤ k ≤ n → lookupZ (fSlots f) k = Some sk →
                  dataPtr sk = Some a → vertexCells st !! a = None) as Hnewl.
        { intros k sk Hk Hsk Hak.
          destruct (Hdone k (proj1 (Hrange k) Hk))
            as (sl' & _ & d & Hsl' & _ & _ & _ & Hd & Hvd & _).
          assert (sk = sl') as -> by congruence. congruence. }
        assert (∀ k sk, ¬ (1 ≤ k ≤ n) → lookupZ (fSlots f) k = Some sk →
                  dataPtr sk = Some a →
                  lookupZ (slots o) k = Some sk ∧ is_Some (vertexCells st !! a))
          as Holdl.
        { intros k sk Hk Hsk Hak. destruct (Hrest k) as [Hsame _]; [lia|].
          rewrite Hsame in Hsk. split; [done|]. by eapply H2. }
        destruct (decide (1 ≤ i ≤ n)) as [Hir|Hir],
                 (decide (1 ≤ j ≤ n)) as [Hjr|Hjr].
        -- eapply (Hlapart i j); eauto; by apply Hrange.
        -- pose proof (Hnewl i si Hir Hsi Hai).
           destruct (Holdl j sj Hjr Hsj Haj) as [_ [? ?]]. congruence.
        -- pose proof (Hnewl j sj Hjr Hsj Haj).
           destruct (Holdl i si Hir Hsi Hai) as [_ [? ?]]. congruence.
        -- destruct (Holdl i si Hir Hsi Hai) as [Hsi' _].
           destruct (Holdl j sj Hjr Hsj Haj) as [Hsj' _]. by eapply H5.
    + split; [|split]; simpl.
      * intros a Ha _. by apply Hkept.
      * intros a Ha _. by apply Hlkept.
      * intros b Hb. by apply lookup_insert_ne.
    + intros a (i & Ha). destruct (decide (1 ≤ i ≤ n)) as [Hi|Hi].
      * right. by eapply Hfresh.
      * left. by exists i.
    + intros a (i & sl & Hsl & Ha). simpl in Hsl.
      destruct (decide (1 ≤ i ≤ n)) as [Hi|Hi].
      * right. destruct (Hdone i (proj1 (Hrange i) Hi))
          as (sl' & _ & d & Hsl' & _ & _ & _ & Hd & Hvd & _).
        assert (sl = sl') as -> by congruence. congruence.
      * left. destruct (Hrest i) as [Hsame _]; [lia|]. rewrite Hsame in Hsl.
        by exists i, sl.
  - intros i Hi.
    destruct (Hdone i (proj1 (Hrange i) Hi))
      as (sl & fsl & d & Hsl & Hfsl & _ & Hv & Hd & Hvd & _ & Hlab).
    exists sl, fsl. split; [done|]. split; [done|].
    destruct (decide (1 ≤ i ≤ n)); [|done]. split; [done|].
    rewrite Hd. simpl. done.
  - intros i Hi. destruct (Hrest i) as [Hsame _]; [lia|].
    split; [done|]. by destruct (decide (1 ≤ i ≤ n)).
Qed.

(** ** insertEdge and removeEdge on the store *)

Lemma chainAt_None (ec : gmap addr EdgeCell) cells :
  chainAt ec None cells → cells = [].
Proof. destruct cells as [|[a e] rest]; [done|]. by intros ([=] & _). Qed.

Lemma chainAt_Some (ec : gmap addr EdgeCell) a cells :
  chainAt ec (Some a) cells →
  ∃ e next rest,
    cells = (a, e) :: rest ∧ (a ∉ rest.*1) ∧
    ec !! a = Some (mkEdgeCell e next) ∧ chainAt ec next rest.
Proof.
  destruct cells as [|[b e] rest]; [done|].
  intros ([= <-] & Hnin & next & Ha & Hrest). by exists e, next, rest.
Qed.

(** The walk of [insertEdge] on cells does to the chain what [insertWalk]
    does to the list; it writes into cells of the chain and the new node
    only. *)
Lemma insertWalkP_spec fuel :
  ∀ cells (ec : gmap addr EdgeCell) current new dst w ec',
    chainAt ec (Some current) cells →
    ec !! new = Some (mkEdgeCell (mkEdgeNode dst w) None) →
    new ∉ cells.*1 →
    insertWalkP fuel ec current new dst w = Some ec' →
    ∃ cells' c rest,
      chainAt ec' (Some current) cells' ∧
      (∀ a, a ∈ cells'.*1 → a ∈ cells.*1 ∨ a = new) ∧
      (∀ a, a ∉ cells.*1 → a ≠ new → ec' !! a = ec !! a) ∧
      cells.*2 = c :: rest ∧ cells'.*2 = insertWalk c rest dst w.
Proof.
  induction fuel as [|fuel IH]; intros cells ec current new dst w ec' Hc Hnew Hnin Hrun;
    [done|].
  apply chainAt_Some in Hc as (e & next & rest & -> & Hcur & Hcell & Hrest).
  simpl in Hrun. rewrite Hcell in Hrun. simpl in Hrun.
  apply not_elem_of_cons in Hnin as [Hnc Hnin]. simpl in Hnc.
  destruct next as [nxt|].
  - apply chainAt_Some in Hrest as Hsplit.
    destruct Hsplit as (e2 & next2 & rest2 & -> & Hn2 & Hcell2 & Hrest2).
    destruct (Z.eqb_spec (adjVertex e) dst) as [Hadj|Hadj].
    + injection Hrun as <-.
      exists ((current, mkEdgeNode (adjVertex e) w) :: (nxt, e2) :: rest2),
             e, (e2 :: rest2.*2).
      split; [|split; [|split; [|split]]].
      * split; [done|]. split; [done|]. exists (Some nxt). split.
        -- rewrite lookup_delete_ne by done. apply lookup_insert_eq.
        -- eapply chainAt_frame; [|exact Hrest]. intros a Ha.
           rewrite lookup_delete_ne by (by intros <-).
           apply lookup_insert_ne. by intros <-.
      * intros a Ha. by left.
      * intros a Ha Han. apply not_elem_of_cons in Ha as [Hac _].
        rewrite lookup_delete_ne by done. by apply lookup_insert_ne.
      * done.
      * simpl. by destruct (Z.eqb_spec (adjVertex e) dst).
    + destruct (IH _ _ _ _ _ _ _ Hrest Hnew Hnin Hrun)
        as (cells' & c & rest' & Hc' & Hsub & Hframe & Hval & Hval').
      simpl in Hval. injection Hval as <- <-.
      exists ((current, e) :: cells'), e, (e2 :: rest2.*2).
      split; [|split; [|split; [|split]]].
      * split; [done|]. split.
        -- intros Hin. destruct (Hsub _ Hin) as [?|?]; [done|congruence].
        -- exists (Some nxt). split; [|done]. by rewrite Hframe.
      * intros a [->|Ha]%elem_of_cons; [left; by left|].
        destruct (Hsub _ Ha) as [?|?]; [left; by right|by right].
      * intros a Ha Han. apply not_elem_of_cons in Ha as [_ Ha]. by apply Hframe.
      * done.
      * simpl. destruct (Z.eqb_spec (adjVertex e) dst); [done|]. by f_equal.
  - apply chainAt_None in Hrest as ->. injection Hrun as <-.
    exists [(current, e); (new, mkEdgeNode dst w)], e, [].
    split; [|split; [|split; [|split]]]; try done.
    + split; [done|]. split.
      { apply not_elem_of_cons. split; [simpl; congruence|apply not_elem_of_nil]. }
      exists (Some new). split; [apply lookup_insert_eq|].
      split; [done|]. split; [apply not_elem_of_nil|].
      exists None. split; [|done]. by rewrite lookup_insert_ne.
    + intros a [->|[->|Ha]%elem_of_cons]%elem_of_cons;
        [left; by left|by right|by apply elem_of_nil in Ha].
    + intros a Ha _. apply not_elem_of_cons in Ha as [Ha _].
      by apply lookup_insert_ne.
Qed.

Lemma removeWalk_cons c rest d :
  removeWalk (c :: rest) d =
    if adjVertex c =? d then Some rest
    else l' ← removeWalk rest d; Some (c :: l').
Proof. reflexivity. Qed.

(** The walk of [removeEdge] on cells does to the chain behind [previous]
    what [removeWalk] does to the list. *)
Lemma removeWalkP_spec fuel :
  ∀ rest (ec : gmap addr EdgeCell) previous pe current dst r,
    ec !! previous = Some (mkEdgeCell pe current) →
    chainAt ec current rest →
    previous ∉ rest.*1 →
    removeWalkP fuel ec previous current dst = Some r →
    match r with
    | None => removeWalk (rest.*2) dst = None
    | Some ec' =>
        ∃ rest',
          chainAt ec' (Some previous) ((previous, pe) :: rest') ∧
          (∀ a, a ∈ rest'.*1 → a ∈ rest.*1) ∧
          (∀ a, a ∉ rest.*1 → a ≠ previous → ec' !! a = ec !! a) ∧
          removeWalk (rest.*2) dst = Some (rest'.*2)
    end.
Proof.
  induction fuel as [|fuel IH]; intros rest ec previous pe current dst r Hprev Hc Hnin Hrun.
  - destruct current as [a|]; [done|]. simpl in Hrun. injection Hrun as <-.
    by apply chainAt_None in Hc as ->.
  - destruct current as [a|]; simpl in Hrun.
    + apply chainAt_Some in Hc as (e & next & rest2 & -> & Hn2 & Hcell & Hrest2).
      apply not_elem_of_cons in Hnin as [Hpa Hnin]. simpl in Hpa.
      rewrite Hcell in Hrun. simpl in Hrun.
      destruct (Z.eqb_spec (adjVertex e) dst) as [Hadj|Hadj].
      * rewrite Hprev in Hrun. simpl in Hrun. injection Hrun as <-.
        exists rest2. split; [|split; [|split]].
        -- split; [done|]. split; [done|]. exists next. split.
           ++ rewrite lookup_delete_ne by done. apply lookup_insert_eq.
           ++ eapply chainAt_frame; [|exact Hrest2]. intros b Hb.
              rewrite lookup_delete_ne by (by intros <-).
              apply lookup_insert_ne. by intros <-.
        -- intros b Hb. by right.
        -- intros b Hb Hbp. apply not_elem_of_cons in Hb as [Hba _].
           rewrite lookup_delete_ne by done. by apply lookup_insert_ne.
        -- rewrite fmap_cons, removeWalk_cons. cbn [snd].
           by destruct (Z.eqb_spec (adjVertex e) dst).
      * specialize (IH rest2 ec a e next dst r Hcell Hrest2 Hn2 Hrun).
        destruct r as [ec'|].
        -- destruct IH as (rest' & Hc' & Hsub & Hframe & Hval).
           exists ((a, e) :: rest'). split; [|split; [|split]].
           ++ split; [done|]. split.
              { apply not_elem_of_cons. split; [done|].
                intros Hin. apply Hsub in Hin. done. }
              exists (Some a). split; [|done]. by rewrite Hframe.
           ++ intros b [->|Hb]%elem_of_cons; [by left|]. right. by apply Hsub.
           ++ intros b Hb Hbp. apply not_elem_of_cons in Hb as [Hba Hb].
              by apply Hframe.
           ++ rewrite !fmap_cons, removeWalk_cons. cbn [snd].
              destruct (Z.eqb_spec (adjVertex e) dst); [done|].
              by rewrite Hval.
        -- rewrite fmap_cons, removeWalk_cons. cbn [snd].
           destruct (Z.eqb_spec (adjVertex e) dst); [done|]. by rewrite IH.
    + injection Hrun as <-. by apply chainAt_None in Hc as ->.
Qed.

(** An operation that rebuilds the chain of one slot, writing only into
    cells of that chain and into fresh ones, is a step of the object. *)
Lemma slot_update_steps st this o fp src sl sl' cells' st' :
  graphCells st !! this = Some o →
  ownedBy (edgeCells st) (vertexCells st) o fp →
  count o < Z.of_nat (length (slots o)) →
  lookupZ (slots o) src = Some sl →
  dataPtr sl' = dataPtr sl →
  chainAt (edgeCells st') (edgeHeadPtr sl') cells' →
  (∀ a, a ∈ cells'.*1 → a ∈ (fp src).*1 ∨ edgeCells st !! a = None) →
  (∀ a, is_Some (edgeCells st !! a) → a ∉ (fp src).*1 →
        edgeCells st' !! a = edgeCells st !! a) →
  vertexCells st' = vertexCells st →
  graphCells st' =
    <[this := mkGraphObject (<[Z.to_nat src := sl']> (slots o)) (count o) (table o)]>
      (graphCells st) →
  stepsTo this o fp st
    (mkGraphObject (<[Z.to_nat src := sl']> (slots o)) (count o) (table o))
    (λ i, if decide (i = src) then cells' else fp i) st'.
Proof.
  intros Ho Hown Hn Hsl Hdata Hchain Hsub Hframe Hvc Hgc.
  pose proof Hown as [H1 H2 H3 H4 H5].
  assert (is_Some (lookupZ (slots o) src)) as Hsome by eauto.
  assert (∀ i, i ≠ src →
            lookupZ (<[Z.to_nat src := sl']> (slots o)) i = lookupZ (slots o) i)
    as Hother by (intros i Hi; by apply lookupZ_insert_ne).
  assert (lookupZ (<[Z.to_nat src := sl']> (slots o)) src = Some sl') as Hsrc
    by (by apply lookupZ_insert_eq).
  assert (∀ i a, i ≠ src → a ∈ (fp i).*1 →
            is_Some (edgeCells st !! a) ∧ a ∉ (fp src).*1) as Hoc.
  { intros i a Hi Ha. split.
    - eapply ownsCell_allocated; [exact Hown|]. by exists i.
    - intros Ha'. by pose proof (H4 _ _ _ Ha Ha'). }
  assert (∀ i si a, lookupZ (<[Z.to_nat src := sl']> (slots o)) i = Some si →
            dataPtr si = Some a →
            ∃ si', lookupZ (slots o) i = Some si' ∧ dataPtr si' = Some a) as Hlab.
  { intros i si a Hsi Ha. destruct (decide (i = src)) as [->|Hi].
    - rewrite Hsrc in Hsi. injection Hsi as <-. exists sl. by rewrite <- Hdata.
    - rewrite Hother in Hsi by done. by exists si. }
  split; [rewrite Hgc; apply lookup_insert_eq|].
  split; [|split; [simpl; by rewrite length_insert|split; [|split]]].
  - rewrite Hvc. split; simpl.
    + intros i si Hsi. destruct (decide (i = src)) as [->|Hi].
      * rewrite Hsrc in Hsi. by injection Hsi as <-.
      * rewrite Hother in Hsi by done.
        eapply chainAt_frame; [|by eapply H1]. intros a Ha.
        destruct (Hoc i a Hi Ha). by apply Hframe.
    + intros i si a Hsi Ha. destruct (Hlab i si a Hsi Ha) as (si' & Hsi' & Ha').
      by eapply H2.
    + intros i Hnone. destruct (decide (i = src)) as [->|Hi]; [congruence|].
      rewrite Hother in Hnone by done. by apply H3.
    + intros i j a Hi Hj.
      assert (∀ k, k ≠ src → a ∈ cells'.*1 → a ∈ (fp k).*1 → False) as Hmix.
      { intros k Hk Hac Hak. destruct (Hoc k a Hk Hak) as [[c Hc] Hno].
        destruct (Hsub a Hac) as [?|?]; [done|congruence]. }
      destruct (decide (i = src)) as [->|Hisrc], (decide (j = src)) as [->|Hjsrc];
        try done.
      * by destruct (Hmix j).
      * by destruct (Hmix i).
      * by eapply H4.
    + intros i j si sj a Hsi Hsj Hai Haj.
      destruct (Hlab i si a Hsi Hai) as (si' & Hsi' & Hai').
      destruct (Hlab j sj a Hsj Haj) as (sj' & Hsj' & Haj').
      by eapply H5.
  - split; [|split].
    + intros a Ha Hno. apply Hframe; [done|]. intros Ha'. apply Hno. by exists src.
    + intros a _ _. by rewrite Hvc.
    + intros b Hb. rewrite Hgc. by apply lookup_insert_ne.
  - intros a [i Ha]. destruct (decide (i = src)) as [->|Hi].
    + destruct (Hsub a Ha) as [?|?]; [left; by exists src|by right].
    + left. by exists i.
  - intros a (i & si & Hsi & Ha). left. simpl in Hsi.
    destruct (Hlab i si a Hsi Ha) as (si' & Hsi' & Ha'). by exists i, si'.
Qed.

(** The same when the object itself is not written. *)
Lemma slot_update_steps_same st this o fp src sl cells' st' :
  graphCells st !! this = Some o →
  ownedBy (edgeCells st) (vertexCells st) o fp →
  count o < Z.of_nat (length (slots o)) →
  lookupZ (slots o) src = Some sl →
  chainAt (edgeCells st') (edgeHeadPtr sl) cells' →
  (∀ a, a ∈ cells'.*1 → a ∈ (fp src).*1 ∨ edgeCells st !! a = None) →
  (∀ a, is_Some (edgeCells st !! a) → a ∉ (fp src).*1 →
        edgeCells st' !! a = edgeCells st !! a) →
  vertexCells st' = vertexCells st →
  graphCells st' = graphCells st →
  stepsTo this o fp st o (λ i, if decide (i = src) then cells' else fp i) st'.
Proof.
  intros Ho Hown Hn Hsl Hchain Hsub Hframe Hvc Hgc.
  assert (mkGraphObject (<[Z.to_nat src := sl]> (slots o)) (count o) (table o) = o)
    as Hobj.
  { apply lookupZ_Some in Hsl as [_ Hsl]. rewrite list_insert_id by done.
    by destruct o. }
  pose proof (slot_update_steps st this o fp src sl sl cells' st'
                Ho Hown Hn Hsl eq_refl Hchain Hsub Hframe Hvc) as Hstep.
  rewrite Hobj in Hstep. apply Hstep. rewrite Hgc. by rewrite insert_id.
Qed.

Lemma stepsTo_refl st this o fp :
  graphCells st !! this = Some o →
  ownedBy (edgeCells st) (vertexCells st) o fp →
  count o < Z.of_nat (length (slots o)) →
  stepsTo this o fp st o fp st.
Proof.
  intros Ho Hown Hn. split; [done|]. split; [done|]. split; [done|].
  split; [by repeat split|]. split; intros a Ha; by left.
Qed.

(** The graph held after the chain of one slot is rebuilt. *)
Lemma abstracts_update_slot (vc : gmap addr Vertex) o g fp src sl sl' cells' v :
  abstracts vc o g fp →
  lookupZ (slots o) src = Some sl →
  lookupZ (vertices g) src = Some v →
  dataPtr sl' = dataPtr sl →
  abstracts vc
    (mkGraphObject (<[Z.to_nat src := sl']> (slots o)) (count o) (table o))
    (setVertices g (<[Z.to_nat src := setEdgeHead v (cells'.*2)]> (vertices g)))
    (λ i, if decide (i = src) then cells' else fp i).
Proof.
  intros Habs Hsl Hv Hdata. pose proof Habs as (Hs & Ht & Hl & Hslots).
  split; [done|]. split; [done|]. split; [simpl; by rewrite !length_insert|].
  intros i si Hsi. simpl in *. destruct (decide (i = src)) as [->|Hne].
  - rewrite lookupZ_insert_eq in Hsi by eauto. injection Hsi as <-.
    rewrite lookupZ_insert_eq by eauto.
    rewrite (Hslots src sl Hsl) in Hv. injection Hv as <-.
    unfold setEdgeHead. simpl. by rewrite Hdata.
  - rewrite lookupZ_insert_ne in Hsi by eauto.
    rewrite lookupZ_insert_ne; [by apply Hslots|eauto|done].
Qed.

Lemma abstracts_same_slot (vc : gmap addr Vertex) o g fp src sl cells' v :
  abstracts vc o g fp →
  lookupZ (slots o) src = Some sl →
  lookupZ (vertices g) src = Some v →
  abstracts vc o
    (setVertices g (<[Z.to_nat src := setEdgeHead v (cells'.*2)]> (vertices g)))
    (λ i, if decide (i = src) then cells' else fp i).
Proof.
  intros Habs Hsl Hv.
  pose proof (abstracts_update_slot vc o g fp src sl sl cells' v Habs Hsl Hv eq_refl)
    as Hnew.
  apply lookupZ_Some in Hsl as [_ Hsl]. rewrite list_insert_id in Hnew by done.
  by destruct o.
Qed.

(** [insertEdge] on the store is a step of the object, and the graph the
    object holds afterwards is the one [insertEdge] on graphs returns. *)
Lemma insertEdgeP_refines st this o g fp src dst w b st' :
  graphCells st !! this = Some o →
  ownedBy (edgeCells st) (vertexCells st) o fp →
  abstracts (vertexCells st) o g fp →
  count o < Z.of_nat (length (slots o)) →
  insertEdgeP st this src dst w = Some (b, st') →
  ∃ o' fp' g',
    stepsTo this o fp st o' fp' st' ∧
    abstracts (vertexCells st') o' g' fp' ∧
    insertEdge g src dst w = Some (b, g').
Proof.
  intros Ho Hown Habs Hn Hrun. unfold insertEdgeP in Hrun. unfold insertEdge.
  destruct (Z.ltb_spec w 0) as [Hw|Hw].
  { injection Hrun as <- <-. exists o, fp, g. split; [by apply stepsTo_refl|done]. }
  rewrite Ho in Hrun. simpl in Hrun.
  destruct (lookupZ (slots o) src) as [s|] eqn:Hs; [|done]. simpl in Hrun.
  pose proof (abstracts_lookup _ _ _ _ _ _ Habs Hs) as Hv.
  rewrite Hv. simpl. rewrite storeZ_total by eauto. simpl.
  set (new := fresh (dom (edgeCells st))) in *.
  assert (edgeCells st !! new = None) as Hnew by (apply not_elem_of_dom, is_fresh).
  set (ec1 := <[new := mkEdgeCell (mkEdgeNode dst w) None]> (edgeCells st)) in *.
  assert (∀ a, is_Some (edgeCells st !! a) → ec1 !! a = edgeCells st !! a) as Hec1.
  { intros a [c Hc]. apply lookup_insert_ne. intros <-. congruence. }
  pose proof (own_chain _ _ _ _ Hown src s Hs) as Hchain.
  destruct (edgeHeadPtr s) as [current|] eqn:Hhead.
  - destruct (insertWalkP _ ec1 current new dst w) as [ec'|] eqn:Hwalk; [|done].
    simpl in Hrun. injection Hrun as <- <-.
    assert (new ∉ (fp src).*1) as Hnin.
    { intros Hin. destruct (chainAt_allocated _ _ _ _ Hchain Hin). congruence. }
    destruct (insertWalkP_spec (base.size ec1) (fp src) ec1 current new dst w ec')
      as (cells' & c & rest & Hc' & Hsub & Hframe & Hval & Hval'); try done.
    { eapply chainAt_frame; [|exact Hchain]. intros a Ha. apply Hec1.
      by eapply chainAt_allocated. }
    { apply lookup_insert_eq. }
    eexists o, (λ i, if decide (i = src) then cells' else fp i), _.
    split; [|split].
    + eapply (slot_update_steps_same st this o fp src s cells'); try done; simpl.
      * by rewrite Hhead.
      * intros a Ha. destruct (Hsub a Ha) as [?| ->]; [by left|by right].
      * intros a Ha Hno. rewrite Hframe; [by apply Hec1|done|].
        intros ->. destruct Ha. congruence.
    + simpl. by eapply abstracts_same_slot.
    + rewrite Hval, <- Hval'. done.
  - destruct (storeZ (slots o) src _) as [sl|] eqn:Hst; [|done].
    simpl in Hrun. injection Hrun as <- <-.
    apply storeZ_Some in Hst as [_ ->].
    apply chainAt_None in Hchain as Hnil.
    eexists (mkGraphObject
               (<[Z.to_nat src := mkVertexSlot (Some new) (dataPtr s)]> (slots o))
               (count o) (table o)),
            (λ i, if decide (i = src) then [(new, mkEdgeNode dst w)] else fp i), _.
    split; [|split].
    + eapply (slot_update_steps st this o fp src s
                (mkVertexSlot (Some new) (dataPtr s)) [(new, mkEdgeNode dst w)]);
        try done; simpl.
      * split; [done|]. split; [apply not_elem_of_nil|].
        exists None. split; [apply lookup_insert_eq|done].
      * intros a [->|Ha]%elem_of_cons; [by right|by apply elem_of_nil in Ha].
      * intros a Ha _. by apply Hec1.
    + simpl. by eapply (abstracts_update_slot _ o g fp src s).
    + rewrite Hnil. done.
Qed.

Lemma insertEdgeP_steps st this o fp src dst w b st' :
  graphCells st !! this = Some o →
  ownedBy (edgeCells st) (vertexCells st) o fp →
  count o < Z.of_nat (length (slots o)) →
  insertEdgeP st this src dst w = Some (b, st') →
  ∃ o' fp', stepsTo this o fp st o' fp' st'.
Proof.
  intros Ho Hown Hn Hrun.
  destruct (insertEdgeP_refines st this o _ fp src dst w b st' Ho Hown
              (abstracts_absGraph _ o fp) Hn Hrun) as (o' & fp' & _ & Hstep & _).
  eauto.
Qed.

(** The same for [removeEdge]. *)
Lemma removeEdgeP_refines st this o g fp src dst b st' :
  graphCells st !! this = Some o →
  ownedBy (edgeCells st) (vertexCells st) o fp →
  abstracts (vertexCells st) o g fp →
  count o < Z.of_nat (length (slots o)) →
  removeEdgeP st this src dst = Some (b, st') →
  ∃ o' fp' g',
    stepsTo this o fp st o' fp' st' ∧
    abstracts (vertexCells st') o' g' fp' ∧
    removeEdge g src dst = Some (b, g').
Proof.
  intros Ho Hown Habs Hn Hrun. unfold removeEdgeP in Hrun.
  rewrite Ho in Hrun. simpl in Hrun.
  destruct (lookupZ (slots o) src) as [s|] eqn:Hs; [|done]. simpl in Hrun.
  pose proof (abstracts_lookup _ _ _ _ _ _ Habs Hs) as Hv.
  rewrite (removeEdge_unfold g src dst _ Hv). cbn [edgeHead].
  pose proof (own_chain _ _ _ _ Hown src s Hs) as Hchain.
  destruct (edgeHeadPtr s) as [head|] eqn:Hhead.
  - apply chainAt_Some in Hchain as Hsplit.
    destruct Hsplit as (e & next & rest & Hfp & Hhnin & Hcell & Hrest).
    rewrite Hcell in Hrun. simpl in Hrun.
    rewrite Hfp, fmap_cons, removeWalk_cons. cbn [snd].
    rewrite Hfp, fmap_cons in Hv. cbn [snd] in Hv.
    destruct (adjVertex e =? dst).
    + destruct (storeZ (slots o) src _) as [sl|] eqn:Hst; [|done].
      simpl in Hrun. injection Hrun as <- <-.
      apply storeZ_Some in Hst as [_ ->].
      eexists _, (λ i, if decide (i = src) then rest else fp i), _.
      split; [|split; [|reflexivity]].
      * eapply (slot_update_steps st this o fp src s
                  (mkVertexSlot next (dataPtr s)) rest); try done; simpl.
        -- eapply chainAt_frame; [|exact Hrest]. intros a Ha.
           apply lookup_delete_ne. by intros <-.
        -- intros a Ha. left. rewrite Hfp. by right.
        -- intros a _ Hno. apply lookup_delete_ne. intros <-. apply Hno.
           rewrite Hfp. by left.
      * simpl. by eapply (abstracts_update_slot _ o g fp src s).
    + destruct (removeWalkP _ (edgeCells st) head next dst) as [r|] eqn:Hwalk;
        [|done].
      simpl in Hrun.
      pose proof (removeWalkP_spec (base.size (edgeCells st)) rest (edgeCells st)
                    head e next dst r Hcell Hrest Hhnin Hwalk) as Hspec.
      destruct r as [ec'|]; injection Hrun as <- <-.
      * destruct Hspec as (rest' & Hc' & Hsub & Hframe & Hval).
        rewrite Hval. simpl.
        eexists o, (λ i, if decide (i = src) then (head, e) :: rest' else fp i), _.
        split; [|split; [|reflexivity]].
        -- eapply (slot_update_steps_same st this o fp src s); try done; simpl.
           ++ by rewrite Hhead.
           ++ intros a Ha. left. rewrite Hfp.
              apply elem_of_cons in Ha as [->|Ha]; [by left|]. right. by apply Hsub.
           ++ intros a _ Hno. rewrite Hfp in Hno.
              apply not_elem_of_cons in Hno as [Hah Hno]. by apply Hframe.
        -- simpl. by eapply (abstracts_same_slot _ o g fp src s ((head, e) :: rest')).
      * rewrite Hspec. simpl. exists o, fp, g. split; [by apply stepsTo_refl|done].
  - injection Hrun as <- <-. apply chainAt_None in Hchain as ->. simpl.
    exists o, fp, g. split; [by apply stepsTo_refl|done].
Qed.

Lemma removeEdgeP_steps st this o fp src dst b st' :
  graphCells st !! this = Some o →
  ownedBy (edgeCells st) (vertexCells st) o fp →
  count o < Z.of_nat (length (slots o)) →
  removeEdgeP st this src dst = Some (b, st') →
  ∃ o' fp', stepsTo this o fp st o' fp' st'.
Proof.
  intros Ho Hown Hn Hrun.
  destruct (removeEdgeP_refines st this o _ fp src dst b st' Ho Hown
              (abstracts_absGraph _ o fp) Hn Hrun) as (o' & fp' & _ & Hstep & _).
  eauto.
Qed.

Lemma writeTable_steps st this o fp t st' :
  graphCells st !! this = Some o →
  ownedBy (edgeCells st) (vertexCells st) o fp →
  count o < Z.of_nat (length (slots o)) →
  writeTable st this t = Some st' →
  stepsTo this o fp st (mkGraphObject (slots o) (count o) t) fp st'.
Proof.
  intros Ho Hown Hn Hrun. unfold writeTable in Hrun. rewrite Ho in Hrun.
  simpl in Hrun. injection Hrun as <-.
  split; [simpl; apply lookup_insert_eq|]. split; [|split; [done|split; [|split]]].
  - destruct Hown as [H1 H2 H3 H4 H5]. by split.
  - split; [done|]. split; [done|]. intros b Hb. simpl. by apply lookup_insert_ne.
  - intros a Ha. by left.
  - intros a Ha. by left.
Qed.

(** Every public operation on a well-formed object is a step of it. *)
Lemma mutation_steps this st st' o fp :
  mutation this st st' →
  graphCells st !! this = Some o →
  ownedBy (edgeCells st) (vertexCells st) o fp →
  count o < Z.of_nat (length (slots o)) →
  ∃ o' fp', stepsTo this o fp st o' fp' st'.
Proof.
  intros Hmut Ho Hown Hn. destruct Hmut as [st src dst w b st' Hrun
    |st src dst b st' Hrun|st st' Hrun|st t st' Hrun].
  - by eapply insertEdgeP_steps.
  - by eapply removeEdgeP_steps.
  - destruct (clearGraphP_steps st this o fp Ho Hown Hn)
      as (st1 & o1 & Hrun1 & Hstep & _).
    rewrite Hrun in Hrun1. injection Hrun1 as <-. eauto.
  - eexists _, _. by eapply writeTable_steps.
Qed.

(** However the object at [this] is changed afterwards, an object that
    shared nothing with it holds the same graph in the same cells. *)
Lemma mutations_keep_other this from oF gF fpF st st' :
  this ≠ from →
  mutations this st st' →
  ∀ o fp,
    graphCells st !! this = Some o →
    ownedBy (edgeCells st) (vertexCells st) o fp →
    count o < Z.of_nat (length (slots o)) →
    graphCells st !! from = Some oF →
    represents (edgeCells st) (vertexCells st) oF gF fpF →
    apart o fp oF fpF →
    graphCells st' !! from = Some oF ∧
    represents (edgeCells st') (vertexCells st') oF gF fpF.
Proof.
  intros Hne Hmuts. induction Hmuts as [st|st st1 st2 Hmut Hmuts IH];
    intros o fp Ho Hown Hn HoF Hrep Hapart; [done|].
  destruct (mutation_steps this st st1 o fp Hmut Ho Hown Hn) as (o1 & fp1 & Hstep).
  destruct (other_object_kept this from o fp st o1 fp1 st1 oF gF fpF
              Hne Hstep HoF Hrep Hapart) as (HoF1 & Hrep1 & Hapart1).
  destruct Hstep as (Ho1 & Hown1 & Hn1 & _).
  by eapply (IH o1 fp1).
Qed.

(** ** Duplication *)

Lemma ownedBy_slots (ec : gmap addr EdgeCell) (vc : gmap addr Vertex) o o' fp :
  slots o' = slots o → ownedBy ec vc o fp → ownedBy ec vc o' fp.
Proof. intros Heq [H1 H2 H3 H4 H5]. split; rewrite ?Heq; done. Qed.

Lemma ownsLabel_slots o o' a :
  slots o' = slots o → ownsLabel o' a → ownsLabel o a.
Proof. intros Heq (i & sl & Hsl & Ha). rewrite Heq in Hsl. by exists i, sl. Qed.

(** [copyGraph] into a well-formed object of the same size that shares
    nothing with the source makes it an independent copy. *)
Lemma copyGraph_independent st this from o fpT oF gF fpF :
  this ≠ from →
  graphCells st !! this = Some o →
  ownedBy (edgeCells st) (vertexCells st) o fpT →
  count o = count oF →
  count o < Z.of_nat (length (slots o)) →
  copyable st from oF gF fpF →
  apart o fpT oF fpF →
  ∃ st', copyGraph st this from = Some st' ∧
         independentCopy st' this from oF gF fpF.
Proof.
  intros Hne Ho Hown Hcount Hn (HoF & Hrep & HnF & Hdata) Hapart.
  pose proof Hrep as [HownF HabsF].
  destruct (copyGraph_steps st this from o oF fpT fpF Hne Ho HoF Hown HownF Hn)
    as (st' & o' & fp' & Hrun & Hstep & _ & _ & Hc' & Ht' & Hl' & Hcopied & _).
  { lia. }
  { intros i sl Hi. apply Hdata. lia. }
  exists st'. split; [done|].
  destruct (other_object_kept this from o fpT st o' fp' st' oF gF fpF
              Hne Hstep HoF Hrep Hapart) as (HoF' & Hrep' & Hapart').
  pose proof Hstep as (Ho' & Hown' & Hn' & _).
  exists o', (absGraph (vertexCells st') o' fp'), fp'.
  split; [done|]. split; [done|].
  split; [split; [done|apply abstracts_absGraph]|].
  split; [done|]. split; [|split; [done|]].
  - destruct HabsF as (Hsz & HT & _ & _). split; [|split].
    + simpl. lia.
    + simpl. by rewrite Ht'.
    + intros i Hi. destruct (Hcopied i) as (sl & fsl & Hsl & Hfsl & Hval & Hlab);
        [lia|].
      rewrite (abstracts_lookup _ _ _ _ _ _ (abstracts_absGraph _ o' fp') Hsl).
      rewrite (abstracts_lookup _ _ _ _ _ _ (proj2 Hrep) Hfsl).
      by rewrite Hval, Hlab.
  - intros st'' Hmuts.
    by eapply (mutations_keep_other this from oF gF fpF st' st'' Hne Hmuts o' fp').
Qed.

(** C9: assigning an object to itself leaves the store as it is.
    Assigning [from] to another object [this], and copy-constructing [this]
    from [from], are defined and make [this] an independent copy: it holds
    the labels, the edge lists (same order, same weights) and the table of
    [from]; the two objects share no edge node and no label; [from] holds
    what it held; and whatever [insertEdge], [removeEdge], [clearGraph] and
    rewritings of the table are applied to [this] afterwards, [from] still
    holds the same graph in the same cells. *)
Theorem duplicate_is_independent :
  (∀ st a, assign st a a = Some st) ∧
  (∀ st this from oT fpT oF gF fpF,
     this ≠ from →
     graphCells st !! this = Some oT →
     ownedBy (edgeCells st) (vertexCells st) oT fpT →
     count oT < Z.of_nat (length (slots oT)) →
     length (slots oT) = length (slots oF) →
     copyable st from oF gF fpF →
     apart oT fpT oF fpF →
     ∃ st', assign st this from = Some st' ∧
            independentCopy st' this from oF gF fpF) ∧
  (∀ st this from T0 oF gF fpF,
     graphCells st !! this = None →
     Z.of_nat (length (slots oF)) = MAX_VERTICES →
     copyable st from oF gF fpF →
     ∃ st', copyConstruct st this from T0 = Some st' ∧
            independentCopy st' this from oF gF fpF).
Proof.
  split; [|split].
  - intros st a. unfold assign. by destruct (decide (a = a)).
  - intros st this from oT fpT oF gF fpF Hne Ho Hown Hn Hlen
      (HoF & Hrep & HnF & Hdata) Hapart.
    unfold assign. destruct (decide (this = from)) as [|_]; [done|].
    destruct (clearGraphP_steps st this oT fpT Ho Hown Hn)
      as (st1 & o1 & -> & Hstep & Hc1 & Ht1 & Hl1 & _).
    simpl.
    destruct (other_object_kept this from oT fpT st o1 _ st1 oF gF fpF
                Hne Hstep HoF Hrep Hapart) as (HoF1 & Hrep1 & Hapart1).
    destruct Hstep as (Ho1 & Hown1 & Hn1 & _).
    rewrite Ho1, HoF1. simpl.
    eapply (copyGraph_independent _ this from
              (mkGraphObject (slots o1) (count oF) (table o1))).
    + done.
    + simpl. apply lookup_insert_eq.
    + simpl. by eapply ownedBy_slots; [|exact Hown1].
    + done.
    + simpl. lia.
    + split; [simpl; by rewrite lookup_insert_ne|]. by split.
    + destruct Hapart1 as [Hac Hal]. split; [done|].
      intros a Ha. apply Hal. by eapply ownsLabel_slots; [|exact Ha].
  - intros st this from T0 oF gF fpF Hfree Hlen (HoF & Hrep & HnF & Hdata).
    assert (this ≠ from) as Hne by (intros ->; congruence).
    unfold copyConstruct. rewrite HoF. cbn [mbind option_bind].
    assert (∀ i sl,
              lookupZ (replicate (Z.to_nat MAX_VERTICES) (mkVertexSlot None None)) i
                = Some sl → sl = mkVertexSlot None None) as Hblank.
    { intros i sl [_ Hsl]%lookupZ_Some. by apply lookup_replicate in Hsl as [-> _]. }
    eapply (copyGraph_independent _ this from _ (λ _, [])).
    + done.
    + cbn [graphCells]. apply lookup_insert_eq.
    + split; cbn [slots].
      * intros i sl Hsl. by rewrite (Hblank i sl Hsl).
      * intros i sl a Hsl Ha. by rewrite (Hblank i sl Hsl) in Ha.
      * done.
      * intros i j a Ha. by apply elem_of_nil in Ha.
      * intros i j si sj a Hsi _ Ha. by rewrite (Hblank i si Hsi) in Ha.
    + done.
    + cbn [slots count]. rewrite length_replicate. unfold MAX_VERTICES in *. lia.
    + split; [cbn [graphCells]; by rewrite lookup_insert_ne|]. by split.
    + split.
      * intros a [i Ha]. by apply elem_of_nil in Ha.
      * intros a (i & sl & Hsl & Ha). cbn [slots] in Hsl.
        by rewrite (Hblank i sl Hsl) in Ha.
Qed.

(** ** The scenario in the store *)

Lemma scenarioObject_slot i sl :
  lookupZ (slots scenarioObject) i = Some sl →
  (i = 1 ∧ sl = mkVertexSlot (Some 1%positive) (Some 1%positive)) ∨
  (i = 2 ∧ sl = mkVertexSlot (Some 3%positive) (Some 2%positive)) ∨
  (i = 3 ∧ sl = mkVertexSlot None (Some 3%positive)) ∨
  (i ≠ 1 ∧ i ≠ 2 ∧ i ≠ 3 ∧ sl = mkVertexSlot None None).
Proof.
  intros [Hi Hsl]%lookupZ_Some. unfold scenarioObject in Hsl. cbn [slots] in Hsl.
  destruct (decide (Z.to_nat i < 4)%nat) as [Hlt|Hge].
  - rewrite lookup_app_l in Hsl by (simpl; lia).
    destruct (Z.to_nat i) as [|[|[|[|n]]]] eqn:Hn; simpl in Hsl; [..|lia];
      injection Hsl as <-.
    + do 3 right. repeat split; lia.
    + left. split; [lia|done].
    + right. left. split; [lia|done].
    + do 2 right. left. split; [lia|done].
  - rewrite lookup_app_r in Hsl by (simpl; lia).
    apply lookup_replicate in Hsl as [-> _]. do 3 right.
    simpl in Hge. repeat split; lia.
Qed.

Lemma scenarioObject_owned :
  ownedBy (edgeCells scenarioStore) (vertexCells scenarioStore)
    scenarioObject scenarioCells.
Proof.
  split.
  - intros i sl Hsl.
    destruct (scenarioObject_slot i sl Hsl)
      as [[-> ->]|[[-> ->]|[[-> ->]|(H1 & H2 & H3 & ->)]]]; simpl.
    + split; [done|]. split; [by intros [=]%list_elem_of_singleton|].
      eexists. split; [vm_compute; reflexivity|].
      split; [done|]. split; [apply not_elem_of_nil|].
      eexists. split; [vm_compute; reflexivity|done].
    + split; [done|]. split; [apply not_elem_of_nil|].
      eexists. split; [vm_compute; reflexivity|done].
    + done.
    + unfold scenarioCells. by repeat case_decide.
  - intros i sl a Hsl Ha.
    destruct (scenarioObject_slot i sl Hsl)
      as [[-> ->]|[[-> ->]|[[-> ->]|(H1 & H2 & H3 & ->)]]]; simpl in Ha;
      [injection Ha as <-; vm_compute; eauto..|done].
  - intros i Hnone. unfold scenarioCells.
    repeat case_decide; subst; try done; by vm_compute in Hnone.
  - intros i j a Hi Hj. unfold scenarioCells in *.
    repeat case_decide; subst; try done; simpl in *;
      repeat match goal with
             | H : _ ∈ _ :: _ |- _ => apply elem_of_cons in H as [H|H]
             | H : _ ∈ [] |- _ => by apply elem_of_nil in H
             end; congruence.
  - intros i j si sj a Hsi Hsj Hai Haj.
    destruct (scenarioObject_slot i si Hsi)
      as [[-> ->]|[[-> ->]|[[-> ->]|(H1 & H2 & H3 & ->)]]];
    destruct (scenarioObject_slot j sj Hsj)
      as [[-> ->]|[[-> ->]|[[-> ->]|(H1' & H2' & H3' & ->)]]];
    simpl in *; congruence.
Qed.

Lemma scenarioObject_holds_scenarioGraph :
  absGraph (vertexCells scenarioStore) scenarioObject scenarioCells = scenarioGraph.
Proof. vm_compute. reflexivity. Qed.

Lemma scenarioObject_copyable :
  copyable scenarioStore 1%positive scenarioObject scenarioGraph scenarioCells.
Proof.
  split; [vm_compute; reflexivity|]. split; [split|split].
  - apply scenarioObject_owned.
  - rewrite <- scenarioObject_holds_scenarioGraph. apply abstracts_absGraph.
  - simpl. lia.
  - intros i sl Hi Hsl. simpl in Hi.
    destruct (scenarioObject_slot i sl Hsl)
      as [[-> ->]|[[-> ->]|[[-> ->]|(H1 & H2 & H3 & ->)]]]; simpl; eauto. lia.
Qed.

Lemma blank_owned (ec : gmap addr EdgeCell) (vc : gmap addr Vertex) n k t :
  ownedBy ec vc (mkGraphObject (replicate k (mkVertexSlot None None)) n t)
    (λ _, []).
Proof.
  assert (∀ i sl, lookupZ (replicate k (mkVertexSlot None None)) i = Some sl →
                  sl = mkVertexSlot None None) as Hblank.
  { intros i sl [_ Hsl]%lookupZ_Some. by apply lookup_replicate in Hsl as [-> _]. }
  split; cbn [slots].
  - intros i sl Hsl. by rewrite (Hblank i sl Hsl).
  - intros i sl a Hsl Ha. by rewrite (Hblank i sl Hsl) in Ha.
  - done.
  - intros i j a Ha. by apply elem_of_nil in Ha.
  - intros i j si sj a Hsi _ Ha. by rewrite (Hblank i si Hsi) in Ha.
Qed.

Lemma duplicate_is_independent_witness :
  assign scenarioStore 1%positive 1%positive = Some scenarioStore ∧
  (∃ st', assign scenarioStore 2%positive 1%positive = Some st' ∧
          independentCopy st' 2%positive 1%positive
            scenarioObject scenarioGraph scenarioCells) ∧
  (∃ st', copyConstruct scenarioStore 3%positive 1%positive initTable = Some st' ∧
          independentCopy st' 3%positive 1%positive
            scenarioObject scenarioGraph scenarioCells).
Proof.
  pose proof duplicate_is_independent as (Hself & Hassign & Hctor).
  split; [apply Hself|]. split.
  - apply (Hassign scenarioStore 2%positive 1%positive blankObject (λ _, [])).
    + done.
    + vm_compute. reflexivity.
    + apply blank_owned.
    + simpl. lia.
    + reflexivity.
    + apply scenarioObject_copyable.
    + split.
      * intros a [i Ha]. by apply elem_of_nil in Ha.
      * intros a (i & sl & [_ Hsl]%lookupZ_Some & Ha).
        apply lookup_replicate in Hsl as [-> _]. done.
  - apply Hctor.
    + vm_compute. reflexivity.
    + reflexivity.
    + apply scenarioObject_copyable.
Defined.
(** * Memory safety of the operations on the store *)

(** ** The walks meet allocated cells only *)

Lemma insertWalkP_total cells :
  ∀ (ec : gmap addr EdgeCell) current new dst w fuel,
    chainAt ec (Some current) cells → (length cells ≤ fuel)%nat →
    is_Some (insertWalkP fuel ec current new dst w).
Proof.
  induction cells as [|[a e] rest IH]; intros ec current new dst w fuel Hc Hfuel;
    [done|].
  destruct Hc as ([= ->] & Hnin & next & Ha & Hrest).
  destruct fuel as [|fuel]; [simpl in Hfuel; lia|]. simpl. rewrite Ha. simpl.
  destruct next as [nxt|]; [|by eexists].
  destruct (adjVertex e =? dst); [by eexists|].
  apply (IH ec nxt new dst w fuel Hrest). simpl in Hfuel. lia.
Qed.

Lemma removeWalkP_total rest :
  ∀ (ec : gmap addr EdgeCell) previous current dst fuel,
    is_Some (ec !! previous) → chainAt ec current rest →
    (length rest ≤ fuel)%nat →
    is_Some (removeWalkP fuel ec previous current dst).
Proof.
  induction rest as [|[a e] rest IH]; intros ec previous current dst fuel Hp Hc Hfuel.
  - simpl in Hc. subst current. destruct fuel; by eexists.
  - destruct Hc as (-> & Hnin & next & Ha & Hrest).
    destruct fuel as [|fuel]; [simpl in Hfuel; lia|]. simpl. rewrite Ha. simpl.
    destruct (adjVertex e =? dst).
    + destruct Hp as [p ->]. by eexists.
    + apply (IH ec a next dst fuel); [by eexists|done|]. simpl in Hfuel. lia.
Qed.

Lemma insertEdgeP_total st this o fp src dst w :
  graphCells st !! this = Some o →
  ownedBy (edgeCells st) (vertexCells st) o fp →
  is_Some (lookupZ (slots o) src) →
  is_Some (insertEdgeP st this src dst w).
Proof.
  intros Ho Hown [s Hs]. unfold insertEdgeP.
  destruct (w <? 0); [by eexists|]. rewrite Ho. cbn [mbind option_bind].
  rewrite Hs. cbn [mbind option_bind].
  set (new := fresh (dom (edgeCells st))).
  assert (edgeCells st !! new = None) as Hnew by (apply not_elem_of_dom, is_fresh).
  set (ec1 := <[new := mkEdgeCell (mkEdgeNode dst w) None]> (edgeCells st)).
  pose proof (own_chain _ _ _ _ Hown src s Hs) as Hchain.
  destruct (edgeHeadPtr s) as [current|] eqn:Hhead.
  - assert (chainAt ec1 (Some current) (fp src)) as Hchain1.
    { eapply chainAt_frame; [|exact Hchain]. intros a Ha.
      apply lookup_insert_ne. intros <-.
      destruct (chainAt_allocated _ _ _ _ Hchain Ha). congruence. }
    destruct (insertWalkP_total (fp src) ec1 current new dst w (base.size ec1)
                Hchain1) as [ec' ->]; [by eapply chainAt_length|].
    by eexists.
  - rewrite storeZ_total by eauto. by eexists.
Qed.

Lemma removeEdgeP_total st this o fp src dst :
  graphCells st !! this = Some o →
  ownedBy (edgeCells st) (vertexCells st) o fp →
  is_Some (lookupZ (slots o) src) →
  is_Some (removeEdgeP st this src dst).
Proof.
  intros Ho Hown [s Hs]. unfold removeEdgeP.
  rewrite Ho. cbn [mbind option_bind]. rewrite Hs. cbn [mbind option_bind].
  pose proof (own_chain _ _ _ _ Hown src s Hs) as Hchain.
  destruct (edgeHeadPtr s) as [head|] eqn:Hhead; [|by eexists].
  apply chainAt_Some in Hchain as Hsplit.
  destruct Hsplit as (e & next & rest & Hfp & Hnin & Hcell & Hrest).
  rewrite Hcell. cbn [mbind option_bind nextEdge node].
  destruct (adjVertex e =? dst).
  - rewrite storeZ_total by eauto. by eexists.
  - destruct (removeWalkP_total rest (edgeCells st) head next dst
                (base.size (edgeCells st))) as [r ->]; [by eexists|done| |].
    + pose proof (chainAt_length _ _ _ Hchain) as Hlen.
      rewrite Hfp in Hlen. simpl in Hlen. lia.
    + cbn [mbind option_bind]. destruct r; by eexists.
Qed.

(** X18: on a well-formed object and for a source subscript inside its
    array, [insertEdge] on the store is defined: the walk follows only
    pointers to allocated nodes.  It returns what [insertEdge] on the list
    model returns, the object afterwards is well-formed, holds the graph
    the list model gives, and the store outside the cells of the object is
    as it was. *)
Theorem insertEdgeP_simulates st this o g fp src dst w :
  graphCells st !! this = Some o →
  represents (edgeCells st) (vertexCells st) o g fp →
  count o < Z.of_nat (length (slots o)) →
  is_Some (lookupZ (slots o) src) →
  ∃ b st' o' fp' g',
    insertEdgeP st this src dst w = Some (b, st') ∧
    insertEdge g src dst w = Some (b, g') ∧
    graphCells st' !! this = Some o' ∧
    represents (edgeCells st') (vertexCells st') o' g' fp' ∧
    framed this o fp st st'.
Proof.
  intros Ho [Hown Habs] Hn Hsrc.
  destruct (insertEdgeP_total st this o fp src dst w Ho Hown Hsrc) as [[b st'] Hrun].
  destruct (insertEdgeP_refines st this o g fp src dst w b st' Ho Hown Habs Hn Hrun)
    as (o' & fp' & g' & (Ho' & Hown' & _ & Hframed & _) & Habs' & Hins).
  exists b, st', o', fp', g'.
  split; [done|]. split; [done|]. split; [done|]. split; [by split|done].
Qed.

Lemma insertEdgeP_simulates_witness :
  ∃ b st' o' fp' g',
    insertEdgeP scenarioStore 1%positive 3 1 4 = Some (b, st') ∧
    insertEdge scenarioGraph 3 1 4 = Some (b, g') ∧
    graphCells st' !! 1%positive = Some o' ∧
    represents (edgeCells st') (vertexCells st') o' g' fp' ∧
    framed 1%positive scenarioObject scenarioCells scenarioStore st'.
Proof.
  destruct scenarioObject_copyable as (Ho & Hrep & Hn & _).
  apply (insertEdgeP_simulates scenarioStore 1%positive scenarioObject
           scenarioGraph scenarioCells 3 1 4 Ho Hrep Hn).
  vm_compute. eauto.
Defined.

(** X19: the same for [removeEdge]: on a well-formed object and for a
    source subscript inside its array the call is defined, returns what
    [removeEdge] on the list model returns and leaves a well-formed object
    that holds the graph of the list model; the store outside the cells
    of the object is as it was. *)
Theorem removeEdgeP_simulates st this o g fp src dst :
  graphCells st !! this = Some o →
  represents (edgeCells st) (vertexCells st) o g fp →
  count o < Z.of_nat (length (slots o)) →
  is_Some (lookupZ (slots o) src) →
  ∃ b st' o' fp' g',
    removeEdgeP st this src dst = Some (b, st') ∧
    removeEdge g src dst = Some (b, g') ∧
    graphCells st' !! this = Some o' ∧
    represents (edgeCells st') (vertexCells st') o' g' fp' ∧
    framed this o fp st st'.
Proof.
  intros Ho [Hown Habs] Hn Hsrc.
  destruct (removeEdgeP_total st this o fp src dst Ho Hown Hsrc) as [[b st'] Hrun].
  destruct (removeEdgeP_refines st this o g fp src dst b st' Ho Hown Habs Hn Hrun)
    as (o' & fp' & g' & (Ho' & Hown' & _ & Hframed & _) & Habs' & Hrem).
  exists b, st', o', fp', g'.
  split; [done|]. split; [done|]. split; [done|]. split; [by split|done].
Qed.

Lemma removeEdgeP_simulates_witness :
  ∃ b st' o' fp' g',
    removeEdgeP scenarioStore 1%positive 1 3 = Some (b, st') ∧
    removeEdge scenarioGraph 1 3 = Some (b, g') ∧
    graphCells st' !! 1%positive = Some o' ∧
    represents (edgeCells st') (vertexCells st') o' g' fp' ∧
    framed 1%positive scenarioObject scenarioCells scenarioStore st'.
Proof.
  destruct scenarioObject_copyable as (Ho & Hrep & Hn & _).
  apply (removeEdgeP_simulates scenarioStore 1%positive scenarioObject
           scenarioGraph scenarioCells 1 3 Ho Hrep Hn).
  vm_compute. eauto.
Defined.

(** X17: [clearGraph] on a well-formed object, and so the destructor, is
    defined; it frees every edge node of the chains of the slots
    [1..size] and every label of these slots, each once, nulls these
    slots, and frees nothing else: nodes hanging from slot 0 or from a
    slot beyond [size] stay allocated. *)
Theorem clearGraphP_releases st this o fp :
  graphCells st !! this = Some o →
  ownedBy (edgeCells st) (vertexCells st) o fp →
  count o < Z.of_nat (length (slots o)) →
  ∃ st' o',
    clearGraphP st this = Some st' ∧ graphCells st' !! this = Some o' ∧
    (∀ i, 1 ≤ i ≤ count o → lookupZ (slots o') i = Some (mkVertexSlot None None)) ∧
    (∀ i a, 1 ≤ i ≤ count o → a ∈ (fp i).*1 → edgeCells st' !! a = None) ∧
    (∀ i sl a, 1 ≤ i ≤ count o → lookupZ (slots o) i = Some sl →
               dataPtr sl = Some a → vertexCells st' !! a = None) ∧
    (∀ a, ¬ (∃ i, 1 ≤ i ≤ count o ∧ a ∈ (fp i).*1) →
          edgeCells st' !! a = edgeCells st !! a) ∧
    (∀ a, ¬ (∃ i sl, 1 ≤ i ≤ count o ∧ lookupZ (slots o) i = Some sl ∧
                     dataPtr sl = Some a) →
          vertexCells st' !! a = vertexCells st !! a).
Proof.
  intros Ho Hown Hn. unfold clearGraphP. rewrite Ho. cbn [mbind option_bind].
  destruct (Z.ltb_spec 0 (count o)) as [Hpos|Hpos].
  - destruct (clearSlots_spec (edgeCells st) (vertexCells st) o fp (count o) Hown Hn)
      as (f & -> & Hlen & Hnull & Hsame & Hgone & Hkept & Hlgone & Hlkept).
    cbn [mbind option_bind]. eexists _, _. split; [reflexivity|].
    cbn [graphCells edgeCells vertexCells].
    split; [apply lookup_insert_eq|]. cbn [slots].
    split; [exact Hnull|]. split; [|split; [|split; [exact Hkept|exact Hlkept]]].
    + intros i a Hi Ha. apply Hgone. eauto.
    + intros i sl a Hi Hsl Ha. apply Hlgone. eauto.
  - exists st, o. split; [done|]. split; [done|].
    split; [intros; lia|]. split; [intros; lia|]. split; [intros; lia|]. done.
Qed.

Lemma clearGraphP_releases_witness :
  ∃ st' o',
    clearGraphP scenarioStore 1%positive = Some st' ∧
    graphCells st' !! 1%positive = Some o' ∧
    edgeCells st' !! 2%positive = None ∧
    vertexCells st' !! 3%positive = None.
Proof.
  destruct scenarioObject_copyable as (Ho & [Hown _] & Hn & _).
  destruct (clearGraphP_releases scenarioStore 1%positive scenarioObject
              scenarioCells Ho Hown Hn)
    as (st' & o' & Hrun & Ho' & _ & Hcells & Hlabels & _).
  exists st', o'. split; [exact Hrun|]. split; [exact Ho'|]. split.
  - apply (Hcells 1 2%positive); [simpl; lia|].
    apply elem_of_cons. right. apply elem_of_cons. by left.
  - apply (Hlabels 3 (mkVertexSlot None (Some 3%positive)) 3%positive);
      [simpl; lia|reflexivity|reflexivity].
Defined.

(** ** Nothing leaks *)

(** The cells after the walk of [insertEdge]: the chain keeps its cells
    and either the new node is freed again or it is the last cell of the
    chain; no other cell is allocated or freed. *)
Lemma insertWalkP_cells fuel :
  ∀ cells (ec : gmap addr EdgeCell) current new dst w ec',
    chainAt ec (Some current) cells →
    ec !! new = Some (mkEdgeCell (mkEdgeNode dst w) None) →
    new ∉ cells.*1 →
    insertWalkP fuel ec current new dst w = Some ec' →
    ∃ cells',
      chainAt ec' (Some current) cells' ∧
      ((cells'.*1 = cells.*1 ∧ ec' !! new = None) ∨
       cells'.*1 = cells.*1 ++ [new]) ∧
      (∀ a, a ≠ new → is_Some (ec' !! a) ↔ is_Some (ec !! a)) ∧
      (∀ a, a ∉ cells.*1 → a ≠ new → ec' !! a = ec !! a).
Proof.
  induction fuel as [|fuel IH]; intros cells ec current new dst w ec' Hc Hnew Hnin Hrun;
    [done|].
  apply chainAt_Some in Hc as (e & next & rest & -> & Hcur & Hcell & Hrest).
  simpl in Hrun. rewrite Hcell in Hrun. simpl in Hrun.
  apply not_elem_of_cons in Hnin as [Hnc Hnin]. simpl in Hnc.
  destruct next as [nxt|].
  - destruct (Z.eqb_spec (adjVertex e) dst) as [Hadj|Hadj].
    + injection Hrun as <-.
      exists ((current, mkEdgeNode (adjVertex e) w) :: rest).
      split; [|split; [|split]].
      * split; [done|]. split; [done|]. exists (Some nxt). split.
        -- rewrite lookup_delete_ne by done. apply lookup_insert_eq.
        -- eapply chainAt_frame; [|exact Hrest]. intros a Ha.
           rewrite lookup_delete_ne by (intros <-; done).
           apply lookup_insert_ne. by intros <-.
      * left. split; [done|]. apply lookup_delete_eq.
      * intros a Ha. rewrite lookup_delete_ne by done.
        destruct (decide (a = current)) as [->|Hne].
        -- rewrite lookup_insert_eq, Hcell. split; eauto.
        -- by rewrite lookup_insert_ne.
      * intros a Ha Hne. apply not_elem_of_cons in Ha as [Hac _].
        rewrite lookup_delete_ne by done. by rewrite lookup_insert_ne.
    + destruct (IH rest ec nxt new dst w ec' Hrest Hnew Hnin Hrun)
        as (cells' & Hc' & Hshape & Hdom & Hframe).
      exists ((current, e) :: cells'). split; [|split; [|split]].
      * split; [done|]. split.
        -- destruct Hshape as [[-> _]| ->]; [done|].
           rewrite elem_of_app, list_elem_of_singleton. intros [?|?]; done.
        -- exists (Some nxt). split; [|done]. by rewrite Hframe.
      * rewrite !fmap_cons. cbn [fst].
        destruct Hshape as [[Heq Hgone]|Heq]; [left|right]; by rewrite Heq.
      * done.
      * intros a Ha Hne. apply not_elem_of_cons in Ha as [_ Ha]. by apply Hframe.
  - injection Hrun as <-. apply chainAt_None in Hrest as ->.
    exists [(current, e); (new, mkEdgeNode dst w)]. split; [|split; [|split]].
    + split; [done|]. split.
      * simpl. rewrite list_elem_of_singleton. done.
      * exists (Some new). split; [apply lookup_insert_eq|].
        split; [done|]. split; [apply not_elem_of_nil|].
        exists None. split; [|done]. by rewrite lookup_insert_ne.
    + by right.
    + intros a Ha. destruct (decide (a = current)) as [->|Hne].
      * rewrite lookup_insert_eq, Hcell. split; eauto.
      * by rewrite lookup_insert_ne.
    + intros a Ha Hne. apply not_elem_of_cons in Ha as [Hac _].
      by rewrite lookup_insert_ne.
Qed.

(** The cells after the walk of [removeEdge] that unlinked a node: that
    node, a cell of the chain, is freed, and no other cell is allocated or
    freed. *)
Lemma removeWalkP_cells fuel :
  ∀ rest (ec : gmap addr EdgeCell) previous current dst ec',
    is_Some (ec !! previous) → chainAt ec current rest →
    previous ∉ rest.*1 →
    removeWalkP fuel ec previous current dst = Some (Some ec') →
    ∃ a, a ∈ rest.*1 ∧ ec' !! a = None ∧
         ∀ c, c ≠ a → is_Some (ec' !! c) ↔ is_Some (ec !! c).
Proof.
  induction fuel as [|fuel IH]; intros rest ec previous current dst ec' Hp Hc Hnin Hrun.
  - by destruct current.
  - destruct current as [a|]; simpl in Hrun; [|done].
    apply chainAt_Some in Hc as (e & next & rest2 & -> & Hn2 & Hcell & Hrest2).
    apply not_elem_of_cons in Hnin as [Hpa Hnin]. simpl in Hpa.
    rewrite Hcell in Hrun. simpl in Hrun.
    destruct (adjVertex e =? dst).
    + destruct Hp as [p Hp]. rewrite Hp in Hrun. simpl in Hrun.
      injection Hrun as <-. exists a. split; [by left|].
      split; [apply lookup_delete_eq|]. intros c Hc.
      rewrite lookup_delete_ne by done.
      destruct (decide (c = previous)) as [->|Hne].
      * rewrite lookup_insert_eq, Hp. split; eauto.
      * by rewrite lookup_insert_ne.
    + destruct (IH rest2 ec a next dst ec') as (b & Hb & Hgone & Hdom);
        [by eexists|done|done|done|].
      exists b. split; [by right|done].
Qed.

(** X20: [insertEdge] on the store leaks no node.  After the call the
    allocated edge nodes are those allocated before together with those
    of the lists of the object: the node created at the start of the call
    is linked into the list of [src], or it is freed again when the weight
    of an existing node is overwritten. *)
Theorem insertEdgeP_no_leak st this o fp src dst w b st' :
  graphCells st !! this = Some o →
  ownedBy (edgeCells st) (vertexCells st) o fp →
  count o < Z.of_nat (length (slots o)) →
  insertEdgeP st this src dst w = Some (b, st') →
  ∃ o' fp',
    graphCells st' !! this = Some o' ∧
    ownedBy (edgeCells st') (vertexCells st') o' fp' ∧
    ∀ a, is_Some (edgeCells st' !! a) ↔
         is_Some (edgeCells st !! a) ∨ ownsCell fp' a.
Proof.
  intros Ho Hown Hn Hrun.
  destruct (insertEdgeP_steps st this o fp src dst w b st' Ho Hown Hn Hrun)
    as (o' & fp' & Ho' & Hown' & _ & _ & _).
  exists o', fp'. split; [done|]. split; [done|].
  assert (∀ a, ownsCell fp' a → is_Some (edgeCells st' !! a)) as Halloc.
  { intros a Ha. by eapply ownsCell_allocated. }
  unfold insertEdgeP in Hrun.
  destruct (w <? 0).
  { injection Hrun as <- <-. intros a. split; [by left|]. intros [?|?]; auto. }
  rewrite Ho in Hrun. cbn [mbind option_bind] in Hrun.
  destruct (lookupZ (slots o) src) as [s|] eqn:Hs; [|done].
  cbn [mbind option_bind] in Hrun.
  set (new := fresh (dom (edgeCells st))) in *.
  assert (edgeCells st !! new = None) as Hnew by (apply not_elem_of_dom, is_fresh).
  set (ec1 := <[new := mkEdgeCell (mkEdgeNode dst w) None]> (edgeCells st)) in *.
  pose proof (own_chain _ _ _ _ Hown src s Hs) as Hchain.
  destruct (edgeHeadPtr s) as [current|] eqn:Hhead.
  - destruct (insertWalkP _ ec1 current new dst w) as [ec'|] eqn:Hwalk; [|done].
    cbn [mbind option_bind] in Hrun. injection Hrun as <- <-.
    cbn [edgeCells graphCells vertexCells] in *.
    assert (o' = o) as -> by congruence.
    assert (new ∉ (fp src).*1) as Hnin.
    { intros Hin. destruct (chainAt_allocated _ _ _ _ Hchain Hin). congruence. }
    destruct (insertWalkP_cells (base.size ec1) (fp src) ec1 current new dst w ec')
      as (cells' & Hc' & Hshape & Hdom & _); try done.
    { eapply chainAt_frame; [|exact Hchain]. intros a Ha.
      apply lookup_insert_ne. intros <-. done. }
    { apply lookup_insert_eq. }
    pose proof (own_chain _ _ _ _ Hown' src s Hs) as Hchain'.
    rewrite Hhead in Hchain'.
    pose proof (chainAt_unique _ _ _ _ Hchain' Hc') as Hfp'.
    intros a. split.
    + intros Ha. destruct (decide (a = new)) as [->|Hne].
      * right. exists src. rewrite Hfp'.
        destruct Hshape as [[_ Hgone]| ->].
        -- rewrite Hgone in Ha. by destruct Ha.
        -- apply elem_of_app. right. by apply list_elem_of_singleton.
      * left. apply Hdom in Ha; [|done]. unfold ec1 in Ha.
        by rewrite lookup_insert_ne in Ha.
    + intros [Ha|Ha]; [|by apply Halloc]. apply Hdom.
      * intros ->. destruct Ha. congruence.
      * unfold ec1. rewrite lookup_insert_ne; [done|]. intros <-.
        destruct Ha. congruence.
  - destruct (storeZ (slots o) src _) as [sl|] eqn:Hst; [|done].
    cbn [mbind option_bind] in Hrun. injection Hrun as <- <-.
    cbn [edgeCells graphCells vertexCells] in *.
    intros a. split.
    + intros Ha. destruct (decide (a = new)) as [->|Hne].
      * right. exists src.
        rewrite lookup_insert_eq in Ho'. injection Ho' as <-.
        pose proof (lookupZ_storeZ_eq _ _ _ _ Hst) as Hsl.
        pose proof (own_chain _ _ _ _ Hown' src _ Hsl) as Hchain'.
        cbn [edgeHeadPtr] in Hchain'.
        apply chainAt_Some in Hchain' as (e & next & rest & -> & _).
        by left.
      * left. unfold ec1 in Ha. by rewrite lookup_insert_ne in Ha.
    + intros [Ha|Ha]; [|by apply Halloc]. unfold ec1.
      rewrite lookup_insert_ne; [done|]. intros <-. destruct Ha. congruence.
Qed.

Lemma insertEdgeP_no_leak_witness :
  ∃ st' o' fp',
    insertEdgeP scenarioStore 1%positive 1 2 9 = Some (true, st') ∧
    graphCells st' !! 1%positive = Some o' ∧
    ∀ a, is_Some (edgeCells st' !! a) ↔
         is_Some (edgeCells scenarioStore !! a) ∨ ownsCell fp' a.
Proof.
  destruct (insertEdgeP scenarioStore 1%positive 1 2 9) as [[b st']|] eqn:Hrun;
    [|by vm_compute in Hrun].
  assert (b = true) as ->.
  { destruct b; [done|]. by vm_compute in Hrun. }
  destruct scenarioObject_copyable as (Ho & [Hown _] & Hn & _).
  destruct (insertEdgeP_no_leak scenarioStore 1%positive scenarioObject
              scenarioCells 1 2 9 true st' Ho Hown Hn Hrun)
    as (o' & fp' & Ho' & _ & Hdom).
  exists st', o', fp'. split; [reflexivity|]. split; [exact Ho'|exact Hdom].
Defined.

(** X21: [removeEdge] on the store frees the node it unlinks and nothing
    else: when it returns [true] exactly one edge node, a node of the list
    of [src], is deallocated; when it returns [false] the store is as it
    was. *)
Theorem removeEdgeP_frees_one st this o fp src dst b st' :
  graphCells st !! this = Some o →
  ownedBy (edgeCells st) (vertexCells st) o fp →
  removeEdgeP st this src dst = Some (b, st') →
  (b = false → st' = st) ∧
  (b = true →
     vertexCells st' = vertexCells st ∧
     ∃ a, a ∈ (fp src).*1 ∧ is_Some (edgeCells st !! a) ∧
          edgeCells st' !! a = None ∧
          ∀ c, c ≠ a → is_Some (edgeCells st' !! c) ↔ is_Some (edgeCells st !! c)).
Proof.
  intros Ho Hown Hrun. unfold removeEdgeP in Hrun.
  rewrite Ho in Hrun. cbn [mbind option_bind] in Hrun.
  destruct (lookupZ (slots o) src) as [s|] eqn:Hs; [|done].
  cbn [mbind option_bind] in Hrun.
  pose proof (own_chain _ _ _ _ Hown src s Hs) as Hchain.
  destruct (edgeHeadPtr s) as [head|] eqn:Hhead.
  2:{ injection Hrun as <- <-. split; [done|]. intros [=]. }
  apply chainAt_Some in Hchain as Hsplit.
  destruct Hsplit as (e & next & rest & Hfp & Hnin & Hcell & Hrest).
  rewrite Hcell in Hrun. cbn [mbind option_bind nextEdge node] in Hrun.
  destruct (adjVertex e =? dst).
  - destruct (storeZ (slots o) src _) as [sl|]; [|done].
    cbn [mbind option_bind] in Hrun. injection Hrun as <- <-.
    split; [intros [=]|]. intros _. cbn [edgeCells vertexCells].
    split; [done|]. exists head. rewrite Hfp.
    split; [by left|]. split; [by eexists|]. split; [apply lookup_delete_eq|].
    intros c Hc. by rewrite lookup_delete_ne.
  - destruct (removeWalkP _ (edgeCells st) head next dst) as [r|] eqn:Hwalk; [|done].
    cbn [mbind option_bind] in Hrun.
    destruct r as [ec'|]; injection Hrun as <- <-.
    2:{ split; [done|]. intros [=]. }
    split; [intros [=]|]. intros _. cbn [edgeCells vertexCells].
    split; [done|].
    destruct (removeWalkP_cells (base.size (edgeCells st)) rest (edgeCells st)
                head next dst ec')
      as (a & Ha & Hgone & Hdom); [by eexists|done|done|exact Hwalk|].
    exists a. rewrite Hfp. split; [by right|]. split; [|done].
    by eapply chainAt_allocated.
Qed.

Lemma removeEdgeP_frees_one_witness :
  ∃ st' a,
    removeEdgeP scenarioStore 1%positive 1 3 = Some (true, st') ∧
    a ∈ (scenarioCells 1).*1 ∧ edgeCells st' !! a = None.
Proof.
  destruct (removeEdgeP scenarioStore 1%positive 1 3) as [[b st']|] eqn:Hrun;
    [|by vm_compute in Hrun].
  assert (b = true) as ->.
  { destruct b; [done|]. by vm_compute in Hrun. }
  destruct scenarioObject_copyable as (Ho & [Hown _] & _).
  destruct (removeEdgeP_frees_one scenarioStore 1%positive scenarioObject
              scenarioCells 1 3 true st' Ho Hown Hrun) as (_ & Htrue).
  destruct (Htrue eq_refl) as (_ & a & Ha & _ & Hgone & _).
  exists st', a. split; [reflexivity|]. split; [exact Ha|exact Hgone].
Defined.

(** ** Copying a vertex without a label *)

Lemma copyGraph_null_label st this from o fo i fs :
  graphCells st !! this = Some o → graphCells st !! from = Some fo →
  1 ≤ i ≤ count o → lookupZ (slots fo) i = Some fs → dataPtr fs = None →
  copyGraph st this from = None.
Proof.
  intros Ho Hfo Hi Hfs Hnull. unfold copyGraph.
  rewrite Ho. cbn [mbind option_bind]. rewrite Hfo. cbn [mbind option_bind].
  rewrite (forRange_fail _ 1 (count o) _ i); [done|done|].
  intros x. unfold copySlot. rewrite Hfs. cbn [mbind option_bind].
  destruct (lookupZ (fSlots x) i); [|done]. cbn [mbind option_bind].
  by rewrite Hnull.
Qed.

Lemma clearGraphP_other st this st' b :
  clearGraphP st this = Some st' → b ≠ this →
  graphCells st' !! b = graphCells st !! b.
Proof.
  unfold clearGraphP. intros Hrun Hne.
  destruct (graphCells st !! this) as [o|]; [|done]. cbn [mbind option_bind] in Hrun.
  destruct (0 <? count o); [|by injection Hrun as <-].
  destruct (forRange 1 (count o) clearSlotP _) as [f|]; [|done].
  cbn [mbind option_bind] in Hrun. injection Hrun as <-.
  cbn [graphCells]. by rewrite lookup_insert_ne.
Qed.

(** X22: the copy reads the label of every vertex [1..size] of the object
    copied.  If one of these vertices has none (a null [data] pointer),
    assigning that object to another one and copy-constructing from it are
    undefined. *)
Theorem copy_null_label st this from fo i fs :
  this ≠ from →
  graphCells st !! from = Some fo →
  1 ≤ i ≤ count fo → lookupZ (slots fo) i = Some fs → dataPtr fs = None →
  assign st this from = None ∧
  ∀ T0, copyConstruct st this from T0 = None.
Proof.
  intros Hne Hfo Hi Hfs Hnull. split.
  - unfold assign. destruct (decide (this = from)); [done|].
    destruct (clearGraphP st this) as [st1|] eqn:Hclear; [|done].
    cbn [mbind option_bind].
    destruct (graphCells st1 !! this) as [o|]; [|done]. cbn [mbind option_bind].
    rewrite (clearGraphP_other st this st1 from Hclear) by done.
    rewrite Hfo. cbn [mbind option_bind].
    eapply (copyGraph_null_label _ this from _ fo i fs); cbn [graphCells count];
      [apply lookup_insert_eq| |done|done|done].
    rewrite lookup_insert_ne by done.
    by rewrite (clearGraphP_other st this st1 from Hclear).
  - intros T0. unfold copyConstruct. rewrite Hfo. cbn [mbind option_bind].
    eapply (copyGraph_null_label _ this from _ fo i fs); cbn [graphCells count];
      [apply lookup_insert_eq|by rewrite lookup_insert_ne|done|done|done].
Qed.

Lemma copy_null_label_witness :
  assign unlabelledStore 2%positive 1%positive = None ∧
  ∀ T0, copyConstruct unlabelledStore 3%positive 1%positive T0 = None.
Proof.
  split.
  - apply (copy_null_label unlabelledStore 2%positive 1%positive unlabelledObject 1
             (mkVertexSlot None None));
      [done|reflexivity|simpl; lia|reflexivity|reflexivity].
  - apply (copy_null_label unlabelledStore 3%positive 1%positive unlabelledObject 1
             (mkVertexSlot None None));
      [done|reflexivity|simpl; lia|reflexivity|reflexivity].
Defined.
